(** * The function algebra of [cil.optimisation.functions.Function]

    A shallow embedding of [Function.py]: the classes [Function],
    [SumFunction], [ScaledFunction], [SumScalarFunction],
    [ConstantFunction], [ZeroFunction] and [TranslateFunction], their
    Lipschitz-constant properties, their builders and their proximal
    operators, followed by the properties established about them.

    Numbers are real numbers: Python floats are idealised to exact
    arithmetic, so rounding is outside this development.  Data
    containers live in a store and are named by addresses, because the
    code passes them by reference and writes into them ([out=]). *)

From Stdlib Require Import Reals Lra Lia List.
From stdpp Require Import base list.
Import ListNotations.

Local Open Scope R_scope.

(** ** Python exceptions and the state-and-exception monad *)

Inductive exn : Type :=
| TypeError
| ValueError
| NotImplementedError
| AttributeError
| InvalidReference.   (* an address that names no container; Python has none *)

Inductive result (A : Type) : Type :=
| Ok (a : A)
| Raise (e : exn).
Arguments Ok {A} a.
Arguments Raise {A} e.

(** ** Data containers

    Modelled from the spec: the vector capability ([DataContainer] of
    [cil.framework], not part of these sources) is an elementwise
    numeric container with add / subtract / multiply / divide taking an
    optional output buffer, copy and fill.  A container has an element
    kind; as numpy does, an operation whose result is floating refuses
    with [TypeError] to write into an integer [out] buffer, and
    elementwise operations on different shapes raise [ValueError].
    Integer containers hold reals here: what [fill] does to an integer
    buffer that is handed floating values is not modelled, the buffer
    receives the values. *)

Inductive kind : Type := int_kind | float_kind.

Record DataContainer : Type := mkDC { dtype : kind; array : list R }.

Abbreviation loc := nat.
Abbreviation store := (list DataContainer).

Definition M (A : Type) : Type := store -> result A * store.

Definition ret {A} (a : A) : M A := fun s => (Ok a, s).
Definition raise {A} (e : exn) : M A := fun s => (Raise e, s).
Definition bind {A B} (m : M A) (k : A -> M B) : M B :=
  fun s => match m s with
           | (Ok a, s') => k a s'
           | (Raise e, s') => (Raise e, s')
           end.

Declare Scope py_scope.
Delimit Scope py_scope with py.
Notation "x <- c1 ;; c2" := (bind c1 (fun x => c2))
  (at level 100, c1 at next level, right associativity) : py_scope.
Notation "c1 ;;; c2" := (bind c1 (fun _ => c2))
  (at level 100, right associativity) : py_scope.
Local Open Scope py_scope.

(** [try: body except TypeError: handler] *)
Definition try_except_TypeError {A} (body handler : M A) : M A :=
  fun s => match body s with
           | (Raise TypeError, s') => handler s'
           | r => r
           end.

Definition read (x : loc) : M DataContainer :=
  fun s => match s !! x with
           | Some d => (Ok d, s)
           | None => (Raise InvalidReference, s)
           end.

Definition write (o : loc) (d : DataContainer) : M unit :=
  fun s => (Ok tt, <[o := d]> s).

Definition alloc (d : DataContainer) : M loc :=
  fun s => (Ok (length s), s ++ [d]).

(** numpy's result kind of a binary operation on two arrays *)
Definition result_kind (a b : kind) : kind :=
  match a, b with
  | int_kind, int_kind => int_kind
  | _, _ => float_kind
  end.

(** numpy's same-kind casting rule for [out=] *)
Definition can_cast (from to : kind) : bool :=
  match from, to with
  | float_kind, int_kind => false
  | _, _ => true
  end.

(** elementwise operation on two arrays of the same shape *)
Definition pixel_wise (f : R -> R -> R) (u v : list R) : option (list R) :=
  if Nat.eqb (length u) (length v) then Some (zip_with f u v) else None.

(** [x.add(y, out=o)], [x.subtract(y, out=o)] *)
Definition binary_out (f : R -> R -> R) (x y o : loc) : M unit :=
  dx <- read x ;; dy <- read y ;; dout <- read o ;;
  if can_cast (result_kind (dtype dx) (dtype dy)) (dtype dout) then
    match pixel_wise f (array dx) (array dy) with
    | Some v =>
        if Nat.eqb (length v) (length (array dout))
        then write o (mkDC (dtype dout) v)
        else raise ValueError
    | None => raise ValueError
    end
  else raise TypeError.

(** [x.subtract(y, dtype=np.float32)] *)
Definition binary_new (f : R -> R -> R) (x y : loc) : M loc :=
  dx <- read x ;; dy <- read y ;;
  match pixel_wise f (array dx) (array dy) with
  | Some v => alloc (mkDC float_kind v)
  | None => raise ValueError
  end.

(** [x.multiply(c, out=o)], [x.divide(c, out=o)] with a float scalar [c] *)
Definition scalar_out (f : R -> R) (x o : loc) : M unit :=
  dx <- read x ;; dout <- read o ;;
  if can_cast float_kind (dtype dout) then
    if Nat.eqb (length (array dx)) (length (array dout))
    then write o (mkDC (dtype dout) (map f (array dx)))
    else raise ValueError
  else raise TypeError.

(** [x.divide(c, dtype=np.float32)] *)
Definition scalar_new (f : R -> R) (x : loc) : M loc :=
  dx <- read x ;; alloc (mkDC float_kind (map f (array dx))).

Definition add_out := binary_out Rplus.
Definition subtract_out := binary_out Rminus.
Definition subtract_new := binary_new Rminus.
Definition multiply_out (c : R) := scalar_out (fun a => a * c).
Definition divide_out (c : R) := scalar_out (fun a => a / c).
Definition divide_new (c : R) := scalar_new (fun a => a / c).

(** [x.copy()] *)
Definition copy (x : loc) : M loc := dx <- read x ;; alloc dx.

(** [out.fill(v)] with the values [v] of a container *)
Definition fill_values (o : loc) (v : list R) : M unit :=
  dout <- read o ;;
  if Nat.eqb (length v) (length (array dout))
  then write o (mkDC (dtype dout) v)
  else raise ValueError.

(** [out.fill(x)] *)
Definition fill (o x : loc) : M unit := dx <- read x ;; fill_values o (array dx).

(** ** Function nodes

    One constructor per class.  Every node carries the attribute [_L]
    that [Function.__init__] creates.  [Leaf] stands for a user-defined
    subclass of [Function]: it supplies [__call__] and [proximal] (or
    leaves the base methods, which raise [NotImplementedError]) as pure
    functions of the values of [x]; its [proximal] returns a new
    container, or fills [out], as [ConstantFunction.proximal] does.
    [ZeroFunction] is [ConstantFunction] built with constant [0.].
    A node is a tree: identities of function objects are not modelled,
    so a change to a wrapped function is a change of the child held by
    its parent. *)

Record LeafImpl : Type := mkLeaf {
  leaf_call : option (list R -> R);
  leaf_proximal : option (list R -> R -> list R)
}.

#[local] Set Warnings "-register-all".
Inductive Func : Type :=
| Leaf (_L : option R) (impl : LeafImpl)
| SumFunction (_L : option R) (functions : list Func)
| ScaledFunction (_L : option R) (function : Func) (scalar : R)
| SumScalarFunction (_L : option R) (function : Func) (constant : R)
| ConstantFunction (_L : option R) (constant : R)
| TranslateFunction (_L : option R) (function : Func) (center : loc).

(** A Python value handed to a builder, a constructor or a setter. *)
Inductive pyobj : Type :=
| PyFunction (f : Func)
| PyNumber (r : R)
| PyOther.             (* None, a string, a container, ... *)

Definition attr_L (f : Func) : option R :=
  match f with
  | Leaf l _ | SumFunction l _ | ScaledFunction l _ _
  | SumScalarFunction l _ _ | ConstantFunction l _ | TranslateFunction l _ _ => l
  end.

Definition with_L (f : Func) (l : option R) : Func :=
  match f with
  | Leaf _ i => Leaf l i
  | SumFunction _ fs => SumFunction l fs
  | ScaledFunction _ g a => ScaledFunction l g a
  | SumScalarFunction _ g c => SumScalarFunction l g c
  | ConstantFunction _ c => ConstantFunction l c
  | TranslateFunction _ g b => TranslateFunction l g b
  end.

(** [isinstance(f, SumFunction)]: [SumScalarFunction] is a subclass. *)
Definition isinstance_SumFunction (f : Func) : bool :=
  match f with
  | SumFunction _ _ | SumScalarFunction _ _ _ => true
  | _ => false
  end.

(** *** Constructors *)

(** [ConstantFunction.__init__]: the [constant] setter wants a number. *)
Definition ConstantFunction_init (constant : pyobj) : result Func :=
  match constant with
  | PyNumber c => Ok (ConstantFunction (Some 0) c)
  | _ => Raise TypeError
  end.

Definition ZeroFunction : Func := ConstantFunction (Some 0) 0.

(** [SumFunction.__init__], given the tuple [functions] *)
Definition SumFunction_init (functions : list Func) : result Func :=
  if Nat.ltb (length functions) 2 then Raise ValueError
  else Ok (SumFunction None functions).

(** [SumScalarFunction.__init__(function, constant)] calls
    [SumFunction.__init__(function, ConstantFunction(constant))]. *)
Definition SumScalarFunction_init (function : Func) (constant : pyobj)
  : result Func :=
  match ConstantFunction_init constant with
  | Raise e => Raise e
  | Ok k =>
      match SumFunction_init [function; k], constant with
      | Ok _, PyNumber c => Ok (SumScalarFunction None function c)
      | Ok _, _ => Raise TypeError
      | Raise e, _ => Raise e
      end
  end.

(** the attribute [functions] of a [SumFunction] *)
Definition functions_of (f : Func) : list Func :=
  match f with
  | SumFunction _ fs => fs
  | SumScalarFunction _ g c => [g; ConstantFunction (Some 0) c]
  | _ => []
  end.

(** *** The property [L]

    A read returns the value and the node after the read (a read may
    fill caches).  Where the source reads [f.L] twice in a row, to test
    it against [None] and then to use it, the read is done once here:
    a second read returns the same value and changes nothing
    ([L_stable] below). *)

Definition SumFunction_L_loop (L : Func -> option R * Func)
  : list Func -> R -> option R * list Func :=
  fix loop (fs : list Func) (acc : R) : option R * list Func :=
    match fs with
    | [] => (Some acc, [])
    | g :: rest =>
        match L g with
        | (Some v, g') =>
            let (r, rest') := loop rest (acc + v) in (r, g' :: rest')
        | (None, g') => (None, g' :: rest)
        end
    end.

Fixpoint L (f : Func) : option R * Func :=
  match f with
  | Leaf l _ => (l, f)
  | TranslateFunction l _ _ => (l, f)
  | ConstantFunction _ _ => (Some 0, f)
  | SumFunction _ fs =>
      let (r, fs') := SumFunction_L_loop L fs 0 in (r, SumFunction r fs')
  | ScaledFunction l g a =>
      match l with
      | Some _ => (l, f)
      | None =>
          match L g with
          | (Some v, g') =>
              (Some (Rabs a * v), ScaledFunction (Some (Rabs a * v)) g' a)
          | (None, g') => (None, ScaledFunction None g' a)
          end
      end
  | SumScalarFunction l g c =>
      match l with
      | Some _ => (l, f)
      | None =>
          match L g with
          | (Some v, g') => (Some v, SumScalarFunction (Some v) g' c)
          | (None, g') => (None, SumScalarFunction None g' c)
          end
      end
  end.

(** [Function.L.fset]: the setter of the base class. *)
Definition Function_L_fset (f : Func) (value : pyobj) : result Func :=
  match value with
  | PyNumber v => if Rle_dec 0 v then Ok (with_L f (Some v)) else Raise TypeError
  | _ => Raise TypeError
  end.

(** [f.L = value].  [ConstantFunction] redefines the property [L] with a
    getter only, so the assignment raises [AttributeError]. *)
Definition set_L (f : Func) (value : pyobj) : result Func :=
  match f with
  | ConstantFunction _ _ => Raise AttributeError
  | _ => Function_L_fset f value
  end.

(** *** [SumFunction.Lmax] *)

Fixpoint Lmax_loop (fs : list Func) (l : list R)
  : option (list R) * list Func :=
  match fs with
  | [] => (Some l, [])
  | g :: rest =>
      match L g with
      | (Some v, g') =>
          let (r, rest') := Lmax_loop rest (l ++ [v]) in (r, g' :: rest')
      | (None, g') => (None, g' :: rest)
      end
  end.

(** Python's [max] of a list, or of [None] *)
Definition py_max (l : option (list R)) : result R :=
  match l with
  | None => Raise TypeError
  | Some [] => Raise ValueError
  | Some (a :: t) => Ok (fold_left Rmax t a)
  end.

Definition Lmax (f : Func) : result R * Func :=
  match f with
  | SumFunction l fs =>
      let (r, fs') := Lmax_loop fs [] in (py_max r, SumFunction l fs')
  | SumScalarFunction l g c =>
      let (r, fs') := Lmax_loop (functions_of f) [] in
      (py_max r, SumScalarFunction l (hd g fs') c)
  | _ => (Raise AttributeError, f)
  end.

(** *** Addition *)

(** [Function.__add__] *)
Definition Function_add (self : Func) (other : pyobj) : result Func :=
  match other with
  | PyFunction g => SumFunction_init [self; g]
  | PyNumber _ =>
      (* isinstance(other, (SumScalarFunction, ConstantFunction, Number)):
         the first two are Functions and never get here *)
      SumScalarFunction_init self other
  | PyOther => Raise ValueError
  end.

(** [SumFunction.__add__] *)
Definition SumFunction_add (self : Func) (other : pyobj) : result Func :=
  match other with
  | PyFunction g =>
      if isinstance_SumFunction g
      then SumFunction_init (functions_of self ++ functions_of g)
      else SumFunction_init (functions_of self ++ [g])
  | _ => Function_add self other
  end.

(** [self + other], dispatched on the class of [self] *)
Definition add (self : Func) (other : pyobj) : result Func :=
  if isinstance_SumFunction self then SumFunction_add self other
  else Function_add self other.

(** ** Evaluation and proximal operators on the store *)

(** the value of a call that may have returned [None] *)
Definition deref (v : option loc) : M loc :=
  match v with
  | Some l => ret l
  | None => raise AttributeError
  end.

(** [ret = 0.; for f in functions: ret += f(x)] *)
Definition SumFunction_call_loop (call : Func -> M R) : list Func -> R -> M R :=
  fix loop (fs : list Func) (acc : R) : M R :=
    match fs with
    | [] => ret acc
    | g :: rest => v <- call g ;; loop rest (acc + v)
    end.

(** [f(x)], that is [__call__] *)
Fixpoint call (f : Func) (x : loc) : M R :=
  match f with
  | Leaf _ impl =>
      match leaf_call impl with
      | Some F => dx <- read x ;; ret (F (array dx))
      | None => raise NotImplementedError
      end
  | SumFunction _ fs => SumFunction_call_loop (fun g => call g x) fs 0
  | SumScalarFunction _ g c =>
      (* SumFunction.__call__ over (function, ConstantFunction(constant)) *)
      v <- call g x ;; ret (0 + v + c)
  | ScaledFunction _ g a => v <- call g x ;; ret (a * v)
  | ConstantFunction _ c => ret c
  | TranslateFunction _ g b =>
      tmp <- try_except_TypeError (subtract_out x b x ;;; ret x)
                                  (subtract_new x b) ;;
      val <- call g tmp ;;
      (if Nat.eqb tmp x then add_out x b x else ret tt) ;;;
      ret val
  end.

(** the loop of [SumFunction.__call__] at [x] *)
Abbreviation call_loop x := (SumFunction_call_loop (fun g => call g x)).

(** [f.proximal(x, tau, out)]; the result is the returned container, or
    [None] when [out] is given *)
Fixpoint proximal (f : Func) (x : loc) (tau : R) (out : option loc)
  : M (option loc) :=
  match f with
  | Leaf _ impl =>
      match leaf_proximal impl with
      | Some P =>
          dx <- read x ;;
          match out with
          | None => r <- alloc (mkDC float_kind (P (array dx) tau)) ;; ret (Some r)
          | Some o => fill_values o (P (array dx) tau) ;;; ret None
          end
      | None => raise NotImplementedError
      end
  | SumFunction _ _ => raise NotImplementedError
  | ScaledFunction _ g a => proximal g x (tau * a) out
  | SumScalarFunction _ g _ => proximal g x tau out
  | ConstantFunction _ _ =>
      match out with
      | None => r <- copy x ;; ret (Some r)
      | Some o => fill o x ;;; ret None
      end
  | TranslateFunction _ g b =>
      tmp <- try_except_TypeError (subtract_out x b x ;;; ret x)
                                  (subtract_new x b) ;;
      val <- match out with
             | None =>
                 v <- proximal g tmp tau None ;;
                 val <- deref v ;;
                 add_out val b val ;;; ret v
             | Some o =>
                 proximal g tmp tau (Some o) ;;;
                 add_out o b o ;;; ret None
             end ;;
      (if Nat.eqb tmp x then add_out x b x else ret tt) ;;;
      ret val
  end.

(** the body shared by [Function.proximal_conjugate] and
    [ScaledFunction.proximal_conjugate]: they differ in the function
    [g] and the step [step] of the inner [proximal] only *)
Definition proximal_conjugate_body (g : Func) (step : R)
  (x : loc) (tau : R) (out : option loc) : M (option loc) :=
  tmp <- try_except_TypeError (divide_out tau x x ;;; ret x)
                              (divide_new tau x) ;;
  val <- match out with
         | None => proximal g tmp step None
         | Some o => proximal g tmp step (Some o) ;;; ret (Some o)
         end ;;
  (if Nat.eqb tmp x then multiply_out tau x x else ret tt) ;;;
  v <- deref val ;;
  multiply_out (- tau) v v ;;;
  add_out v x v ;;;
  match out with
  | None => ret val
  | Some _ => ret None
  end.

(** [Function.proximal_conjugate]: calls [self.proximal(tmp, 1.0/tau)].
    The step [tau] is taken other than zero: for a Python float
    [tau = 0], [1.0/tau] and [self.scalar/tau] raise
    [ZeroDivisionError], which has no counterpart in the division of
    real numbers; what is stated about [proximal_conjugate] is stated
    for [tau <> 0]. *)
Definition Function_proximal_conjugate (self : Func) (x : loc) (tau : R)
  (out : option loc) : M (option loc) :=
  proximal_conjugate_body self (1 / tau) x tau out.

(** [ScaledFunction.proximal_conjugate]: calls
    [self.function.proximal(tmp, self.scalar/tau)] *)
Definition ScaledFunction_proximal_conjugate (function : Func) (scalar : R)
  (x : loc) (tau : R) (out : option loc) : M (option loc) :=
  proximal_conjugate_body function (scalar / tau) x tau out.

(** [f.proximal_conjugate(x, tau, out)], dispatched on the class of [f] *)
Definition proximal_conjugate (f : Func) (x : loc) (tau : R)
  (out : option loc) : M (option loc) :=
  match f with
  | ScaledFunction _ g a => ScaledFunction_proximal_conjugate g a x tau out
  | _ => Function_proximal_conjugate f x tau out
  end.

(** ** Induction on function nodes *)

Section Func_induction.
Variable P : Func -> Prop.
Hypothesis HLeaf : forall l i, P (Leaf l i).
Hypothesis HSum : forall l fs, Forall P fs -> P (SumFunction l fs).
Hypothesis HScaled : forall l g a, P g -> P (ScaledFunction l g a).
Hypothesis HSumScalar : forall l g c, P g -> P (SumScalarFunction l g c).
Hypothesis HConstant : forall l c, P (ConstantFunction l c).
Hypothesis HTranslate : forall l g b, P g -> P (TranslateFunction l g b).

Fixpoint Func_nested_ind (f : Func) : P f :=
  match f with
  | Leaf l i => HLeaf l i
  | SumFunction l fs =>
      HSum l fs
        ((fix all (fs : list Func) : Forall P fs :=
            match fs with
            | [] => @List.Forall_nil _ P
            | g :: rest =>
                @List.Forall_cons _ P g rest (Func_nested_ind g) (all rest)
            end) fs)
  | ScaledFunction l g a => HScaled l g a (Func_nested_ind g)
  | SumScalarFunction l g c => HSumScalar l g c (Func_nested_ind g)
  | ConstantFunction l c => HConstant l c
  | TranslateFunction l g b => HTranslate l g b (Func_nested_ind g)
  end.
End Func_induction.

(** ** Auxiliary notions for the statements *)

(** the terms that [SumFunction.__add__] takes from its right operand *)
Definition terms (g : Func) : list Func :=
  if isinstance_SumFunction g then functions_of g else [g].

(** the children of [self + g] *)
Definition add_children (self g : Func) : list Func :=
  if isinstance_SumFunction self then functions_of self ++ terms g
  else [self; g].

(** What [SumFunction.__init__] guarantees of a node. *)
Definition sum_invariant (f : Func) : Prop :=
  isinstance_SumFunction f = true -> (2 <= length (functions_of f))%nat.


(** replacing the wrapped function of a [ScaledFunction] or a
    [SumScalarFunction]: what a change made to the wrapped function
    looks like from its parent *)
Definition with_function (f g : Func) : Func :=
  match f with
  | ScaledFunction l _ a => ScaledFunction l g a
  | SumScalarFunction l _ c => SumScalarFunction l g c
  | _ => f
  end.

(** the classes whose [L] property fills [_L] on a read *)
Definition caches_L (f : Func) : bool :=
  match f with
  | ScaledFunction _ _ _ | SumScalarFunction _ _ _ => true
  | _ => false
  end.

(** operations on the property [L] of a node; an assignment that raises
    leaves the node as it was *)
Inductive L_op : Type :=
| ReadL
| AssignL (value : pyobj).

Definition step_op (f : Func) (o : L_op) : Func :=
  match o with
  | ReadL => snd (L f)
  | AssignL value =>
      match set_L f value with
      | Ok f' => f'
      | Raise _ => f
      end
  end.

Definition run_ops (ops : list L_op) (f : Func) : Func := fold_left step_op ops f.

(** a leaf with no operator of its own, as [Function()] *)
Definition bare (l : option R) : Func := Leaf l (mkLeaf None None).

(** ** Reference values for the proximal operators

    [proximal_value] is what [proximal] computes, as a function of the
    values of [x]: it is used to relate two runs of the code on
    different stores, never as a model of the code itself. *)

(** the centers that [f.proximal] reads *)
Fixpoint proximal_centers (f : Func) : list loc :=
  match f with
  | ScaledFunction _ g _ | SumScalarFunction _ g _ => proximal_centers g
  | TranslateFunction _ g b => b :: proximal_centers g
  | _ => []
  end.

Fixpoint proximal_value (s : store) (f : Func) (v : list R) (tau : R)
  : option (list R) :=
  match f with
  | Leaf _ impl =>
      match leaf_proximal impl with
      | Some P => Some (P v tau)
      | None => None
      end
  | SumFunction _ _ => None
  | ScaledFunction _ g a => proximal_value s g v (tau * a)
  | SumScalarFunction _ g _ => proximal_value s g v tau
  | ConstantFunction _ _ => Some v
  | TranslateFunction _ g b =>
      match s !! b with
      | Some B =>
          match pixel_wise Rminus v (array B) with
          | Some d =>
              match proximal_value s g d tau with
              | Some w => pixel_wise Rplus w (array B)
              | None => None
              end
          | None => None
          end
      | None => None
      end
  end.

(** The arguments of [f.proximal(x, tau, out)] are separate in the store
    [s]: [x] is a container; the centers read by [f] are containers
    other than [x] and [out]; [out], when given, is a container other
    than [x]. *)
Definition separate (s : store) (f : Func) (x : loc) (out : option loc)
  : Prop :=
  is_Some (s !! x) /\
  Forall (fun b => b <> x /\ (b < length s)%nat /\ Some b <> out)
         (proximal_centers f) /\
  match out with
  | None => True
  | Some o => o <> x /\ is_Some (s !! o)
  end.

(** [out], when given, is a floating container. *)
Definition floating_out (s : store) (out : option loc) : Prop :=
  match out with
  | None => True
  | Some o => exists Dout, s !! o = Some Dout /\ dtype Dout = float_kind
  end.

(** The call is well placed: separate arguments, floating [out]. *)
Definition well_placed (s : store) (f : Func) (x : loc) (out : option loc)
  : Prop :=
  is_Some (s !! x) /\
  Forall (fun b => b <> x /\ (b < length s)%nat /\ Some b <> out)
         (proximal_centers f) /\
  match out with
  | None => True
  | Some o => o <> x /\ exists Dout, s !! o = Some Dout /\ dtype Dout = float_kind
  end.

(** [s'] has the containers of [s], with their element kinds. *)
Definition keeps_kinds (s s' : store) : Prop :=
  forall l D, s !! l = Some D ->
              exists D', s' !! l = Some D' /\ dtype D' = dtype D.

Definition kind_safe {A} (m : M A) : Prop :=
  forall s, keeps_kinds s (snd (m s)).

(** What a run of [proximal] that started in [s] on the container [X]
    at [x] must look like, given the reference value [v]. *)
Definition proximal_post (s : store) (X : DataContainer)
  (out : option loc) (v : option (list R))
  (run : result (option loc) * store) : Prop :=
  match v, out with
  | None, _ => exists e, fst run = Raise e
  | Some v, None =>
      exists p k,
        fst run = Ok (Some p) /\ (length s <= p)%nat /\
        snd run !! p = Some (mkDC k v) /\
        (dtype X = float_kind -> k = float_kind) /\
        forall l, (l < length s)%nat -> snd run !! l = s !! l
  | Some v, Some o =>
      match s !! o with
      | Some Dout =>
          if Nat.eqb (length v) (length (array Dout)) then
            fst run = Ok None /\
            snd run !! o = Some (mkDC (dtype Dout) v) /\
            forall l, (l < length s)%nat -> l <> o -> snd run !! l = s !! l
          else exists e, fst run = Raise e
      | None => True
      end
  end.

(** the value that [proximal_conjugate] computes from the value [w] of
    the inner [proximal]: [w * (-tau) + x] *)
Definition conjugate_value (tau : R) (x : list R) (w : option (list R))
  : option (list R) :=
  match w with
  | Some w => pixel_wise Rplus (map (fun a => a * - tau) w) x
  | None => None
  end.

(** * Further definitions: the rest of the function algebra *)

(** ** Reference values for evaluation *)

(** the centers that [f(x)] reads *)
Fixpoint call_centers (f : Func) : list loc :=
  match f with
  | SumFunction _ fs => flat_map call_centers fs
  | ScaledFunction _ g _ | SumScalarFunction _ g _ => call_centers g
  | TranslateFunction _ g b => b :: call_centers g
  | _ => []
  end.

Definition call_value_loop (cv : Func -> option R)
  : list Func -> R -> option R :=
  fix loop (fs : list Func) (acc : R) : option R :=
    match fs with
    | [] => Some acc
    | g :: rest =>
        match cv g with
        | Some v => loop rest (acc + v)
        | None => None
        end
    end.

(** what [f(x)] computes from the values [v] of [x]; as
    [proximal_value], it serves to relate runs of the code *)
Fixpoint call_value (s : store) (f : Func) (v : list R) : option R :=
  match f with
  | Leaf _ impl =>
      match leaf_call impl with
      | Some F => Some (F v)
      | None => None
      end
  | SumFunction _ fs => call_value_loop (fun g => call_value s g v) fs 0
  | SumScalarFunction _ g c =>
      match call_value s g v with
      | Some w => Some (0 + w + c)
      | None => None
      end
  | ScaledFunction _ g a =>
      match call_value s g v with
      | Some w => Some (a * w)
      | None => None
      end
  | ConstantFunction _ c => Some c
  | TranslateFunction _ g b =>
      match s !! b with
      | Some B =>
          match pixel_wise Rminus v (array B) with
          | Some d => call_value s g d
          | None => None
          end
      | None => None
      end
  end.

(** [x] is a container of [s] and the centers read by [f(x)] are
    containers of [s] other than [x] *)
Definition call_ready (s : store) (f : Func) (x : loc) : Prop :=
  is_Some (s !! x) /\
  Forall (fun b => b <> x /\ (b < length s)%nat) (call_centers f).

(** What a run of [f(x)] that started in [s] must look like, given the
    reference value [v]. *)
Definition call_post (s : store) (v : option R) (run : result R * store)
  : Prop :=
  match v with
  | Some v =>
      fst run = Ok v /\
      forall l, (l < length s)%nat -> snd run !! l = s !! l
  | None => exists e, fst run = Raise e
  end.

(** an example of a user-defined function: [F(x)] is the sum of the
    entries of [x], and [proximal] is not defined *)
Definition sum_of_entries : Func :=
  Leaf None (mkLeaf (Some (fold_right Rplus 0)) None).

(** the classes whose [L] is what [_L] holds once it is assigned *)
Definition keeps_assigned_L (f : Func) : bool :=
  match f with
  | Leaf _ _ | ScaledFunction _ _ _ | SumScalarFunction _ _ _
  | TranslateFunction _ _ _ => true
  | _ => false
  end.

(** ** The other builders *)

(** [ScaledFunction.__init__]: the scalar must be a number. *)
Definition ScaledFunction_init (function : Func) (scalar : pyobj)
  : result Func :=
  match scalar with
  | PyNumber a => Ok (ScaledFunction None function a)
  | _ => Raise TypeError
  end.

(** [Function.__rmul__] *)
Definition Function_rmul (self : Func) (scalar : pyobj) : result Func :=
  ScaledFunction_init self scalar.

(** [ConstantFunction.__rmul__], for the constant [constant] of [self].
    For an operand that is not a number the source has
    [raise NotImplemented]; [NotImplemented] is no exception, and the
    statement raises [TypeError]. *)
Definition ConstantFunction_rmul (constant : R) (other : pyobj)
  : result Func :=
  match other with
  | PyNumber a => ConstantFunction_init (PyNumber (constant * a))
  | _ => Raise TypeError
  end.

(** [scalar * self], dispatched on the class of [self] *)
Definition rmul (self : Func) (scalar : pyobj) : result Func :=
  match self with
  | ConstantFunction _ c => ConstantFunction_rmul c scalar
  | _ => Function_rmul self scalar
  end.

(** [Function.__mul__]: [self.__rmul__(scalar)] *)
Definition mul (self : Func) (scalar : pyobj) : result Func := rmul self scalar.

(** [Function.__radd__]: [self + other] *)
Definition radd (self : Func) (other : pyobj) : result Func := add self other.

(** [(-1) * other].  What Python makes of it for an operand that is
    neither a Function nor a number is not for this file to say: it is
    the parameter [minus_other]. *)
Definition minus_one_times (minus_other : result pyobj) (other : pyobj)
  : result pyobj :=
  match other with
  | PyFunction g =>
      match rmul g (PyNumber (-1)) with
      | Ok h => Ok (PyFunction h)
      | Raise e => Raise e
      end
  | PyNumber c => Ok (PyNumber (-1 * c))
  | PyOther => minus_other
  end.

(** [Function.__sub__]: [self + (-1) * other] *)
Definition sub (minus_other : result pyobj) (self : Func) (other : pyobj)
  : result Func :=
  match minus_one_times minus_other other with
  | Ok o => add self o
  | Raise e => Raise e
  end.

(** [TranslateFunction.__init__]: [_L] is [function.L], read once.  The
    read may fill the caches of [function], which the new node holds. *)
Definition TranslateFunction_init (function : Func) (center : loc) : Func :=
  let (l, function') := L function in TranslateFunction l function' center.

(** [Function.centered_at] *)
Definition centered_at (self : Func) (center : option loc) : Func :=
  match center with
  | None => self
  | Some b => TranslateFunction_init self b
  end.

(** replacing the wrapped function of a node that wraps one *)
Definition with_wrapped (f g : Func) : Func :=
  match f with
  | TranslateFunction l _ b => TranslateFunction l g b
  | _ => with_function f g
  end.

(** the functions on which [proximal] ends in the [proximal] of the
    base class, which raises [NotImplementedError]: a [SumFunction], a
    user-defined function that does not define [proximal], or such a
    function scaled or added to a scalar *)
Fixpoint no_proximal (f : Func) : bool :=
  match f with
  | Leaf _ impl =>
      match leaf_proximal impl with
      | Some _ => false
      | None => true
      end
  | SumFunction _ _ => true
  | ScaledFunction _ g _ | SumScalarFunction _ g _ => no_proximal g
  | _ => false
  end.

(** ** Convex conjugates

    More of the vector capability, as above: [x.maximum(c)] returns a
    new container of the kind of [x]; [x.sum()] and [b.dot(x)] return
    numbers, and [dot] raises [ValueError] on different shapes. *)

(** [x.maximum(c)] *)
Definition maximum_new (c : R) (x : loc) : M loc :=
  dx <- read x ;; alloc (mkDC (dtype dx) (map (fun a => Rmax a c) (array dx))).

(** [x.sum()] *)
Definition sum (x : loc) : M R :=
  dx <- read x ;; ret (fold_right Rplus 0 (array dx)).

(** [b.dot(x)] *)
Definition dot (b x : loc) : M R :=
  db <- read b ;; dx <- read x ;;
  match pixel_wise Rmult (array db) (array dx) with
  | Some p => ret (fold_right Rplus 0 p)
  | None => raise ValueError
  end.

Section Conjugates.

(** the method [convex_conjugate] of the user-defined functions, where
    they define it: a function of the values of [x] *)
Variable leaf_convex_conjugate : LeafImpl -> option (list R -> R).

(** [f.convex_conjugate(x)] *)
Fixpoint convex_conjugate (f : Func) (x : loc) : M R :=
  match f with
  | Leaf _ impl =>
      match leaf_convex_conjugate impl with
      | Some F => dx <- read x ;; ret (F (array dx))
      | None => raise NotImplementedError
      end
  | SumFunction _ _ => raise NotImplementedError
  | ScaledFunction _ g a =>
      tmp <- try_except_TypeError (divide_out a x x ;;; ret x)
                                  (divide_new a x) ;;
      val <- convex_conjugate g tmp ;;
      (if Nat.eqb tmp x then multiply_out a x x else ret tt) ;;;
      ret (a * val)
  | SumScalarFunction _ g c => v <- convex_conjugate g x ;; ret (v - c)
  | ConstantFunction _ _ => m <- maximum_new 0 x ;; sum m
  | TranslateFunction _ g b =>
      v <- convex_conjugate g x ;; d <- dot b x ;; ret (v + d)
  end.

(** the centers that [f.convex_conjugate] reads *)
Fixpoint conjugate_centers (f : Func) : list loc :=
  match f with
  | ScaledFunction _ g _ | SumScalarFunction _ g _ => conjugate_centers g
  | TranslateFunction _ g b => b :: conjugate_centers g
  | _ => []
  end.

(** the scalars by which [f.convex_conjugate] divides *)
Fixpoint conjugate_scalars (f : Func) : list R :=
  match f with
  | ScaledFunction _ g a => a :: conjugate_scalars g
  | SumScalarFunction _ g _ | TranslateFunction _ g _ => conjugate_scalars g
  | _ => []
  end.

(** what [f.convex_conjugate(x)] computes from the values [v] of [x];
    it serves to relate runs of the code *)
Fixpoint conjugate_ref (s : store) (f : Func) (v : list R) : option R :=
  match f with
  | Leaf _ impl =>
      match leaf_convex_conjugate impl with
      | Some F => Some (F v)
      | None => None
      end
  | SumFunction _ _ => None
  | ScaledFunction _ g a =>
      match conjugate_ref s g (map (fun e => e / a) v) with
      | Some w => Some (a * w)
      | None => None
      end
  | SumScalarFunction _ g c =>
      match conjugate_ref s g v with
      | Some w => Some (w - c)
      | None => None
      end
  | ConstantFunction _ _ =>
      Some (fold_right Rplus 0 (map (fun e => Rmax e 0) v))
  | TranslateFunction _ g b =>
      match conjugate_ref s g v, s !! b with
      | Some w, Some B =>
          match pixel_wise Rmult (array B) v with
          | Some p => Some (w + fold_right Rplus 0 p)
          | None => None
          end
      | _, _ => None
      end
  end.

End Conjugates.

(** [x] is a container of [s]; the centers read by
    [f.convex_conjugate] are containers of [s] other than [x]; no
    scalar it divides by is zero *)
Definition conjugate_ready (s : store) (f : Func) (x : loc) : Prop :=
  is_Some (s !! x) /\
  Forall (fun b => b <> x /\ (b < length s)%nat) (conjugate_centers f) /\
  Forall (fun a => a <> 0) (conjugate_scalars f).

(** ** Gradients

    More of the vector capability: [x * c] returns a new floating
    container ([c] is a float), [out *= c] and [ret += y] work in
    place and [out.fill(c)] gives every entry of [out] the value
    [c]. *)

(** [x * c], [c * x] *)
Definition multiply_new (c : R) := scalar_new (fun a => a * c).

(** [out.fill(c)] with a number [c] *)
Definition fill_number (o : loc) (c : R) : M unit :=
  dout <- read o ;;
  write o (mkDC (dtype dout) (map (fun _ => c) (array dout))).

(** the operand of an arithmetic operation, which must not be [None] *)
Definition operand (v : option loc) : M loc :=
  match v with
  | Some l => ret l
  | None => raise TypeError
  end.

(** [for f in functions[1:]: ret += f.gradient(x)], with [ret] the
    container [acc] *)
Definition SumFunction_gradient_loop (gradient : Func -> M (option loc))
  (acc : loc) : list Func -> M unit :=
  fix loop (fs : list Func) : M unit :=
    match fs with
    | [] => ret tt
    | g :: rest =>
        v <- gradient g ;; p <- operand v ;; add_out acc p acc ;;; loop rest
    end.

(** [ConstantFunction.gradient] *)
Definition ConstantFunction_gradient (x : loc) (out : option loc)
  : M (option loc) :=
  match out with
  | None => r <- multiply_new 0 x ;; ret (Some r)
  | Some o => fill_number o 0 ;;; ret None
  end.

Section Gradients.

(** the method [gradient] of the user-defined functions, where they
    define it: a function of the values of [x], returned in a new
    container or written to [out] *)
Variable leaf_gradient : LeafImpl -> option (list R -> list R).

(** [f.gradient(x, out)].  With no function at all, a state that
    [SumFunction.__init__] excludes, [SumFunction.gradient] returns
    its unbound local [ret]: that is rendered [InvalidReference]. *)
Fixpoint gradient (f : Func) (x : loc) (out : option loc) : M (option loc) :=
  match f with
  | Leaf _ impl =>
      match leaf_gradient impl with
      | Some G =>
          dx <- read x ;;
          match out with
          | None => r <- alloc (mkDC float_kind (G (array dx))) ;; ret (Some r)
          | Some o => fill_values o (G (array dx)) ;;; ret None
          end
      | None => raise NotImplementedError
      end
  | SumFunction _ fs =>
      match out, fs with
      | None, [] => raise InvalidReference
      | None, g0 :: rest =>
          v <- gradient g0 x None ;;
          r <- operand v ;;
          SumFunction_gradient_loop (fun g => gradient g x None) r rest ;;;
          ret v
      | Some o, [] => ret None
      | Some o, g0 :: rest =>
          gradient g0 x (Some o) ;;;
          SumFunction_gradient_loop (fun g => gradient g x None) o rest ;;;
          ret None
      end
  | SumScalarFunction _ g _ =>
      (* SumFunction.gradient over (function, ConstantFunction(constant)) *)
      match out with
      | None =>
          v <- gradient g x None ;;
          r <- operand v ;;
          z <- ConstantFunction_gradient x None ;;
          p <- operand z ;;
          add_out r p r ;;;
          ret v
      | Some o =>
          gradient g x (Some o) ;;;
          z <- ConstantFunction_gradient x None ;;
          p <- operand z ;;
          add_out o p o ;;;
          ret None
      end
  | ScaledFunction _ g a =>
      match out with
      | None =>
          v <- gradient g x None ;;
          p <- operand v ;;
          r <- multiply_new a p ;;
          ret (Some r)
      | Some o =>
          gradient g x (Some o) ;;;
          multiply_out a o o ;;;
          ret None
      end
  | ConstantFunction _ _ => ConstantFunction_gradient x out
  | TranslateFunction _ g b =>
      tmp <- try_except_TypeError (subtract_out x b x ;;; ret x)
                                  (subtract_new x b) ;;
      val <- match out with
             | None => gradient g tmp None
             | Some o => gradient g tmp (Some o) ;;; ret None
             end ;;
      (if Nat.eqb tmp x then add_out x b x else ret tt) ;;;
      ret val
  end.

Definition gradient_loop_ref (gr : Func -> option (list R))
  : list Func -> list R -> option (list R) :=
  fix loop (fs : list Func) (acc : list R) : option (list R) :=
    match fs with
    | [] => Some acc
    | g :: rest =>
        match gr g with
        | Some w =>
            match pixel_wise Rplus acc w with
            | Some acc' => loop rest acc'
            | None => None
            end
        | None => None
        end
    end.

(** what [f.gradient(x)] computes from the values [v] of [x]; it
    serves to relate runs of the code *)
Fixpoint gradient_ref (s : store) (f : Func) (v : list R)
  : option (list R) :=
  match f with
  | Leaf _ impl =>
      match leaf_gradient impl with
      | Some G => Some (G v)
      | None => None
      end
  | SumFunction _ fs =>
      match fs with
      | [] => None
      | g0 :: rest =>
          match gradient_ref s g0 v with
          | Some w0 => gradient_loop_ref (fun g => gradient_ref s g v) rest w0
          | None => None
          end
      end
  | SumScalarFunction _ g _ =>
      match gradient_ref s g v with
      | Some w => pixel_wise Rplus w (map (fun _ => 0) v)
      | None => None
      end
  | ScaledFunction _ g a =>
      match gradient_ref s g v with
      | Some w => Some (map (fun e => e * a) w)
      | None => None
      end
  | ConstantFunction _ _ => Some (map (fun _ => 0) v)
  | TranslateFunction _ g b =>
      match s !! b with
      | Some B =>
          match pixel_wise Rminus v (array B) with
          | Some d => gradient_ref s g d
          | None => None
          end
      | None => None
      end
  end.

End Gradients.

(** every [SumFunction] in [f] has a function *)
Fixpoint sums_not_empty (f : Func) : Prop :=
  match f with
  | SumFunction _ fs =>
      fs <> [] /\ fold_right (fun g P => sums_not_empty g /\ P) True fs
  | ScaledFunction _ g _ | SumScalarFunction _ g _
  | TranslateFunction _ g _ => sums_not_empty g
  | _ => True
  end.

(** The call [f.gradient(x, out)] is ready in [s]: [x] is a container;
    the centers in [f] are containers other than [x] and [out]; no
    [SumFunction] in [f] is empty; [out], when given, is a floating
    container other than [x], of the shape of [x]. *)
Definition gradient_ready (s : store) (f : Func) (x : loc)
  (out : option loc) : Prop :=
  is_Some (s !! x) /\
  Forall (fun b => b <> x /\ (b < length s)%nat /\ Some b <> out)
         (call_centers f) /\
  sums_not_empty f /\
  match out with
  | None => True
  | Some o =>
      o <> x /\
      exists X Dout, s !! x = Some X /\ s !! o = Some Dout /\
                     dtype Dout = float_kind /\
                     length (array Dout) = length (array X)
  end.

(** What a run of [gradient] that started in [s] must look like, given
    the reference value [v]: the result is a floating container. *)
Definition gradient_post (s : store) (out : option loc)
  (v : option (list R)) (run : result (option loc) * store) : Prop :=
  match v, out with
  | None, _ => exists e, fst run = Raise e
  | Some v, None =>
      exists p,
        fst run = Ok (Some p) /\ (length s <= p)%nat /\
        snd run !! p = Some (mkDC float_kind v) /\
        forall l, (l < length s)%nat -> snd run !! l = s !! l
  | Some v, Some o =>
      match s !! o with
      | Some Dout =>
          if Nat.eqb (length v) (length (array Dout)) then
            fst run = Ok None /\
            snd run !! o = Some (mkDC (dtype Dout) v) /\
            (length s <= length (snd run))%nat /\
            forall l, (l < length s)%nat -> l <> o -> snd run !! l = s !! l
          else exists e, fst run = Raise e
      | None => True
      end
  end.

(** * The region of interest of [cil.io.ZEISSDataReader]

    [set_roi], [full_roi] and the counting part of [slice_metadata].
    Reading the file ([read_metadata], [read]) and building the
    geometry belong to [dxchange], [olefile] and [cil.framework]; the
    three sizes that the reader takes from the file are the record
    [metadata].  The labels [DataOrder.CIL_AG_LABELS] and
    [DataOrder.CIL_IG_LABELS] of [cil.framework] are the parameter
    [allowed_labels]. *)

From Stdlib Require String ZArith.
Import String.StringSyntax.
Delimit Scope string_scope with str.

Module ZEISS.
Local Open Scope Z_scope.

Inductive exn : Type :=
| AttributeError
| KeyError
| IndexError
| ValueError
| TypeError.

Inductive result (A : Type) : Type :=
| Ok (a : A)
| Raise (e : exn).
Arguments Ok {A} a.
Arguments Raise {A} e.

Inductive file_type : Type := txrm | txm.

(** the sizes in [self._metadata_full] *)
Record metadata : Type := mkMetadata {
  number_of_images : Z;
  image_height : Z;
  image_width : Z
}.

(** the property [full_roi] *)
Definition full_roi (m : metadata) : list (list Z) :=
  [ [0; number_of_images m; 1];
    [0; image_height m; 1];
    [0; image_width m; 1] ].

(** a value of the dictionary [roi]: [-1], or a tuple whose entries are
    [None] or integers *)
Inductive roi_value : Type :=
| whole_axis
| bounds (t : list (option Z)).

(** the dictionary [roi], its keys in insertion order *)
Definition roi_dict : Type := list (String.string * roi_value).

(** the dictionary [zeis_data_order] *)
Definition zeis_data_order (ft : file_type) (key : String.string)
  : option nat :=
  match ft with
  | txrm =>
      if String.eqb key "angle"%str then Some 0%nat
      else if String.eqb key "vertical"%str then Some 1%nat
      else if String.eqb key "horizontal"%str then Some 2%nat
      else None
  | txm =>
      if String.eqb key "vertical"%str then Some 0%nat
      else if String.eqb key "horizontal_y"%str then Some 1%nat
      else if String.eqb key "horizontal_x"%str then Some 2%nat
      else None
  end.

(** [row[i] = v] on a Python list *)
Definition set_item (row : list Z) (i : nat) (v : Z) : result (list Z) :=
  if Nat.ltb i (length row) then Ok (<[i := v]> row) else Raise IndexError.

(** [row[i]] *)
Definition get_item (row : list Z) (i : nat) : result Z :=
  match row !! i with
  | Some v => Ok v
  | None => Raise IndexError
  end.

(** [for i, x in enumerate(roi[key])], from index [i] on, over the row
    [roi_tmp[idx]] *)
Fixpoint set_bounds (row : list Z) (i : nat) (t : list (option Z))
  : result (list Z) :=
  match t with
  | [] => Ok row
  | None :: rest => set_bounds row (S i) rest
  | Some x :: rest =>
      let value :=
        if negb (Nat.eqb i 2) then
          if 0 <=? x then Ok x
          else match get_item row 1 with
               | Ok stop => Ok (stop - x)
               | Raise e => Raise e
               end
        else Ok (if 0 <? x then x else 1) in
      match value with
      | Ok v =>
          match set_item row i v with
          | Ok row' => set_bounds row' (S i) rest
          | Raise e => Raise e
          end
      | Raise e => Raise e
      end
  end.

(** [for key in roi.keys()].  For a key outside [allowed_labels] the
    source builds its message with [self.full_roi.keys()]; [full_roi]
    is a list, and that raises [AttributeError]. *)
Fixpoint set_roi_loop (ft : file_type) (allowed_labels : list String.string)
  (roi_tmp : list (list Z)) (items : roi_dict) : result (list (list Z)) :=
  match items with
  | [] => Ok roi_tmp
  | (key, value) :: rest =>
      if negb (existsb (String.eqb key) allowed_labels)
      then Raise AttributeError
      else
        match zeis_data_order ft key with
        | None => Raise KeyError
        | Some idx =>
            match value with
            | whole_axis => set_roi_loop ft allowed_labels roi_tmp rest
            | bounds t =>
                match roi_tmp !! idx with
                | Some row =>
                    match set_bounds row 0 t with
                    | Ok row' =>
                        set_roi_loop ft allowed_labels
                          (<[idx := row']> roi_tmp) rest
                    | Raise e => Raise e
                    end
                | None => Raise IndexError
                end
            end
        end
  end.

(** [set_roi]: the value given to [self._roi], given the file type and
    the sizes in [self._metadata_full] *)
Definition set_roi (ft : file_type) (allowed_labels : list String.string)
  (m : metadata) (roi : option roi_dict) : result (option (list (list Z))) :=
  match roi with
  | None => Ok None
  | Some items =>
      match set_roi_loop ft allowed_labels (full_roi m) items with
      | Ok r => Ok (Some r)
      | Raise e => Raise e
      end
  end.



(** a well-formed row: start, stop and a positive step *)
Definition good_row (row : list Z) : Prop :=
  exists start stop step, row = [start; stop; step] /\ 1 <= step.

(** the size of axis [idx] in the metadata *)
Definition axis_size (m : metadata) (idx : nat) : Z :=
  nth idx [number_of_images m; image_height m; image_width m] 0.


(** a key that [set_roi] accepts for the file type *)
Definition good_key (ft : file_type) (allowed_labels : list String.string)
  (key : String.string) : Prop :=
  existsb (String.eqb key) allowed_labels = true /\
  is_Some (zeis_data_order ft key).

End ZEISS.
(** * Properties *)

(** ** Reading [L] twice *)

Lemma SumFunction_L_loop_stable (fs : list Func) :
  Forall (fun g => L (snd (L g)) = L g) fs ->
  forall acc,
    SumFunction_L_loop L (snd (SumFunction_L_loop L fs acc)) acc
    = SumFunction_L_loop L fs acc.
Proof.
  induction 1 as [|g rest Hg _ IH]; intros acc; simpl; [reflexivity|].
  destruct (L g) as [[v|] g'] eqn:E; simpl in Hg.
  - specialize (IH (acc + v)).
    destruct (SumFunction_L_loop L rest (acc + v)) as [r rest'] eqn:E2.
    simpl in *. rewrite Hg, IH. reflexivity.
  - simpl. rewrite Hg. reflexivity.
Qed.

(** A second read of [L] returns what the first one returned and leaves
    the node as the first one left it. *)
Lemma L_stable (f : Func) : L (snd (L f)) = L f.
Proof.
  induction f as [l i|l fs IH|l g a IH|l g c IH|l c|l g b IH]
    using Func_nested_ind; simpl; try reflexivity.
  - pose proof (SumFunction_L_loop_stable fs IH 0) as H.
    destruct (SumFunction_L_loop L fs 0) as [r fs'] eqn:E. simpl in *.
    rewrite H. reflexivity.
  - destruct l as [l|]; [reflexivity|].
    destruct (L g) as [[v|] g'] eqn:E; simpl in *; [reflexivity|].
    rewrite IH. reflexivity.
  - destruct l as [l|]; [reflexivity|].
    destruct (L g) as [[v|] g'] eqn:E; simpl in *; [reflexivity|].
    rewrite IH. reflexivity.
Qed.

(** ** Builders *)

Lemma SumFunction_init_ok (fs : list Func) :
  (2 <= length fs)%nat -> SumFunction_init fs = Ok (SumFunction None fs).
Proof.
  intros H. unfold SumFunction_init.
  destruct (Nat.ltb_spec (length fs) 2) as [Hlt|_]; [lia|reflexivity].
Qed.

Lemma add_Function (self g : Func) :
  sum_invariant self ->
  add self (PyFunction g) = Ok (SumFunction None (add_children self g)).
Proof.
  intros Hinv. unfold add, add_children, terms, sum_invariant in *.
  destruct (isinstance_SumFunction self) eqn:Es; simpl.
  - specialize (Hinv eq_refl).
    destruct (isinstance_SumFunction g);
      apply SumFunction_init_ok; rewrite length_app; lia.
  - reflexivity.
Qed.

Lemma add_Number (self : Func) (c : R) :
  add self (PyNumber c) = Ok (SumScalarFunction None self c).
Proof.
  unfold add. destruct (isinstance_SumFunction self); reflexivity.
Qed.

(** C4 (as amended): for every node [self] built by the constructors,
    [self + other] is a [SumFunction] whenever [other] is a Function,
    a [ConstantFunction] included, and it is the [SumScalarFunction] of
    [self] and [other] when [other] is a number. *)
Theorem C4_add_builds_Sum_or_SumScalar (self : Func) :
  sum_invariant self ->
  (forall g : Func,
      add self (PyFunction g) = Ok (SumFunction None (add_children self g))) /\
  (forall c : R,
      add self (PyNumber c) = Ok (SumScalarFunction None self c)).
Proof.
  intros Hinv. split.
  - intros g. apply add_Function, Hinv.
  - apply add_Number.
Qed.

Lemma C4_add_witness :
  add (bare None) (PyFunction (ConstantFunction (Some 0) 5))
  = Ok (SumFunction None [bare None; ConstantFunction (Some 0) 5]) /\
  add (bare None) (PyNumber 5) = Ok (SumScalarFunction None (bare None) 5).
Proof.
  assert (Hinv : sum_invariant (bare None)) by (intros H; discriminate H).
  split.
  - exact (proj1 (C4_add_builds_Sum_or_SumScalar (bare None) Hinv)
             (ConstantFunction (Some 0) 5)).
  - exact (proj2 (C4_add_builds_Sum_or_SumScalar (bare None) Hinv) 5).
Defined.

(** C4, counterexample: a Function plus a [ConstantFunction] is not a
    [SumScalarFunction]; [Function.__add__] tests [isinstance(other,
    Function)] first, and a [ConstantFunction] is a Function. *)
Lemma C4_add_ConstantFunction_is_not_SumScalar :
  ~ exists l g c,
      add (bare None) (PyFunction (ConstantFunction (Some 0) 5))
      = Ok (SumScalarFunction l g c).
Proof. intros (l & g & c & H). discriminate H. Qed.

(** ** [Lmax] *)

Lemma Lmax_loop_undefined (fs : list Func) :
  Exists (fun g => fst (L g) = None) fs ->
  forall acc, fst (Lmax_loop fs acc) = None.
Proof.
  induction fs as [|g rest IH]; intros Hex acc.
  - inversion Hex.
  - simpl. destruct (L g) as [[v|] g'] eqn:E; [|reflexivity].
    apply Exists_cons in Hex as [Hg|Hrest].
    + rewrite E in Hg. discriminate Hg.
    + specialize (IH Hrest (acc ++ [v])).
      destruct (Lmax_loop rest (acc ++ [v])) as [r rest']. exact IH.
Qed.

Lemma Lmax_loop_defined (fs : list Func) (vs : list R) :
  Forall2 (fun g v => fst (L g) = Some v) fs vs ->
  forall acc, fst (Lmax_loop fs acc) = Some (acc ++ vs).
Proof.
  induction 1 as [|g v rest vs' Hg _ IH]; intros acc; simpl.
  - rewrite app_nil_r. reflexivity.
  - destruct (L g) as [[w|] g'] eqn:E; simpl in Hg; [|discriminate Hg].
    injection Hg as ->. specialize (IH (acc ++ [v])).
    destruct (Lmax_loop rest (acc ++ [v])) as [r rest']. simpl in *.
    rewrite IH, <- app_assoc. reflexivity.
Qed.

(** With every child's [L] defined, [Lmax] is the maximum of them. *)
Lemma Lmax_defined (l : option R) (g : Func) (rest : list Func)
  (v : R) (vs : list R) :
  Forall2 (fun g v => fst (L g) = Some v) (g :: rest) (v :: vs) ->
  fst (Lmax (SumFunction l (g :: rest))) = Ok (fold_left Rmax vs v).
Proof.
  intros H. unfold Lmax.
  pose proof (Lmax_loop_defined _ _ H []) as E.
  destruct (Lmax_loop (g :: rest) []) as [r fs']. simpl in E. subst r.
  reflexivity.
Qed.

(** With a child whose [L] is [None], [max(None)] raises. *)
Lemma Lmax_undefined (l : option R) (fs : list Func) :
  Exists (fun g => fst (L g) = None) fs ->
  fst (Lmax (SumFunction l fs)) = Raise TypeError.
Proof.
  intros H. unfold Lmax.
  pose proof (Lmax_loop_undefined _ H []) as E.
  destruct (Lmax_loop fs []) as [r fs']. simpl in E. subst r. reflexivity.
Qed.

(** C5, at the failing input: for the sum of a function with [L = 1]
    and a function whose [L] is [None], reading [Lmax] raises
    [TypeError]; it does not return [None] as reading [L] does. *)
Theorem C5_Lmax_raises_when_a_child_L_is_None :
  Lmax (SumFunction None [bare (Some 1); bare None])
  = (Raise TypeError, SumFunction None [bare (Some 1); bare None]).
Proof. reflexivity. Qed.

(** C6: [SumFunction.__init__] raises [ValueError] for fewer than two
    functions, and builds the node for two or more. *)
Theorem C6_SumFunction_init_needs_two (fs : list Func) :
  ((length fs < 2)%nat -> SumFunction_init fs = Raise ValueError) /\
  ((2 <= length fs)%nat -> SumFunction_init fs = Ok (SumFunction None fs)).
Proof.
  split; intros H.
  - unfold SumFunction_init.
    destruct (Nat.ltb_spec (length fs) 2) as [_|Hge]; [reflexivity|lia].
  - apply SumFunction_init_ok, H.
Qed.

Lemma C6_SumFunction_init_witness :
  SumFunction_init [bare None] = Raise ValueError /\
  SumFunction_init [bare None; ZeroFunction]
  = Ok (SumFunction None [bare None; ZeroFunction]).
Proof.
  split.
  - apply (proj1 (C6_SumFunction_init_needs_two [bare None])). simpl. lia.
  - apply (proj2 (C6_SumFunction_init_needs_two [bare None; ZeroFunction])).
    simpl. lia.
Defined.

(** C7: the proximal operator of a [ScaledFunction] is the proximal
    operator of the wrapped function with step [tau * scalar], on the
    same [x] and the same [out]. *)
Theorem C7_ScaledFunction_proximal
  (l : option R) (F : Func) (alpha : R) (x : loc) (tau : R)
  (out : option loc) (s : store) :
  proximal (ScaledFunction l F alpha) x tau out s
  = proximal F x (tau * alpha) out s.
Proof. reflexivity. Qed.

(** ** Caching of [L] *)

(** C9: a [ScaledFunction] or [SumScalarFunction] with an empty cache
    derives [L] from the wrapped function; once a read has returned a
    number, every later read returns it, whatever the wrapped function
    has become.  A [SumFunction] never consults its [_L]. *)
Theorem C9_L_is_cached_after_first_defined_read :
  (forall g a, fst (L (ScaledFunction None g a))
               = option_map (fun v => Rabs a * v) (fst (L g))) /\
  (forall g c, fst (L (SumScalarFunction None g c)) = fst (L g)) /\
  (forall f v f',
      caches_L f = true -> L f = (Some v, f') ->
      attr_L f' = Some v /\
      forall g, L (with_function f' g) = (Some v, with_function f' g)) /\
  (forall l l' fs, fst (L (SumFunction l fs)) = fst (L (SumFunction l' fs))).
Proof.
  split; [|split; [|split]].
  - intros g a. simpl. destruct (L g) as [[v|] g']; reflexivity.
  - intros g c. simpl. destruct (L g) as [[v|] g']; reflexivity.
  - intros f v f' Hc HL.
    destruct f as [| |l g a|l g c| |]; try discriminate Hc; simpl in HL.
    + destruct l as [w|].
      * injection HL as <- <-. split; [reflexivity|]. intros g0. reflexivity.
      * destruct (L g) as [[w|] g']; [|discriminate HL].
        injection HL as <- <-. split; [reflexivity|]. intros g0. reflexivity.
    + destruct l as [w|].
      * injection HL as <- <-. split; [reflexivity|]. intros g0. reflexivity.
      * destruct (L g) as [[w|] g']; [|discriminate HL].
        injection HL as <- <-. split; [reflexivity|]. intros g0. reflexivity.
  - intros l l' fs. simpl.
    destruct (SumFunction_L_loop L fs 0) as [r fs']. reflexivity.
Qed.

Lemma C9_L_cached_witness :
  L (with_function (ScaledFunction (Some (Rabs 2 * 3)) (bare (Some 3)) 2)
       (bare (Some 7)))
  = (Some (Rabs 2 * 3),
     with_function (ScaledFunction (Some (Rabs 2 * 3)) (bare (Some 3)) 2)
       (bare (Some 7))).
Proof.
  apply (proj2 (proj1 (proj2 (proj2 C9_L_is_cached_after_first_defined_read))
                  (ScaledFunction None (bare (Some 3)) 2) (Rabs 2 * 3)
                  (ScaledFunction (Some (Rabs 2 * 3)) (bare (Some 3)) 2)
                  eq_refl eq_refl)).
Defined.

(** ** The property [L] of a [ConstantFunction] *)

Lemma run_ops_ConstantFunction (l : option R) (c : R) (ops : list L_op) :
  run_ops ops (ConstantFunction l c) = ConstantFunction l c.
Proof.
  unfold run_ops. induction ops as [|o ops IH]; [reflexivity|].
  simpl. destruct o as [|value]; exact IH.
Qed.

(** C10: after any sequence of reads of and assignments to [L], a
    [ConstantFunction] (so a [ZeroFunction]) reads [L] as [0] and an
    assignment to its [L] raises [AttributeError] and changes nothing;
    on a plain [Function] the assignment of a non-negative number
    succeeds and the next read returns it. *)
Theorem C10_ConstantFunction_L_is_zero_and_read_only :
  (forall l c ops,
      let f := run_ops ops (ConstantFunction l c) in
      fst (L f) = Some 0 /\
      (forall value, set_L f value = Raise AttributeError) /\
      (forall value, step_op f (AssignL value) = f)) /\
  (forall ops, fst (L (run_ops ops ZeroFunction)) = Some 0) /\
  (forall l i v,
      0 <= v ->
      exists f', set_L (Leaf l i) (PyNumber v) = Ok f' /\ fst (L f') = Some v).
Proof.
  split; [|split].
  - intros l c ops f. subst f. rewrite run_ops_ConstantFunction.
    split; [reflexivity|]. split; intros value; reflexivity.
  - intros ops. unfold ZeroFunction. rewrite run_ops_ConstantFunction.
    reflexivity.
  - intros l i v Hv. simpl.
    destruct (Rle_dec 0 v) as [_|Hn]; [|contradiction].
    eexists. split; reflexivity.
Qed.

Lemma C10_L_setter_witness :
  exists f', set_L (bare None) (PyNumber 2) = Ok f' /\ fst (L f') = Some 2.
Proof.
  apply (proj2 (proj2 C10_ConstantFunction_L_is_zero_and_read_only)
           None (mkLeaf None None) 2).
  lra.
Defined.

(** ** Evaluation of sums *)

Lemma call_SumFunction (l : option R) (fs : list Func) (x : loc) :
  call (SumFunction l fs) x = call_loop x fs 0.
Proof. reflexivity. Qed.

(** The loop started at [acc] adds [acc] to what the loop started at
    [0] computes. *)
Lemma call_loop_shift (x : loc) (fs : list Func) :
  forall acc s,
    call_loop x fs acc s
    = match call_loop x fs 0 s with
      | (Ok v, s') => (Ok (acc + v), s')
      | (Raise e, s') => (Raise e, s')
      end.
Proof.
  induction fs as [|g rest IH]; intros acc s; simpl.
  - unfold ret. do 2 f_equal. ring.
  - unfold bind. destruct (call g x s) as [[v|e] s1]; [|reflexivity].
    rewrite (IH (acc + v)), (IH (0 + v)).
    destruct (call_loop x rest 0 s1) as [[w|e] s2]; [|reflexivity].
    do 2 f_equal. ring.
Qed.

Lemma call_loop_app (x : loc) (l1 l2 : list Func) :
  forall acc s,
    call_loop x (l1 ++ l2) acc s
    = match call_loop x l1 acc s with
      | (Ok v, s') => call_loop x l2 v s'
      | (Raise e, s') => (Raise e, s')
      end.
Proof.
  induction l1 as [|g rest IH]; intros acc s; simpl; [reflexivity|].
  unfold bind. destruct (call g x s) as [[v|e] s1]; [|reflexivity].
  apply IH.
Qed.

(** Running the loop over the terms of [g] is calling [g]. *)
Lemma call_loop_terms (x : loc) (g : Func) (acc : R) (s : store) :
  call_loop x (terms g) acc s
  = match call g x s with
    | (Ok v, s') => (Ok (acc + v), s')
    | (Raise e, s') => (Raise e, s')
    end.
Proof.
  destruct g as [l i|l fs|l g a|l g c|l c|l g b]; unfold terms;
    cbn [isinstance_SumFunction functions_of].
  all: try (cbn [SumFunction_call_loop]; unfold bind;
            match goal with
            | |- context [call ?f ?y ?t] => destruct (call f y t) as [[v|e] s1]
            end; reflexivity).
  - rewrite call_SumFunction. apply call_loop_shift.
  - cbn [SumFunction_call_loop call]. unfold bind.
    destruct (call g x s) as [[v|e] s1]; [|reflexivity].
    unfold ret. do 2 f_equal. ring.
Qed.

(** Evaluating the children of [f + g] calls [f], then [g]. *)
Lemma call_loop_add_children (x : loc) (f g : Func) (acc : R) (s : store) :
  call_loop x (add_children f g) acc s
  = match call f x s with
    | (Ok vf, s1) =>
        match call g x s1 with
        | (Ok vg, s2) => (Ok (acc + vf + vg), s2)
        | (Raise e, s2) => (Raise e, s2)
        end
    | (Raise e, s1) => (Raise e, s1)
    end.
Proof.
  unfold add_children. destruct (isinstance_SumFunction f) eqn:Ef.
  - rewrite call_loop_app.
    replace (functions_of f) with (terms f) by (unfold terms; rewrite Ef; reflexivity).
    rewrite call_loop_terms.
    destruct (call f x s) as [[vf|e] s1]; [|reflexivity].
    apply call_loop_terms.
  - cbn [SumFunction_call_loop]. unfold bind.
    destruct (call f x s) as [[vf|e] s1]; [|reflexivity].
    destruct (call g x s1) as [[vg|e] s2]; reflexivity.
Qed.

(** C3 (as amended): [(f+g)+h] is a Sum of the children of [f+g]
    followed by the terms of [h], so of exactly [f], [g], [h] when none
    of them is a Sum; [f+(g+h)] is flattened only when [f] is a Sum,
    and for a plain [f] it is the Sum of the two children [f] and
    [g+h].  For plain [f], [g], [h] both call [f], [g], [h] on [x] in
    this order; the first returns [((0. + f(x)) + g(x)) + h(x)] and the
    second [(0. + f(x)) + ((0. + g(x)) + h(x))]: the additions are
    not grouped alike, so the two results are equal in exact
    arithmetic and need not be the same float. *)
Theorem C3_add_flattens_on_the_left_only (f g h : Func) :
  sum_invariant f -> sum_invariant g ->
  exists fg gh a b,
    add f (PyFunction g) = Ok fg /\ add fg (PyFunction h) = Ok a /\
    add g (PyFunction h) = Ok gh /\ add f (PyFunction gh) = Ok b /\
    functions_of a = add_children f g ++ terms h /\
    functions_of gh = add_children g h /\
    functions_of b = add_children f gh /\
    (isinstance_SumFunction f = false ->
     isinstance_SumFunction g = false ->
     isinstance_SumFunction h = false ->
     functions_of a = [f; g; h] /\ functions_of b = [f; gh] /\
     forall x s vf s1 vg s2 vh s3,
       call f x s = (Ok vf, s1) -> call g x s1 = (Ok vg, s2) ->
       call h x s2 = (Ok vh, s3) ->
       call a x s = (Ok (0 + vf + vg + vh), s3) /\
       call b x s = (Ok (0 + vf + (0 + vg + vh)), s3)).
Proof.
  intros Hf Hg.
  assert (Hfg : (2 <= length (add_children f g))%nat).
  { unfold add_children, sum_invariant in *.
    destruct (isinstance_SumFunction f); [|simpl; lia].
    rewrite length_app. specialize (Hf eq_refl). lia. }
  exists (SumFunction None (add_children f g)),
         (SumFunction None (add_children g h)),
         (SumFunction None (add_children f g ++ terms h)),
         (SumFunction None (add_children f (SumFunction None (add_children g h)))).
  split; [apply add_Function, Hf|].
  split.
  { rewrite add_Function by (intros _; exact Hfg). reflexivity. }
  split; [apply add_Function, Hg|].
  split; [apply add_Function, Hf|].
  split; [reflexivity|]. split; [reflexivity|]. split; [reflexivity|].
  intros Ef Eg Eh. unfold add_children, terms. rewrite Ef, Eg, Eh.
  split; [reflexivity|]. split; [reflexivity|].
  intros x s vf s1 vg s2 vh s3 Hcf Hcg Hch.
  cbn [app call SumFunction_call_loop]. unfold bind.
  rewrite Hcf, Hcg, Hch. split; reflexivity.
Qed.

Lemma C3_add_witness :
  exists fg gh a b,
    add (ConstantFunction (Some 0) 1)
        (PyFunction (ConstantFunction (Some 0) 2)) = Ok fg /\
    add fg (PyFunction (ConstantFunction (Some 0) 3)) = Ok a /\
    add (ConstantFunction (Some 0) 2)
        (PyFunction (ConstantFunction (Some 0) 3)) = Ok gh /\
    add (ConstantFunction (Some 0) 1) (PyFunction gh) = Ok b /\
    functions_of a
    = [ConstantFunction (Some 0) 1; ConstantFunction (Some 0) 2;
       ConstantFunction (Some 0) 3] /\
    functions_of b = [ConstantFunction (Some 0) 1; gh] /\
    call a 0%nat [] = (Ok (0 + 1 + 2 + 3), []) /\
    call b 0%nat [] = (Ok (0 + 1 + (0 + 2 + 3)), []).
Proof.
  destruct (C3_add_flattens_on_the_left_only
              (ConstantFunction (Some 0) 1) (ConstantFunction (Some 0) 2)
              (ConstantFunction (Some 0) 3))
    as (fg & gh & a & b & H1 & H2 & H3 & H4 & _ & _ & _ & H5).
  - intros H. discriminate H.
  - intros H. discriminate H.
  - exists fg, gh, a, b.
    destruct (H5 eq_refl eq_refl eq_refl) as (Ha & Hb & Hcall).
    destruct (Hcall 0%nat [] 1 [] 2 [] 3 [] eq_refl eq_refl eq_refl)
      as [Hca Hcb].
    repeat (split; [assumption|]). exact Hcb.
Defined.

(** C3, counterexample: for three plain functions, [f+(g+h)] is a Sum
    with two children, the second of which is the Sum [g+h]. *)
Lemma C3_right_grouping_is_nested :
  exists gh b,
    add (bare (Some 2)) (PyFunction (bare (Some 3))) = Ok gh /\
    add (bare (Some 1)) (PyFunction gh) = Ok b /\
    length (functions_of b) = 2%nat /\
    functions_of b = [bare (Some 1); gh] /\
    isinstance_SumFunction gh = true.
Proof.
  exists (SumFunction None [bare (Some 2); bare (Some 3)]),
         (SumFunction None
            [bare (Some 1); SumFunction None [bare (Some 2); bare (Some 3)]]).
  repeat split.
Qed.

(** ** The container operations, run on a store *)

Lemma pixel_wise_Some (f : R -> R -> R) (u v w : list R) :
  pixel_wise f u v = Some w ->
  w = zip_with f u v /\ length u = length v /\ length w = length u.
Proof.
  unfold pixel_wise. destruct (Nat.eqb_spec (length u) (length v)) as [E|];
    [|discriminate].
  intros [= <-]. rewrite length_zip_with. repeat split; [assumption|lia].
Qed.

Lemma pixel_wise_same_length (f : R -> R -> R) (u v : list R) :
  length u = length v -> pixel_wise f u v = Some (zip_with f u v).
Proof. intros E. unfold pixel_wise. rewrite E, Nat.eqb_refl. reflexivity. Qed.

Lemma pixel_wise_None (f : R -> R -> R) (u v : list R) :
  pixel_wise f u v = None -> length u <> length v.
Proof.
  unfold pixel_wise. destruct (Nat.eqb_spec (length u) (length v));
    [discriminate|auto].
Qed.

(** subtracting and adding back, in exact arithmetic *)
Lemma zip_with_minus_plus (u v : list R) :
  length u = length v -> zip_with Rplus (zip_with Rminus u v) v = u.
Proof.
  revert v. induction u as [|a u IH]; intros [|b v] E; simpl in *;
    try reflexivity; try discriminate.
  f_equal; [ring|apply IH; lia].
Qed.

(** dividing and multiplying back, in exact arithmetic *)
Lemma map_divide_multiply (tau : R) (u : list R) :
  tau <> 0 -> map (fun a => a * tau) (map (fun a => a / tau) u) = u.
Proof.
  intros Ht. induction u as [|a u IH]; simpl; [reflexivity|].
  f_equal; [field; exact Ht|exact IH].
Qed.

Lemma binary_out_run (f : R -> R -> R) (x y o : loc) (s : store)
  (X Y Dout : DataContainer) :
  s !! x = Some X -> s !! y = Some Y -> s !! o = Some Dout ->
  binary_out f x y o s
  = if can_cast (result_kind (dtype X) (dtype Y)) (dtype Dout) then
      match pixel_wise f (array X) (array Y) with
      | Some v =>
          if Nat.eqb (length v) (length (array Dout))
          then (Ok tt, <[o := mkDC (dtype Dout) v]> s)
          else (Raise ValueError, s)
      | None => (Raise ValueError, s)
      end
    else (Raise TypeError, s).
Proof.
  intros Hx Hy Ho. unfold binary_out, bind, read. rewrite Hx, Hy, Ho.
  destruct (can_cast _ _); [|reflexivity].
  destruct (pixel_wise _ _ _); [|reflexivity].
  destruct (Nat.eqb _ _); reflexivity.
Qed.

Lemma binary_new_run (f : R -> R -> R) (x y : loc) (s : store)
  (X Y : DataContainer) :
  s !! x = Some X -> s !! y = Some Y ->
  binary_new f x y s
  = match pixel_wise f (array X) (array Y) with
    | Some v => (Ok (length s), s ++ [mkDC float_kind v])
    | None => (Raise ValueError, s)
    end.
Proof.
  intros Hx Hy. unfold binary_new, bind, read. rewrite Hx, Hy.
  destruct (pixel_wise _ _ _); reflexivity.
Qed.

Lemma scalar_out_run (f : R -> R) (x o : loc) (s : store)
  (X Dout : DataContainer) :
  s !! x = Some X -> s !! o = Some Dout ->
  scalar_out f x o s
  = if can_cast float_kind (dtype Dout) then
      if Nat.eqb (length (array X)) (length (array Dout))
      then (Ok tt, <[o := mkDC (dtype Dout) (map f (array X))]> s)
      else (Raise ValueError, s)
    else (Raise TypeError, s).
Proof.
  intros Hx Ho. unfold scalar_out, bind, read. rewrite Hx, Ho.
  destruct (can_cast _ _); [|reflexivity].
  destruct (Nat.eqb _ _); reflexivity.
Qed.

Lemma scalar_new_run (f : R -> R) (x : loc) (s : store) (X : DataContainer) :
  s !! x = Some X ->
  scalar_new f x s = (Ok (length s), s ++ [mkDC float_kind (map f (array X))]).
Proof. intros Hx. unfold scalar_new, bind, read. rewrite Hx. reflexivity. Qed.

Lemma fill_values_run (o : loc) (v : list R) (s : store) (Dout : DataContainer) :
  s !! o = Some Dout ->
  fill_values o v s
  = if Nat.eqb (length v) (length (array Dout))
    then (Ok tt, <[o := mkDC (dtype Dout) v]> s)
    else (Raise ValueError, s).
Proof.
  intros Ho. unfold fill_values, bind, read. rewrite Ho.
  destruct (Nat.eqb _ _); reflexivity.
Qed.

(** [try: x.subtract(b, out=x); tmp = x] / [except TypeError:
    tmp = x.subtract(b, dtype=float32)]: in place when the result can
    be written to [x], in a new container otherwise. *)
Lemma enter_binary (f : R -> R -> R) (x b : loc) (s : store)
  (X B : DataContainer) :
  s !! x = Some X -> s !! b = Some B ->
  try_except_TypeError (binary_out f x b x ;;; ret x) (binary_new f x b) s
  = match pixel_wise f (array X) (array B) with
    | Some d =>
        if can_cast (result_kind (dtype X) (dtype B)) (dtype X)
        then (Ok x, <[x := mkDC (dtype X) d]> s)
        else (Ok (length s), s ++ [mkDC float_kind d])
    | None => (Raise ValueError, s)
    end.
Proof.
  intros Hx Hb. unfold try_except_TypeError, bind.
  rewrite (binary_out_run f x b x s X B X Hx Hb Hx).
  destruct (can_cast _ _).
  - destruct (pixel_wise f (array X) (array B)) as [d|] eqn:E; [|reflexivity].
    apply pixel_wise_Some in E as (_ & _ & El). rewrite El, Nat.eqb_refl.
    reflexivity.
  - rewrite (binary_new_run f x b s X B Hx Hb).
    destruct (pixel_wise f (array X) (array B)); reflexivity.
Qed.

(** the same for [x.divide(tau, out=x)] *)
Lemma enter_scalar (f : R -> R) (x : loc) (s : store) (X : DataContainer) :
  s !! x = Some X ->
  try_except_TypeError (scalar_out f x x ;;; ret x) (scalar_new f x) s
  = if can_cast float_kind (dtype X)
    then (Ok x, <[x := mkDC (dtype X) (map f (array X))]> s)
    else (Ok (length s), s ++ [mkDC float_kind (map f (array X))]).
Proof.
  intros Hx. unfold try_except_TypeError, bind.
  rewrite (scalar_out_run f x x s X X Hx Hx), Nat.eqb_refl.
  destruct (can_cast _ _); [reflexivity|].
  apply (scalar_new_run f x s X Hx).
Qed.

(** [proximal_value] reads the store at the centers only. *)
Lemma proximal_value_ext (s s' : store) (f : Func) :
  Forall (fun b => s' !! b = s !! b) (proximal_centers f) ->
  forall v tau, proximal_value s' f v tau = proximal_value s f v tau.
Proof.
  induction f as [l i|l fs _|l g a IH|l g c IH|l c|l g b IH]
    using Func_nested_ind; intros Hc v tau; simpl in *; try reflexivity.
  - apply IH, Hc.
  - apply IH, Hc.
  - apply Forall_cons in Hc as [Hb Hc]. rewrite Hb.
    destruct (s !! b) as [B|]; [|reflexivity].
    destruct (pixel_wise Rminus v (array B)) as [d|]; [|reflexivity].
    rewrite (IH Hc). reflexivity.
Qed.

(** Entering [TranslateFunction]'s methods: after the [try], [tmp]
    holds [x - b]; the rest of the store is as before; and the closing
    [if id(tmp) == id(x): x.add(b, out=x)] gives [x] its values back. *)
Lemma translate_enter (x b : loc) (s : store) (X B : DataContainer)
  (d : list R) :
  s !! x = Some X -> s !! b = Some B ->
  pixel_wise Rminus (array X) (array B) = Some d ->
  exists tmp s1 k1,
    try_except_TypeError (subtract_out x b x ;;; ret x) (subtract_new x b) s
    = (Ok tmp, s1) /\
    s1 !! tmp = Some (mkDC k1 d) /\
    (forall l, (l < length s)%nat -> l <> x -> s1 !! l = s !! l) /\
    (length s <= length s1)%nat /\
    (dtype X = float_kind -> k1 = float_kind) /\
    (dtype B = float_kind -> k1 = float_kind) /\
    (tmp = x \/ (length s <= tmp)%nat) /\
    forall s3,
      s3 !! x = s1 !! x -> s3 !! b = Some B ->
      exists s4,
        (if Nat.eqb tmp x then add_out x b x else ret tt) s3 = (Ok tt, s4) /\
        s4 !! x = Some X /\
        length s4 = length s3 /\
        forall l, l <> x -> s4 !! l = s3 !! l.
Proof.
  intros Hx Hb Ed. apply lookup_lt_Some in Hx as Hlt.
  unfold subtract_out, subtract_new. rewrite (enter_binary Rminus x b s X B Hx Hb), Ed.
  apply pixel_wise_Some in Ed as (-> & Elen & Elen').
  destruct (can_cast _ _) eqn:Ecast.
  - exists x, (<[x := mkDC (dtype X) (zip_with Rminus (array X) (array B))]> s), (dtype X).
    split; [reflexivity|]. split; [apply list_lookup_insert_eq, Hlt|].
    split; [intros l _ Hne; apply list_lookup_insert_ne; congruence|].
    split; [rewrite length_insert; lia|]. split; [auto|].
    split; [destruct (dtype X), (dtype B); (discriminate || auto)|].
    split; [left; reflexivity|].
    intros s3 H3x H3b. rewrite list_lookup_insert_eq in H3x by exact Hlt.
    rewrite Nat.eqb_refl. unfold add_out.
    rewrite (binary_out_run Rplus x b x s3 _ B _ H3x H3b H3x). cbn [dtype array].
    rewrite Ecast, pixel_wise_same_length by (rewrite Elen'; exact Elen).
    rewrite zip_with_minus_plus by exact Elen. rewrite Elen', Nat.eqb_refl.
    apply lookup_lt_Some in H3x as Hlt3.
    eexists. split; [reflexivity|].
    split; [rewrite list_lookup_insert_eq by exact Hlt3; destruct X; reflexivity|].
    split; [apply length_insert|].
    intros l Hne. apply list_lookup_insert_ne. congruence.
  - exists (length s), (s ++ [mkDC float_kind (zip_with Rminus (array X) (array B))]), float_kind.
    split; [reflexivity|].
    split; [rewrite lookup_app_r by lia; rewrite Nat.sub_diag; reflexivity|].
    split; [intros l Hl _; apply lookup_app_l, Hl|].
    split; [rewrite length_app; lia|]. split; [reflexivity|].
    split; [reflexivity|]. split; [right; lia|].
    intros s3 H3x H3b. rewrite lookup_app_l in H3x by exact Hlt.
    destruct (Nat.eqb_spec (length s) x) as [E|_]; [lia|].
    exists s3. split; [reflexivity|]. split; [congruence|].
    split; reflexivity.
Qed.

(** The runs of [proximal]: the result holds the reference value, and
    every container of the initial store other than [out] is, at the
    end, as it was. *)
Lemma proximal_spec (f : Func) :
  forall x tau out s X,
    s !! x = Some X -> well_placed s f x out ->
    proximal_post s X out (proximal_value s f (array X) tau)
      (proximal f x tau out s).
Proof.
  induction f as [l i|l fs _|l g a IH|l g c IH|l c|l g b IH]
    using Func_nested_ind; intros x tau out s X Hx (_ & Hc & Hout).
  - (* a leaf *)
    simpl. destruct (leaf_proximal i) as [P|];
      [|exists NotImplementedError; reflexivity].
    unfold bind, read. rewrite Hx. destruct out as [o|].
    + destruct Hout as (Hox & Dout & Ho & Hk).
      unfold proximal_post. rewrite Ho, (fill_values_run _ _ _ _ Ho).
      destruct (Nat.eqb _ _); [|exists ValueError; reflexivity].
      simpl. apply lookup_lt_Some in Ho as Hlt.
      split; [reflexivity|]. split.
      * apply list_lookup_insert_eq, Hlt.
      * intros l0 _ Hne. apply list_lookup_insert_ne. congruence.
    + exists (length s), float_kind. cbn [fst snd alloc ret].
      split; [reflexivity|]. split; [lia|]. split.
      * rewrite lookup_app_r by lia. rewrite Nat.sub_diag. reflexivity.
      * split; [reflexivity|]. intros l0 Hl. apply lookup_app_l, Hl.
  - exists NotImplementedError. reflexivity.
  - simpl. apply IH; [exact Hx|]. split; [eauto|]. split; assumption.
  - simpl. apply IH; [exact Hx|]. split; [eauto|]. split; assumption.
  - (* ConstantFunction *)
    simpl. destruct out as [o|].
    + destruct Hout as (Hox & Dout & Ho & Hk).
      unfold proximal_post, fill, bind, read.
      rewrite Ho, Hx, (fill_values_run _ _ _ _ Ho).
      destruct (Nat.eqb _ _); [|exists ValueError; reflexivity].
      simpl. apply lookup_lt_Some in Ho as Hlt.
      split; [reflexivity|]. split.
      * apply list_lookup_insert_eq, Hlt.
      * intros l0 _ Hne. apply list_lookup_insert_ne. congruence.
    + unfold copy, bind, read, alloc. rewrite Hx.
      exists (length s), (dtype X). cbn [fst snd ret].
      split; [reflexivity|]. split; [lia|]. split.
      * rewrite lookup_app_r by lia. rewrite Nat.sub_diag.
        destruct X; reflexivity.
      * split; [auto|]. intros l0 Hl. apply lookup_app_l, Hl.
  - (* TranslateFunction *)
    simpl in Hc. apply Forall_cons in Hc as [(Hbx & Hbl & Hbo) Hc].
    destruct (lookup_lt_is_Some_2 _ _ Hbl) as [B Hb].
    apply lookup_lt_Some in Hx as Hxl.
    cbn [proximal proximal_value]. rewrite Hb. unfold bind at 1.
    destruct (pixel_wise Rminus (array X) (array B)) as [d|] eqn:Ed.
    2:{ unfold subtract_out, subtract_new.
        rewrite (enter_binary Rminus x b s X B Hx Hb), Ed.
        exists ValueError. reflexivity. }
    destruct (translate_enter x b s X B d Hx Hb Ed)
      as (tmp & s1 & k1 & -> & H1 & Hfr1 & Hlen1 & HkX & HkB & Htmp & Hleave).
    assert (H1b : s1 !! b = Some B) by (rewrite Hfr1; auto).
    assert (Hval : proximal_value s1 g d tau = proximal_value s g d tau).
    { apply proximal_value_ext. eapply Forall_impl; [exact Hc|].
      intros b' (? & ? & _). apply Hfr1; assumption. }
    assert (Hwp : well_placed s1 g tmp out).
    { split; [eauto|]. split.
      - eapply Forall_impl; [exact Hc|]. intros b' (? & ? & ?).
        split; [lia|]. split; [lia|assumption].
      - destruct out as [o|]; [|exact I].
        destruct Hout as (Hox & Dout & Ho & Hk).
        apply lookup_lt_Some in Ho as Hol.
        split; [lia|]. exists Dout. split; [|exact Hk].
        rewrite Hfr1; auto. }
    specialize (IH tmp tau out s1 (mkDC k1 d) H1 Hwp).
    cbn [array] in IH. rewrite Hval in IH.
    destruct (proximal g tmp tau out s1) as [r2 s2] eqn:Erun.
    destruct out as [o|].
    + (* out is given *)
      destruct Hout as (Hox & Dout & Ho & Hk).
      apply lookup_lt_Some in Ho as Hol.
      assert (H1o : s1 !! o = Some Dout) by (rewrite Hfr1; auto).
      unfold proximal_post in IH |- *. rewrite H1o in IH. rewrite Ho.
      unfold bind. rewrite Erun.
      destruct (proximal_value s g d tau) as [w|].
      2:{ destruct IH as [e IH]. cbn [fst] in IH. subst r2.
          exists e. reflexivity. }
      destruct (Nat.eqb_spec (length w) (length (array Dout))) as [Ew|Ew].
      2:{ destruct IH as [e IH]. cbn [fst] in IH. subst r2.
          destruct (pixel_wise Rplus w (array B)) as [u|] eqn:Eu;
            [|exists e; reflexivity].
          apply pixel_wise_Some in Eu as (_ & _ & Eu).
          destruct (Nat.eqb_spec (length u) (length (array Dout)));
            [lia|exists e; reflexivity]. }
      cbn [fst snd] in IH. destruct IH as (-> & H2o & Hfr2).
      assert (H2b : s2 !! b = Some B).
      { rewrite Hfr2; [exact H1b|lia|congruence]. }
      change (add_out o b o) with (binary_out Rplus o b o).
      rewrite (binary_out_run Rplus o b o s2 _ B _ H2o H2b H2o).
      cbn [dtype array]. rewrite Hk. cbn [result_kind can_cast].
      destruct (pixel_wise Rplus w (array B)) as [u|] eqn:Eu;
        [|exists ValueError; reflexivity].
      apply pixel_wise_Some in Eu as (_ & _ & Eu).
      rewrite Eu, Nat.eqb_refl. cbn [ret].
      apply lookup_lt_Some in H2o as H2ol.
      destruct (Hleave (<[o := mkDC float_kind u]> s2))
        as (s4 & -> & H4x & Hlen4 & Hfr4).
      { rewrite list_lookup_insert_ne by congruence.
        apply Hfr2; [lia|congruence]. }
      { rewrite list_lookup_insert_ne by congruence. exact H2b. }
      rewrite Ew, Nat.eqb_refl. cbn [fst snd ret].
      split; [reflexivity|]. split.
      * rewrite Hfr4 by congruence. apply list_lookup_insert_eq, H2ol.
      * intros l0 Hl0 Hne. destruct (Nat.eq_dec l0 x) as [->|Hnx].
        -- congruence.
        -- rewrite Hfr4 by exact Hnx.
           rewrite list_lookup_insert_ne by congruence.
           rewrite Hfr2 by (lia || congruence). apply Hfr1; assumption.
    + (* a new container is returned *)
      unfold proximal_post in IH |- *.
      unfold bind. rewrite Erun.
      destruct (proximal_value s g d tau) as [w|].
      2:{ destruct IH as [e IH]. cbn [fst] in IH. subst r2.
          exists e. reflexivity. }
      cbn [fst snd dtype] in IH.
      destruct IH as (p & k & -> & Hp & H2p & Hk2 & Hfr2).
      assert (H2b : s2 !! b = Some B) by (rewrite Hfr2; [exact H1b|lia]).
      cbn [deref ret]. change (add_out p b p) with (binary_out Rplus p b p).
      rewrite (binary_out_run Rplus p b p s2 _ B _ H2p H2b H2p).
      cbn [dtype array].
      assert (Ecast : can_cast (result_kind k (dtype B)) k = true).
      { destruct k, (dtype B) eqn:EB; try reflexivity.
        specialize (HkB eq_refl). specialize (Hk2 HkB). discriminate Hk2. }
      rewrite Ecast.
      destruct (pixel_wise Rplus w (array B)) as [u|] eqn:Eu;
        [|exists ValueError; reflexivity].
      apply pixel_wise_Some in Eu as (_ & _ & Eu).
      rewrite Eu, Nat.eqb_refl. cbn [ret].
      apply lookup_lt_Some in H2p as H2pl.
      destruct (Hleave (<[p := mkDC k u]> s2))
        as (s4 & -> & H4x & Hlen4 & Hfr4).
      { rewrite list_lookup_insert_ne by lia. apply Hfr2. lia. }
      { rewrite list_lookup_insert_ne by lia. exact H2b. }
      exists p, k. cbn [fst snd ret].
      split; [reflexivity|]. split; [lia|]. split.
      * rewrite Hfr4 by lia. apply list_lookup_insert_eq, H2pl.
      * split; [auto|].
        intros l0 Hl0. destruct (Nat.eq_dec l0 x) as [->|Hnx].
        -- congruence.
        -- rewrite Hfr4 by exact Hnx.
           rewrite list_lookup_insert_ne by lia.
           rewrite Hfr2 by lia. apply Hfr1; assumption.
Qed.

(** Entering [proximal_conjugate]: after the [try], [tmp] holds
    [x / tau] in a floating container; the rest of the store is as
    before; and the closing [if id(tmp) == id(x): x.multiply(tau,
    out=x)] gives [x] its values back. *)
Lemma conjugate_enter (x : loc) (tau : R) (s : store) (X : DataContainer) :
  tau <> 0 -> s !! x = Some X ->
  exists tmp s1,
    try_except_TypeError (divide_out tau x x ;;; ret x) (divide_new tau x) s
    = (Ok tmp, s1) /\
    s1 !! tmp = Some (mkDC float_kind (map (fun a => a / tau) (array X))) /\
    (forall l, (l < length s)%nat -> l <> x -> s1 !! l = s !! l) /\
    (length s <= length s1)%nat /\
    (tmp = x \/ (length s <= tmp)%nat) /\
    forall s3,
      s3 !! x = s1 !! x ->
      exists s4,
        (if Nat.eqb tmp x then multiply_out tau x x else ret tt) s3
        = (Ok tt, s4) /\
        s4 !! x = Some X /\
        length s4 = length s3 /\
        forall l, l <> x -> s4 !! l = s3 !! l.
Proof.
  intros Ht Hx. apply lookup_lt_Some in Hx as Hlt.
  unfold divide_out, divide_new. rewrite (enter_scalar _ x s X Hx).
  destruct (dtype X) eqn:Ek; cbn [can_cast].
  - exists (length s), (s ++ [mkDC float_kind (map (fun a => a / tau) (array X))]).
    split; [reflexivity|].
    split; [rewrite lookup_app_r by lia; rewrite Nat.sub_diag; reflexivity|].
    split; [intros l Hl _; apply lookup_app_l, Hl|].
    split; [rewrite length_app; lia|]. split; [right; lia|].
    intros s3 H3x. rewrite lookup_app_l in H3x by exact Hlt.
    destruct (Nat.eqb_spec (length s) x) as [E|_]; [lia|].
    exists s3. split; [reflexivity|]. split; [congruence|].
    split; reflexivity.
  - exists x, (<[x := mkDC float_kind (map (fun a => a / tau) (array X))]> s).
    split; [reflexivity|]. split; [apply list_lookup_insert_eq, Hlt|].
    split; [intros l _ Hne; apply list_lookup_insert_ne; congruence|].
    split; [rewrite length_insert; lia|]. split; [left; reflexivity|].
    intros s3 H3x. rewrite list_lookup_insert_eq in H3x by exact Hlt.
    rewrite Nat.eqb_refl. unfold multiply_out.
    rewrite (scalar_out_run _ x x s3 _ _ H3x H3x). cbn [dtype array can_cast].
    rewrite Nat.eqb_refl, map_divide_multiply by exact Ht.
    apply lookup_lt_Some in H3x as Hlt3.
    eexists. split; [reflexivity|].
    split; [rewrite list_lookup_insert_eq by exact Hlt3; destruct X;
            cbn in Ek; subst; reflexivity|].
    split; [apply length_insert|].
    intros l Hne. apply list_lookup_insert_ne. congruence.
Qed.

Lemma proximal_conjugate_body_spec (g : Func) (step : R) (x : loc) (tau : R)
  (out : option loc) (s : store) (X : DataContainer) :
  tau <> 0 -> s !! x = Some X -> well_placed s g x out ->
  proximal_post s X out
    (conjugate_value tau (array X)
       (proximal_value s g (map (fun a => a / tau) (array X)) step))
    (proximal_conjugate_body g step x tau out s).
Proof.
  intros Ht Hx (_ & Hc & Hout). apply lookup_lt_Some in Hx as Hxl.
  unfold proximal_conjugate_body. unfold bind at 1.
  destruct (conjugate_enter x tau s X Ht Hx)
    as (tmp & s1 & -> & H1 & Hfr1 & Hlen1 & Htmp & Hleave).
  set (d := map (fun a => a / tau) (array X)) in *.
  assert (Hval : proximal_value s1 g d step = proximal_value s g d step).
  { apply proximal_value_ext. eapply Forall_impl; [exact Hc|].
    intros b' (? & ? & _). apply Hfr1; assumption. }
  assert (Hwp : well_placed s1 g tmp out).
  { split; [eauto|]. split.
    - eapply Forall_impl; [exact Hc|]. intros b' (? & ? & ?).
      split; [lia|]. split; [lia|assumption].
    - destruct out as [o|]; [|exact I].
      destruct Hout as (Hox & Dout & Ho & Hk).
      apply lookup_lt_Some in Ho as Hol.
      split; [lia|]. exists Dout. split; [|exact Hk].
      rewrite Hfr1; auto. }
  pose proof (proximal_spec g tmp step out s1 _ H1 Hwp) as IH.
  cbn [array] in IH. rewrite Hval in IH.
  destruct (proximal g tmp step out s1) as [r2 s2] eqn:Erun.
  unfold proximal_post in IH |- *. unfold conjugate_value.
  destruct out as [o|].
  - destruct Hout as (Hox & Dout & Ho & Hk).
    apply lookup_lt_Some in Ho as Hol.
    assert (H1o : s1 !! o = Some Dout) by (rewrite Hfr1; auto).
    rewrite H1o in IH. rewrite Ho.
    unfold bind. rewrite Erun.
    destruct (proximal_value s g d step) as [w|].
    2:{ destruct IH as [e IH]. cbn [fst] in IH. subst r2.
        exists e. reflexivity. }
    destruct (Nat.eqb_spec (length w) (length (array Dout))) as [Ew|Ew].
    2:{ destruct IH as [e IH]. cbn [fst] in IH. subst r2.
        destruct (pixel_wise Rplus _ (array X)) as [u|] eqn:Eu;
          [|exists e; reflexivity].
        apply pixel_wise_Some in Eu as (_ & _ & Eu).
        rewrite length_map in Eu.
        destruct (Nat.eqb_spec (length u) (length (array Dout)));
          [lia|exists e; reflexivity]. }
    cbn [fst snd] in IH. destruct IH as (-> & H2o & Hfr2). cbn [ret].
    destruct (Hleave s2) as (s4 & -> & H4x & Hlen4 & Hfr4).
    { apply Hfr2; [lia|congruence]. }
    assert (H4o : s4 !! o = Some (mkDC float_kind w)).
    { rewrite Hfr4 by congruence. rewrite <- Hk. exact H2o. }
    cbn [deref ret]. unfold multiply_out.
    rewrite (scalar_out_run _ o o s4 _ _ H4o H4o).
    cbn [dtype array can_cast]. rewrite Nat.eqb_refl.
    apply lookup_lt_Some in H4o as H4ol.
    change (add_out o x o) with (binary_out Rplus o x o).
    erewrite (binary_out_run Rplus o x o _ _ X _).
    2:{ apply list_lookup_insert_eq, H4ol. }
    2:{ rewrite list_lookup_insert_ne by congruence. exact H4x. }
    2:{ apply list_lookup_insert_eq, H4ol. }
    cbn [dtype array result_kind can_cast].
    destruct (pixel_wise Rplus _ (array X)) as [u|] eqn:Eu;
      [|exists ValueError; reflexivity].
    apply pixel_wise_Some in Eu as (_ & _ & Eu).
    rewrite Eu, Nat.eqb_refl. rewrite length_map, Ew, Nat.eqb_refl.
    cbn [fst snd ret]. split; [reflexivity|]. split.
    + rewrite list_insert_insert_eq, Hk.
      apply list_lookup_insert_eq, H4ol.
    + intros l0 Hl0 Hne. rewrite list_insert_insert_eq.
      rewrite list_lookup_insert_ne by congruence.
      destruct (Nat.eq_dec l0 x) as [->|Hnx]; [congruence|].
      rewrite Hfr4 by exact Hnx. rewrite Hfr2 by (lia || congruence).
      apply Hfr1; assumption.
  - unfold bind. rewrite Erun.
    destruct (proximal_value s g d step) as [w|].
    2:{ destruct IH as [e IH]. cbn [fst] in IH. subst r2.
        exists e. reflexivity. }
    cbn [fst snd dtype] in IH.
    destruct IH as (p & k & -> & Hp & H2p & Hk2 & Hfr2).
    specialize (Hk2 eq_refl). subst k.
    destruct (Hleave s2) as (s4 & -> & H4x & Hlen4 & Hfr4).
    { apply Hfr2. lia. }
    assert (H4p : s4 !! p = Some (mkDC float_kind w)).
    { rewrite Hfr4 by lia. exact H2p. }
    cbn [deref ret]. unfold multiply_out.
    rewrite (scalar_out_run _ p p s4 _ _ H4p H4p).
    cbn [dtype array can_cast]. rewrite Nat.eqb_refl.
    apply lookup_lt_Some in H4p as H4pl.
    change (add_out p x p) with (binary_out Rplus p x p).
    erewrite (binary_out_run Rplus p x p _ _ X _).
    2:{ apply list_lookup_insert_eq, H4pl. }
    2:{ rewrite list_lookup_insert_ne by lia. exact H4x. }
    2:{ apply list_lookup_insert_eq, H4pl. }
    cbn [dtype array result_kind can_cast].
    destruct (pixel_wise Rplus _ (array X)) as [u|] eqn:Eu;
      [|exists ValueError; reflexivity].
    apply pixel_wise_Some in Eu as (_ & _ & Eu).
    rewrite Eu, Nat.eqb_refl.
    exists p, float_kind. cbn [fst snd ret].
    split; [reflexivity|]. split; [lia|]. split.
    + rewrite list_insert_insert_eq. apply list_lookup_insert_eq, H4pl.
    + split; [reflexivity|]. intros l0 Hl0. rewrite list_insert_insert_eq.
      rewrite list_lookup_insert_ne by lia.
      destruct (Nat.eq_dec l0 x) as [->|Hnx]; [congruence|].
      rewrite Hfr4 by exact Hnx. rewrite Hfr2 by lia.
      apply Hfr1; assumption.
Qed.

(** [proximal_conjugate] of any class is the shared body, run on a
    function and a step whose [proximal] is [F.proximal(., 1/tau)]. *)
Lemma proximal_conjugate_as_body (F : Func) (tau : R) :
  tau <> 0 ->
  exists g step,
    (forall x out,
        proximal_conjugate F x tau out
        = proximal_conjugate_body g step x tau out) /\
    proximal_centers g = proximal_centers F /\
    forall s v, proximal_value s g v step = proximal_value s F v (1 / tau).
Proof.
  intros Ht.
  destruct F as [l i|l fs|l g a|l g c|l c|l g b];
    try (eexists _, (1 / tau); repeat split; reflexivity).
  exists g, (a / tau). split; [reflexivity|]. split; [reflexivity|].
  intros s v. simpl. replace (1 / tau * a) with (a / tau) by (field; exact Ht).
  reflexivity.
Qed.

Lemma proximal_conjugate_spec (F : Func) (x : loc) (tau : R)
  (out : option loc) (s : store) (X : DataContainer) :
  tau <> 0 -> s !! x = Some X -> well_placed s F x out ->
  proximal_post s X out
    (conjugate_value tau (array X)
       (proximal_value s F (map (fun a => a / tau) (array X)) (1 / tau)))
    (proximal_conjugate F x tau out s).
Proof.
  intros Ht Hx Hwp.
  destruct (proximal_conjugate_as_body F tau Ht) as (g & step & -> & Hcen & <-).
  apply proximal_conjugate_body_spec; [exact Ht|exact Hx|].
  unfold well_placed in *. rewrite Hcen. exact Hwp.
Qed.

(** [w * (-tau) + x] is [x - tau * w], and adding [tau * w] gives [x] *)
Lemma conjugate_value_Moreau (tau : R) (x w : list R) :
  length w = length x ->
  zip_with Rplus (map (fun a => a * - tau) w) x
  = zip_with (fun xi pi => xi - tau * pi) x w /\
  zip_with Rplus (zip_with (fun xi pi => xi - tau * pi) x w)
                 (map (fun pi => tau * pi) w) = x.
Proof.
  revert x. induction w as [|a w IH]; intros [|b x] E; simpl in *;
    try discriminate; [split; reflexivity|].
  destruct (IH x) as [E1 E2]; [lia|].
  split; (f_equal; [ring|assumption]).
Qed.

(** a run of [proximal] on a container appended to the store yields the
    reference value *)
Lemma proximal_run_value (F : Func) (tau : R) (s s1 : store) (x : loc) 
  (k : kind) (d : list R) (p : loc) (P : DataContainer) :
  well_placed s F x None ->
  proximal F (length s) tau None (s ++ [mkDC k d]) = (Ok (Some p), s1) ->
  s1 !! p = Some P ->
  proximal_value s F d tau = Some (array P).
Proof.
  intros (_ & Hc & _) Hrun HP.
  assert (Hy : (s ++ [mkDC k d]) !! length s = Some (mkDC k d)).
  { rewrite lookup_app_r by lia. rewrite Nat.sub_diag. reflexivity. }
  assert (Hwp : well_placed (s ++ [mkDC k d]) F (length s) None).
  { split; [eauto|]. split; [|exact I].
    eapply Forall_impl; [exact Hc|]. intros b (_ & Hb & _).
    rewrite length_app. cbn [length]. repeat split; (lia || discriminate). }
  pose proof (proximal_spec F (length s) tau None _ _ Hy Hwp) as H.
  rewrite Hrun in H. cbn [array] in H.
  rewrite (proximal_value_ext s (s ++ [mkDC k d])) in H.
  2:{ eapply Forall_impl; [exact Hc|]. intros b (_ & Hb & _).
      apply lookup_app_l, Hb. }
  unfold proximal_post in H.
  destruct (proximal_value s F d tau) as [w|].
  - destruct H as (p' & k' & [= <-] & _ & Hp & _). cbn [snd] in Hp.
    rewrite HP in Hp. injection Hp as ->. reflexivity.
  - destruct H as [e H]. discriminate H.
Qed.

(** ** Element kinds are kept by every operation *)

Lemma keeps_kinds_refl (s : store) : keeps_kinds s s.
Proof. intros l D H. eauto. Qed.

Lemma keeps_kinds_trans (s1 s2 s3 : store) :
  keeps_kinds s1 s2 -> keeps_kinds s2 s3 -> keeps_kinds s1 s3.
Proof.
  intros H12 H23 l D H1. destruct (H12 l D H1) as (D2 & H2 & E2).
  destruct (H23 l D2 H2) as (D3 & H3 & E3). exists D3. split; congruence.
Qed.

Lemma keeps_kinds_insert (s : store) (o : loc) (Dout D : DataContainer) :
  s !! o = Some Dout -> dtype D = dtype Dout -> keeps_kinds s (<[o := D]> s).
Proof.
  intros Ho Hk l D0 Hl. destruct (Nat.eq_dec l o) as [->|Hne].
  - exists D. rewrite list_lookup_insert_eq by (eapply lookup_lt_Some, Ho).
    split; congruence.
  - exists D0. rewrite list_lookup_insert_ne by congruence. auto.
Qed.

Lemma keeps_kinds_app (s t : store) : keeps_kinds s (s ++ t).
Proof.
  intros l D Hl. exists D. split; [|reflexivity].
  rewrite lookup_app_l by (eapply lookup_lt_Some, Hl). exact Hl.
Qed.

Lemma kind_safe_ret {A} (a : A) : kind_safe (ret a).
Proof. intros s. apply keeps_kinds_refl. Qed.

Lemma kind_safe_raise {A} (e : exn) : kind_safe (@raise A e).
Proof. intros s. apply keeps_kinds_refl. Qed.

Lemma kind_safe_bind {A B} (m : M A) (k : A -> M B) :
  kind_safe m -> (forall a, kind_safe (k a)) -> kind_safe (bind m k).
Proof.
  intros Hm Hk s. specialize (Hm s). unfold bind.
  destruct (m s) as [[a|e] s1]; cbn [snd] in *; [|exact Hm].
  eapply keeps_kinds_trans; [exact Hm|apply Hk].
Qed.

Lemma kind_safe_try {A} (body handler : M A) :
  kind_safe body -> kind_safe handler ->
  kind_safe (try_except_TypeError body handler).
Proof.
  intros Hb Hh s. specialize (Hb s). unfold try_except_TypeError.
  destruct (body s) as [[a|[]] s1]; cbn [snd] in *; try exact Hb.
  eapply keeps_kinds_trans; [exact Hb|apply Hh].
Qed.

Lemma kind_safe_binary_out (f : R -> R -> R) (x y o : loc) :
  kind_safe (binary_out f x y o).
Proof.
  intros s. unfold binary_out, bind, read, write, raise.
  destruct (s !! x) as [X|]; [|apply keeps_kinds_refl].
  destruct (s !! y) as [Y|]; [|apply keeps_kinds_refl].
  destruct (s !! o) as [Dout|] eqn:Ho; [|apply keeps_kinds_refl].
  destruct (can_cast _ _); [|apply keeps_kinds_refl].
  destruct (pixel_wise _ _ _); [|apply keeps_kinds_refl].
  destruct (Nat.eqb _ _); [|apply keeps_kinds_refl].
  eapply keeps_kinds_insert; [exact Ho|reflexivity].
Qed.

Lemma kind_safe_scalar_out (f : R -> R) (x o : loc) :
  kind_safe (scalar_out f x o).
Proof.
  intros s. unfold scalar_out, bind, read, write, raise.
  destruct (s !! x) as [X|]; [|apply keeps_kinds_refl].
  destruct (s !! o) as [Dout|] eqn:Ho; [|apply keeps_kinds_refl].
  destruct (can_cast _ _); [|apply keeps_kinds_refl].
  destruct (Nat.eqb _ _); [|apply keeps_kinds_refl].
  eapply keeps_kinds_insert; [exact Ho|reflexivity].
Qed.

Lemma kind_safe_fill_values (o : loc) (v : list R) :
  kind_safe (fill_values o v).
Proof.
  intros s. unfold fill_values, bind, read, write, raise.
  destruct (s !! o) as [Dout|] eqn:Ho; [|apply keeps_kinds_refl].
  destruct (Nat.eqb _ _); [|apply keeps_kinds_refl].
  eapply keeps_kinds_insert; [exact Ho|reflexivity].
Qed.

Lemma kind_safe_binary_new (f : R -> R -> R) (x y : loc) :
  kind_safe (binary_new f x y).
Proof.
  intros s. unfold binary_new, bind, read, alloc, raise.
  destruct (s !! x) as [X|]; [|apply keeps_kinds_refl].
  destruct (s !! y) as [Y|]; [|apply keeps_kinds_refl].
  destruct (pixel_wise _ _ _); [apply keeps_kinds_app|apply keeps_kinds_refl].
Qed.

Lemma kind_safe_scalar_new (f : R -> R) (x : loc) : kind_safe (scalar_new f x).
Proof.
  intros s. unfold scalar_new, bind, read, alloc.
  destruct (s !! x) as [X|]; [apply keeps_kinds_app|apply keeps_kinds_refl].
Qed.

Lemma kind_safe_copy (x : loc) : kind_safe (copy x).
Proof.
  intros s. unfold copy, bind, read, alloc.
  destruct (s !! x) as [X|]; [apply keeps_kinds_app|apply keeps_kinds_refl].
Qed.

Lemma kind_safe_fill (o x : loc) : kind_safe (fill o x).
Proof.
  intros s. unfold fill, bind, read.
  destruct (s !! x) as [X|]; [apply kind_safe_fill_values|apply keeps_kinds_refl].
Qed.

Lemma kind_safe_alloc (d : DataContainer) : kind_safe (alloc d).
Proof. intros s. apply keeps_kinds_app. Qed.

Lemma kind_safe_read (x : loc) : kind_safe (read x).
Proof.
  intros s. unfold read. destruct (s !! x); apply keeps_kinds_refl.
Qed.

Lemma kind_safe_deref (v : option loc) : kind_safe (deref v).
Proof. destruct v; [apply kind_safe_ret|apply kind_safe_raise]. Qed.

Create HintDb kinds.
#[local] Hint Resolve kind_safe_ret kind_safe_raise kind_safe_binary_out
  kind_safe_scalar_out kind_safe_fill_values kind_safe_binary_new
  kind_safe_scalar_new kind_safe_copy kind_safe_fill kind_safe_alloc
  kind_safe_read kind_safe_deref : kinds.

Ltac kind_safe_steps :=
  repeat first
    [ solve [auto with kinds]
    | progress (unfold add_out, subtract_out, subtract_new, multiply_out,
                divide_out, divide_new)
    | apply kind_safe_try
    | apply kind_safe_bind; [|intros ?]
    | match goal with
      | |- kind_safe (match ?o with Some _ => _ | None => _ end) => destruct o
      | |- kind_safe (if ?c then _ else _) => destruct c
      end ].

Lemma kind_safe_proximal (f : Func) :
  forall x tau out, kind_safe (proximal f x tau out).
Proof.
  induction f as [l i|l fs _|l g a IH|l g c IH|l c|l g b IH]
    using Func_nested_ind; intros x tau out; cbn [proximal].
  - kind_safe_steps.
  - kind_safe_steps.
  - apply IH.
  - apply IH.
  - kind_safe_steps.
  - kind_safe_steps; apply IH.
Qed.

(** With an integer [out], [val.multiply(-tau, out=val)] raises: the
    call does not return. *)
Lemma proximal_conjugate_body_integer_out (g : Func) (step : R) (x : loc)
  (tau : R) (o : loc) (s : store) (Dout : DataContainer) :
  s !! o = Some Dout -> dtype Dout = int_kind ->
  exists e, fst (proximal_conjugate_body g step x tau (Some o) s) = Raise e.
Proof.
  intros Ho Hk. unfold proximal_conjugate_body, bind.
  match goal with
  | |- context [try_except_TypeError ?a ?b s] =>
      assert (K1 : kind_safe (try_except_TypeError a b)) by kind_safe_steps;
      specialize (K1 s);
      destruct (try_except_TypeError a b s) as [[tmp|e] s1];
      [|eexists; reflexivity]
  end.
  cbn [snd] in K1.
  pose proof (kind_safe_proximal g tmp step (Some o) s1) as K2.
  destruct (proximal g tmp step (Some o) s1) as [[r|e] s2]; cbn [snd] in K2;
    [|eexists; reflexivity].
  cbn [snd ret] in *.
  match goal with
  | |- context [(if ?c then ?a else ?b) s2] =>
      assert (K3 : kind_safe (if c then a else b)) by kind_safe_steps;
      specialize (K3 s2);
      destruct ((if c then a else b) s2) as [[[]|e] s4];
      [|eexists; reflexivity]
  end.
  cbn [snd deref ret] in *.
  destruct (K1 o Dout Ho) as (D1 & H1 & E1).
  destruct (K2 o D1 H1) as (D2 & H2 & E2).
  destruct (K3 o D2 H2) as (D4 & H4 & E4).
  unfold multiply_out. rewrite (scalar_out_run _ o o s4 D4 D4 H4 H4).
  replace (dtype D4) with int_kind by congruence.
  eexists. reflexivity.
Qed.

(** ** The proximal operators *)

(** C1 (as amended): when [out], if given, is a container other than
    [x], and no center read by [F.proximal] is [x] or [out], a call of
    [proximal_conjugate] that returns leaves [x] with the values it
    had, on the in-place path and on the allocating path alike (in
    exact arithmetic). *)
Theorem C1_proximal_conjugate_leaves_x_unchanged
  (F : Func) (x : loc) (tau : R) (out : option loc) (s : store)
  (X : DataContainer) (r : option loc) (s' : store) :
  0 < tau -> s !! x = Some X -> separate s F x out ->
  proximal_conjugate F x tau out s = (Ok r, s') ->
  s' !! x = Some X.
Proof.
  intros Ht Hx (Hsx & Hc & Hout) Hrun.
  assert (Ht0 : tau <> 0) by lra.
  assert (Hwp : well_placed s F x out).
  { split; [exact Hsx|]. split; [exact Hc|].
    destruct out as [o|]; [|exact I].
    destruct Hout as (Hox & Dout & Ho). split; [exact Hox|].
    exists Dout. split; [exact Ho|].
    destruct (dtype Dout) eqn:Ek; [|reflexivity]. exfalso.
    destruct (proximal_conjugate_as_body F tau Ht0) as (g & step & Hbody & _).
    rewrite Hbody in Hrun.
    destruct (proximal_conjugate_body_integer_out g step x tau o s Dout Ho Ek)
      as [e He].
    rewrite Hrun in He. discriminate He. }
  pose proof (proximal_conjugate_spec F x tau out s X Ht0 Hx Hwp) as H.
  rewrite Hrun in H. unfold proximal_post in H.
  apply lookup_lt_Some in Hx as Hxl.
  destruct (conjugate_value _ _ _) as [u|];
    [|destruct out; destruct H as [e H]; discriminate H].
  destruct out as [o|].
  - destruct Hwp as (_ & _ & Hox & Dout & Ho & _). rewrite Ho in H.
    destruct (Nat.eqb _ _); [|destruct H as [e H]; discriminate H].
    destruct H as (_ & _ & Hfr). cbn [snd] in Hfr.
    rewrite Hfr by (lia || congruence). exact Hx.
  - destruct H as (p & k & _ & _ & _ & _ & Hfr). cbn [snd] in Hfr.
    rewrite Hfr by lia. exact Hx.
Qed.

Lemma C1_proximal_conjugate_witness :
  exists r s',
    proximal_conjugate (TranslateFunction None (ConstantFunction (Some 0) 5) 1%nat)
      0%nat 2 (Some 2%nat)
      [mkDC float_kind [4]; mkDC float_kind [1]; mkDC float_kind [0]]
    = (Ok r, s') /\
    s' !! 0%nat = Some (mkDC float_kind [4]).
Proof.
  eexists. eexists. split.
  - cbv -[IZR Rplus Rmult Rminus Ropp Rinv Rdiv]. reflexivity.
  - eapply (C1_proximal_conjugate_leaves_x_unchanged
              (TranslateFunction None (ConstantFunction (Some 0) 5) 1%nat)
              0%nat 2 (Some 2%nat)
              [mkDC float_kind [4]; mkDC float_kind [1]; mkDC float_kind [0]]).
    + lra.
    + reflexivity.
    + split; [eexists; reflexivity|]. split.
      * repeat constructor; (discriminate || (cbn; lia) || congruence).
      * split; [discriminate|]. eexists. reflexivity.
    + cbv -[IZR Rplus Rmult Rminus Ropp Rinv Rdiv]. reflexivity.
Defined.

(** On an integer [x] the division cannot be done in place: [x / tau]
    goes to a new container and [x] is never written. *)
Example proximal_conjugate_allocating_path :
  exists r s',
    proximal_conjugate (ConstantFunction (Some 0) 5) 0%nat 2 None
      [mkDC int_kind [4]]
    = (Ok (Some r), s') /\
    s' !! 0%nat = Some (mkDC int_kind [4]) /\
    s' !! 1%nat = Some (mkDC float_kind [4 / 2]) /\
    s' !! r = Some (mkDC float_kind [4 / 2 * - (2) + 4]).
Proof.
  eexists. eexists. split.
  - cbv -[IZR Rplus Rmult Rminus Ropp Rinv Rdiv]. reflexivity.
  - repeat split.
Qed.

(** C1, counterexample: with [out] the container [x] itself, the call
    returns and [x], which held [4], holds [-16]. *)
Lemma C1_out_aliasing_x_overwrites_x :
  exists r s',
    proximal_conjugate (ConstantFunction (Some 0) 5) 0%nat 2 (Some 0%nat)
      [mkDC float_kind [4]]
    = (Ok r, s') /\
    s' !! 0%nat = Some (mkDC float_kind [-16]) /\
    s' !! 0%nat <> [mkDC float_kind [4]] !! 0%nat.
Proof.
  eexists. eexists. split.
  - cbv -[IZR Rplus Rmult Rminus Ropp Rinv Rdiv]. reflexivity.
  - assert (E : 4 / 2 * 2 * - (2) + 4 / 2 * 2 * - (2) = -16) by lra.
    cbn [lookup list_lookup]. rewrite E. split; [reflexivity|].
    intros [= H]. lra.
Qed.

(** C2: when [F.proximal] run on [x / tau] with step [1 / tau] returns
    a container [P] of the shape of [x], [proximal_conjugate] returns a
    container holding [x - tau * P]; adding [tau * P] to it gives [x]
    (in exact arithmetic). *)
Theorem C2_proximal_conjugate_is_Moreau
  (F : Func) (x : loc) (tau : R) (s : store) (X : DataContainer)
  (k : kind) (p : loc) (s1 : store) (P : DataContainer) :
  0 < tau -> s !! x = Some X -> well_placed s F x None ->
  proximal F (length s) (1 / tau) None
    (s ++ [mkDC k (map (fun a => a / tau) (array X))])
  = (Ok (Some p), s1) ->
  s1 !! p = Some P ->
  length (array P) = length (array X) ->
  exists r s2 Res,
    proximal_conjugate F x tau None s = (Ok (Some r), s2) /\
    s2 !! r = Some Res /\
    array Res = zip_with (fun xi pi => xi - tau * pi) (array X) (array P) /\
    zip_with Rplus (array Res) (map (fun pi => tau * pi) (array P)) = array X.
Proof.
  intros Ht Hx Hwp Hrun HP Hlen.
  assert (Ht0 : tau <> 0) by lra.
  pose proof (proximal_run_value F (1 / tau) s s1 x k _ p P Hwp Hrun HP) as Hv.
  pose proof (proximal_conjugate_spec F x tau None s X Ht0 Hx Hwp) as H.
  rewrite Hv in H. unfold conjugate_value in H.
  rewrite pixel_wise_same_length in H by (rewrite length_map; exact Hlen).
  destruct (conjugate_value_Moreau tau (array X) (array P) Hlen) as [E1 E2].
  rewrite E1 in H. unfold proximal_post in H.
  destruct (proximal_conjugate F x tau None s) as [r2 s2].
  destruct H as (r & kr & Hr & _ & Hres & _). cbn [fst snd] in Hr, Hres.
  subst r2. exists r, s2. eexists.
  split; [reflexivity|]. split; [exact Hres|]. split; [reflexivity|exact E2].
Qed.

Lemma C2_proximal_conjugate_witness :
  exists r s2 Res,
    proximal_conjugate (TranslateFunction None (ConstantFunction (Some 0) 5) 1%nat)
      0%nat 2 None [mkDC float_kind [4]; mkDC float_kind [1]]
    = (Ok (Some r), s2) /\
    s2 !! r = Some Res /\
    array Res = zip_with (fun xi pi => xi - 2 * pi) [4] [4 / 2 - 1 + 1] /\
    zip_with Rplus (array Res) (map (fun pi => 2 * pi) [4 / 2 - 1 + 1]) = [4].
Proof.
  eapply (C2_proximal_conjugate_is_Moreau
            (TranslateFunction None (ConstantFunction (Some 0) 5) 1%nat)
            0%nat 2 [mkDC float_kind [4]; mkDC float_kind [1]]
            (mkDC float_kind [4]) float_kind _ _
            (mkDC float_kind [4 / 2 - 1 + 1])).
  - lra.
  - reflexivity.
  - split; [eexists; reflexivity|]. split; [|exact I].
    repeat constructor; (discriminate || (cbn; lia)).
  - cbv -[IZR Rplus Rmult Rminus Ropp Rinv Rdiv]. reflexivity.
  - reflexivity.
  - reflexivity.
Defined.

(** C8: when [F.proximal] run on [x - b] with step [tau] returns a
    container [P], the proximal operator of [TranslateFunction(F, b)]
    at [x] returns a container holding [P + b], and leaves [x] as it
    was. *)
Theorem C8_TranslateFunction_proximal
  (l : option R) (F : Func) (b x : loc) (tau : R) (s : store)
  (X B : DataContainer) (k : kind) (d : list R) (p : loc) (s1 : store)
  (P : DataContainer) (u : list R) :
  s !! x = Some X -> s !! b = Some B ->
  well_placed s (TranslateFunction l F b) x None ->
  pixel_wise Rminus (array X) (array B) = Some d ->
  proximal F (length s) tau None (s ++ [mkDC k d]) = (Ok (Some p), s1) ->
  s1 !! p = Some P ->
  pixel_wise Rplus (array P) (array B) = Some u ->
  exists r s2 Res,
    proximal (TranslateFunction l F b) x tau None s = (Ok (Some r), s2) /\
    s2 !! r = Some Res /\ array Res = u /\
    s2 !! x = Some X.
Proof.
  intros Hx Hb Hwp Ed Hrun HP Eu.
  assert (HwpF : well_placed s F x None).
  { destruct Hwp as (H1 & H2 & H3). split; [exact H1|]. split; [|exact H3].
    simpl in H2. apply Forall_cons in H2 as [_ H2]. exact H2. }
  pose proof (proximal_run_value F tau s s1 x k d p P HwpF Hrun HP) as Hv.
  pose proof (proximal_spec (TranslateFunction l F b) x tau None s X Hx Hwp)
    as H.
  cbn [proximal_value] in H. rewrite Hb, Ed, Hv, Eu in H.
  unfold proximal_post in H. apply lookup_lt_Some in Hx as Hxl.
  destruct (proximal (TranslateFunction l F b) x tau None s) as [r2 s2].
  destruct H as (r & kr & Hr & _ & Hres & _ & Hfr). cbn [fst snd] in *.
  subst r2. exists r, s2, (mkDC kr u).
  split; [reflexivity|]. split; [exact Hres|]. split; [reflexivity|].
  rewrite Hfr by exact Hxl. exact Hx.
Qed.

Lemma C8_TranslateFunction_proximal_witness :
  exists r s2 Res,
    proximal (TranslateFunction None (ConstantFunction (Some 0) 5) 1%nat)
      0%nat 2 None [mkDC float_kind [4]; mkDC float_kind [1]]
    = (Ok (Some r), s2) /\
    s2 !! r = Some Res /\ array Res = [4 - 1 + 1] /\
    s2 !! 0%nat = Some (mkDC float_kind [4]).
Proof.
  eapply (C8_TranslateFunction_proximal
            None (ConstantFunction (Some 0) 5) 1%nat 0%nat 2
            [mkDC float_kind [4]; mkDC float_kind [1]]
            (mkDC float_kind [4]) (mkDC float_kind [1]) float_kind
            [4 - 1] _ _ (mkDC float_kind [4 - 1])).
  - reflexivity.
  - reflexivity.
  - split; [eexists; reflexivity|]. split; [|exact I].
    repeat constructor; (discriminate || (cbn; lia)).
  - reflexivity.
  - cbv -[IZR Rplus Rmult Rminus Ropp Rinv Rdiv]. reflexivity.
  - reflexivity.
  - reflexivity.
Defined.

(** * Further properties *)

(** ** Evaluation on the store *)

(** [call_value] reads the store at the centers only. *)
Lemma call_value_ext (s s' : store) (f : Func) :
  Forall (fun b => s' !! b = s !! b) (call_centers f) ->
  forall v, call_value s' f v = call_value s f v.
Proof.
  induction f as [l i|l fs IH|l g a IH|l g c IH|l c|l g b IH]
    using Func_nested_ind; intros Hc v; cbn [call_value call_centers] in *;
    try reflexivity.
  - generalize 0. induction IH as [|g rest Hg _ IHrest]; intros acc;
      [reflexivity|].
    cbn [flat_map] in Hc. apply Forall_app in Hc as [Hc1 Hc2].
    cbn [call_value_loop]. rewrite (Hg Hc1).
    destruct (call_value s g v); [apply IHrest, Hc2|reflexivity].
  - rewrite (IH Hc). reflexivity.
  - rewrite (IH Hc). reflexivity.
  - apply Forall_cons in Hc as [Hb Hc]. rewrite Hb.
    destruct (s !! b) as [B|]; [|reflexivity].
    destruct (pixel_wise Rminus v (array B)) as [d|]; [|reflexivity].
    apply IH, Hc.
Qed.

(** The loop of [SumFunction.__call__], run from a store that agrees
    with [s] on the containers of [s]. *)
Lemma call_loop_spec (x : loc) (s : store) (X : DataContainer)
  (fs : list Func) :
  s !! x = Some X ->
  Forall (fun g => forall x s X,
              s !! x = Some X -> call_ready s g x ->
              call_post s (call_value s g (array X)) (call g x s)) fs ->
  Forall (fun b => b <> x /\ (b < length s)%nat) (flat_map call_centers fs) ->
  forall acc s',
    (forall l, (l < length s)%nat -> s' !! l = s !! l) ->
    call_post s
      (call_value_loop (fun g => call_value s g (array X)) fs acc)
      (call_loop x fs acc s').
Proof.
  intros Hx IH. induction IH as [|g rest Hg _ IHrest]; intros Hc acc s' Hs'.
  - cbn. split; [reflexivity|exact Hs'].
  - cbn [flat_map] in Hc. apply Forall_app in Hc as [Hc1 Hc2].
    cbn [call_value_loop SumFunction_call_loop]. unfold bind.
    apply lookup_lt_Some in Hx as Hxl.
    assert (Hx' : s' !! x = Some X) by (rewrite Hs'; assumption).
    assert (Hlen : (length s <= length s')%nat).
    { destruct (Nat.le_gt_cases (length s) (length s')) as [|Hlt]; [assumption|].
      destruct s as [|d0 s0]; [cbn; lia|].
      assert (Hl : (length s' < length (d0 :: s0))%nat) by exact Hlt.
      specialize (Hs' (length s') Hl).
      rewrite (lookup_ge_None_2 s' (length s')) in Hs' by lia.
      symmetry in Hs'. apply lookup_ge_None_1 in Hs'. lia. }
    assert (Hready : call_ready s' g x).
    { split; [eauto|]. eapply Forall_impl; [exact Hc1|].
      intros b [? ?]. split; [assumption|lia]. }
    specialize (Hg x s' X Hx' Hready).
    rewrite (call_value_ext s s' g) in Hg.
    2:{ eapply Forall_impl; [exact Hc1|]. intros b [_ ?]. apply Hs'. assumption. }
    destruct (call g x s') as [r1 s1].
    destruct (call_value s g (array X)) as [v|].
    + destruct Hg as [Hr Hfr]. cbn [fst snd] in Hr, Hfr. subst r1.
      apply IHrest; [exact Hc2|].
      intros l Hl. rewrite Hfr by lia. apply Hs', Hl.
    + destruct Hg as [e Hr]. cbn [fst] in Hr. subst r1.
      exists e. reflexivity.
Qed.

(** The runs of [f(x)]: the result is the reference value, and every
    container of the initial store is, at the end, as it was. *)
Lemma call_spec (f : Func) :
  forall x s X,
    s !! x = Some X -> call_ready s f x ->
    call_post s (call_value s f (array X)) (call f x s).
Proof.
  induction f as [l i|l fs IH|l g a IH|l g c IH|l c|l g b IH]
    using Func_nested_ind; intros x s X Hx (_ & Hc).
  - cbn. destruct (leaf_call i) as [F|]; [|exists NotImplementedError; reflexivity].
    unfold bind, read. rewrite Hx. split; [reflexivity|auto].
  - rewrite call_SumFunction. cbn [call_value call_centers] in *.
    apply (call_loop_spec x s X fs Hx IH Hc). auto.
  - cbn [call call_value call_centers] in *. unfold bind.
    specialize (IH x s X Hx (conj (ex_intro _ X Hx) Hc)).
    destruct (call g x s) as [r1 s1].
    destruct (call_value s g (array X)) as [v|].
    + destruct IH as [Hr Hfr]. cbn [fst snd] in Hr, Hfr. subst r1.
      split; [reflexivity|exact Hfr].
    + destruct IH as [e Hr]. cbn [fst] in Hr. subst r1. exists e. reflexivity.
  - cbn [call call_value call_centers] in *. unfold bind.
    specialize (IH x s X Hx (conj (ex_intro _ X Hx) Hc)).
    destruct (call g x s) as [r1 s1].
    destruct (call_value s g (array X)) as [v|].
    + destruct IH as [Hr Hfr]. cbn [fst snd] in Hr, Hfr. subst r1.
      split; [reflexivity|exact Hfr].
    + destruct IH as [e Hr]. cbn [fst] in Hr. subst r1. exists e. reflexivity.
  - cbn. split; [reflexivity|auto].
  - cbn [call_centers] in Hc. apply Forall_cons in Hc as [(Hbx & Hbl) Hc].
    destruct (lookup_lt_is_Some_2 _ _ Hbl) as [B Hb].
    apply lookup_lt_Some in Hx as Hxl.
    cbn [call call_value]. rewrite Hb. unfold bind at 1.
    destruct (pixel_wise Rminus (array X) (array B)) as [d|] eqn:Ed.
    2:{ unfold subtract_out, subtract_new.
        rewrite (enter_binary Rminus x b s X B Hx Hb), Ed.
        exists ValueError. reflexivity. }
    destruct (translate_enter x b s X B d Hx Hb Ed)
      as (tmp & s1 & k1 & -> & H1 & Hfr1 & Hlen1 & _ & _ & Htmp & Hleave).
    assert (H1b : s1 !! b = Some B) by (rewrite Hfr1; auto).
    assert (Hval : call_value s1 g d = call_value s g d).
    { apply call_value_ext. eapply Forall_impl; [exact Hc|].
      intros b' (? & ?). apply Hfr1; assumption. }
    assert (Hready : call_ready s1 g tmp).
    { split; [eauto|]. eapply Forall_impl; [exact Hc|].
      intros b' (? & ?). split; lia. }
    specialize (IH tmp s1 (mkDC k1 d) H1 Hready).
    cbn [array] in IH. rewrite Hval in IH.
    unfold bind. destruct (call g tmp s1) as [r2 s2].
    destruct (call_value s g d) as [v|].
    + destruct IH as [Hr Hfr2]. cbn [fst snd] in Hr, Hfr2. subst r2.
      destruct (Hleave s2) as (s4 & -> & H4x & Hlen4 & Hfr4).
      { apply Hfr2. lia. }
      { rewrite Hfr2 by lia. exact H1b. }
      split; cbn [ret fst snd]; [reflexivity|].
      intros l0 Hl0. destruct (Nat.eq_dec l0 x) as [->|Hnx]; [congruence|].
      rewrite Hfr4 by exact Hnx. rewrite Hfr2 by lia. apply Hfr1; assumption.
    + destruct IH as [e Hr]. cbn [fst] in Hr. subst r2. exists e. reflexivity.
Qed.

(** a run of [f(x)] on a container appended to the store yields the
    reference value *)
Lemma call_run_value (F : Func) (s s1 : store) (x : loc) (k : kind)
  (d : list R) (v : R) :
  call_ready s F x ->
  call F (length s) (s ++ [mkDC k d]) = (Ok v, s1) ->
  call_value s F d = Some v.
Proof.
  intros (_ & Hc) Hrun.
  assert (Hy : (s ++ [mkDC k d]) !! length s = Some (mkDC k d)).
  { rewrite lookup_app_r by lia. rewrite Nat.sub_diag. reflexivity. }
  assert (Hready : call_ready (s ++ [mkDC k d]) F (length s)).
  { split; [eauto|]. eapply Forall_impl; [exact Hc|]. intros b (_ & Hb).
    rewrite length_app. cbn [length]. split; lia. }
  pose proof (call_spec F (length s) _ _ Hy Hready) as H.
  rewrite Hrun in H. cbn [array] in H.
  rewrite (call_value_ext s (s ++ [mkDC k d])) in H.
  2:{ eapply Forall_impl; [exact Hc|]. intros b (_ & Hb).
      apply lookup_app_l, Hb. }
  destruct (call_value s F d) as [w|].
  - destruct H as [[= <-] _]. reflexivity.
  - destruct H as [e H]. discriminate H.
Qed.

(** X1: an evaluation [f(x)] that returns leaves every container that
    was in the store before the call, [x] included, as it was:
    [TranslateFunction.__call__] undoes its in-place shift of [x]. *)
Theorem X1_call_leaves_the_store_unchanged
  (f : Func) (x : loc) (s : store) (X : DataContainer) (v : R) (s' : store) :
  s !! x = Some X -> call_ready s f x ->
  call f x s = (Ok v, s') ->
  forall l, (l < length s)%nat -> s' !! l = s !! l.
Proof.
  intros Hx Hready Hrun. pose proof (call_spec f x s X Hx Hready) as H.
  rewrite Hrun in H. destruct (call_value s f (array X)) as [w|].
  - destruct H as [_ Hfr]. exact Hfr.
  - destruct H as [e H]. discriminate H.
Qed.

Lemma X1_call_witness :
  exists v s',
    call (SumFunction None
            [TranslateFunction None sum_of_entries 1%nat; ZeroFunction])
      0%nat [mkDC float_kind [4; 6]; mkDC float_kind [1; 2]]
    = (Ok v, s') /\
    s' !! 0%nat = Some (mkDC float_kind [4; 6]) /\
    s' !! 1%nat = Some (mkDC float_kind [1; 2]).
Proof.
  eexists. eexists. split.
  - cbv -[IZR Rplus Rmult Rminus Ropp Rinv Rdiv]. reflexivity.
  - assert (H := X1_call_leaves_the_store_unchanged
                   (SumFunction None
                      [TranslateFunction None sum_of_entries 1%nat; ZeroFunction])
                   0%nat [mkDC float_kind [4; 6]; mkDC float_kind [1; 2]]
                   (mkDC float_kind [4; 6])).
    split; eapply H; try reflexivity;
      try (split; [eexists; reflexivity|];
           repeat constructor; (discriminate || (cbn; lia)));
      try (cbv -[IZR Rplus Rmult Rminus Ropp Rinv Rdiv]; reflexivity);
      cbn; lia.
Defined.

(** X2: when [F] run on [x - b] returns [v], the function
    [TranslateFunction(F, b)] run on [x] returns [v], whether [x - b]
    is formed in place or in a new container, and leaves [x] as it
    was. *)
Theorem X2_TranslateFunction_call
  (l : option R) (F : Func) (b x : loc) (s : store) (X B : DataContainer)
  (k : kind) (d : list R) (v : R) (s1 : store) :
  s !! x = Some X -> s !! b = Some B ->
  call_ready s (TranslateFunction l F b) x ->
  pixel_wise Rminus (array X) (array B) = Some d ->
  call F (length s) (s ++ [mkDC k d]) = (Ok v, s1) ->
  exists s2,
    call (TranslateFunction l F b) x s = (Ok v, s2) /\ s2 !! x = Some X.
Proof.
  intros Hx Hb Hready Ed Hrun.
  assert (HreadyF : call_ready s F x).
  { destruct Hready as (H1 & H2). split; [exact H1|].
    cbn [call_centers] in H2. apply Forall_cons in H2 as [_ H2]. exact H2. }
  pose proof (call_run_value F s s1 x k d v HreadyF Hrun) as Hv.
  pose proof (call_spec (TranslateFunction l F b) x s X Hx Hready) as H.
  cbn [call_value] in H. rewrite Hb, Ed, Hv in H.
  apply lookup_lt_Some in Hx as Hxl.
  destruct (call (TranslateFunction l F b) x s) as [r2 s2].
  destruct H as [Hr Hfr]. cbn [fst snd] in Hr, Hfr. subst r2.
  exists s2. split; [reflexivity|]. rewrite Hfr by exact Hxl. exact Hx.
Qed.

Lemma X2_TranslateFunction_call_witness :
  exists s2,
    call (TranslateFunction None sum_of_entries 1%nat) 0%nat
      [mkDC int_kind [4; 6]; mkDC float_kind [1; 2]]
    = (Ok ((4 - 1) + ((6 - 2) + 0)), s2) /\
    s2 !! 0%nat = Some (mkDC int_kind [4; 6]).
Proof.
  eapply (X2_TranslateFunction_call None sum_of_entries 1%nat 0%nat
            [mkDC int_kind [4; 6]; mkDC float_kind [1; 2]]
            (mkDC int_kind [4; 6]) (mkDC float_kind [1; 2]) float_kind
            [4 - 1; 6 - 2]).
  - reflexivity.
  - reflexivity.
  - split; [eexists; reflexivity|].
    repeat constructor; (discriminate || (cbn; lia)).
  - reflexivity.
  - cbv -[IZR Rplus Rmult Rminus Ropp Rinv Rdiv]. reflexivity.
Defined.

Lemma call_value_loop_values (cv : Func -> option R) (fs : list Func)
  (vs : list R) :
  Forall2 (fun g v => cv g = Some v) fs vs ->
  forall acc, call_value_loop cv fs acc = Some (fold_left Rplus vs acc).
Proof.
  induction 1 as [|g v rest vs' Hg _ IH]; intros acc; cbn; [reflexivity|].
  rewrite Hg. apply IH.
Qed.

(** X3: when every child of a [SumFunction], run on [x] from the same
    store, returns a value, the [SumFunction] returns their sum, added
    from [0.] in the order of the children. *)
Theorem X3_SumFunction_call_adds_its_children
  (l : option R) (fs : list Func) (vs : list R) (x : loc) (s : store)
  (X : DataContainer) :
  s !! x = Some X -> call_ready s (SumFunction l fs) x ->
  Forall2 (fun g v => fst (call g x s) = Ok v) fs vs ->
  fst (call (SumFunction l fs) x s) = Ok (fold_left Rplus vs 0).
Proof.
  intros Hx Hready Hruns.
  pose proof (call_spec (SumFunction l fs) x s X Hx Hready) as H.
  cbn [call_value] in H.
  rewrite (call_value_loop_values _ fs vs) in H; [apply H|].
  destruct Hready as (_ & Hc). cbn [call_centers] in Hc.
  clear H. induction Hruns as [|g v rest vs' Hg _ IH]; constructor.
  - cbn [flat_map] in Hc. apply Forall_app in Hc as [Hc1 _].
    pose proof (call_spec g x s X Hx (conj (ex_intro _ X Hx) Hc1)) as H.
    destruct (call_value s g (array X)) as [w|].
    + destruct H as [H _]. congruence.
    + destruct H as [e H]. congruence.
  - apply IH. cbn [flat_map] in Hc. apply Forall_app in Hc as [_ Hc2].
    exact Hc2.
Qed.

Lemma X3_SumFunction_call_witness :
  fst (call (SumFunction None
               [TranslateFunction None sum_of_entries 1%nat;
                ConstantFunction (Some 0) 5])
         0%nat [mkDC float_kind [4; 6]; mkDC float_kind [1; 2]])
  = Ok (fold_left Rplus [(4 - 1) + ((6 - 2) + 0); 5] 0).
Proof.
  eapply (X3_SumFunction_call_adds_its_children None _ _ 0%nat _
            (mkDC float_kind [4; 6])).
  - reflexivity.
  - split; [eexists; reflexivity|].
    repeat constructor; (discriminate || (cbn; lia)).
  - repeat constructor.
Defined.

(** ** The Lipschitz constants *)

Lemma SumFunction_L_loop_defined (fs : list Func) (vs : list R) :
  Forall2 (fun g v => fst (L g) = Some v) fs vs ->
  forall acc, fst (SumFunction_L_loop L fs acc) = Some (fold_left Rplus vs acc).
Proof.
  induction 1 as [|g v rest vs' Hg _ IH]; intros acc; cbn; [reflexivity|].
  destruct (L g) as [[w|] g'] eqn:E; cbn in Hg; [|discriminate Hg].
  injection Hg as ->. specialize (IH (acc + v)).
  destruct (SumFunction_L_loop L rest (acc + v)) as [r rest']. exact IH.
Qed.

Lemma SumFunction_L_loop_undefined (fs : list Func) :
  Exists (fun g => fst (L g) = None) fs ->
  forall acc, fst (SumFunction_L_loop L fs acc) = None.
Proof.
  induction fs as [|g rest IH]; intros Hex acc; [inversion Hex|].
  cbn. destruct (L g) as [[v|] g'] eqn:E; [|reflexivity].
  apply Exists_cons in Hex as [Hg|Hrest].
  - rewrite E in Hg. discriminate Hg.
  - specialize (IH Hrest (acc + v)).
    destruct (SumFunction_L_loop L rest (acc + v)) as [r rest']. exact IH.
Qed.

Lemma L_SumFunction_stores (l : option R) (fs : list Func) :
  attr_L (snd (L (SumFunction l fs))) = fst (L (SumFunction l fs)).
Proof.
  cbn. destruct (SumFunction_L_loop L fs 0) as [r fs']. reflexivity.
Qed.

(** X4: reading [L] on a [SumFunction] returns the sum of the
    children's [L], added from [0.] in order, when each of them is
    defined, and [None] as soon as one of them is [None]; either way
    the result replaces whatever [_L] held. *)
Theorem X4_SumFunction_L_sums_or_propagates_None
  (l : option R) (fs : list Func) :
  (forall vs, Forall2 (fun g v => fst (L g) = Some v) fs vs ->
              fst (L (SumFunction l fs)) = Some (fold_left Rplus vs 0)) /\
  (Exists (fun g => fst (L g) = None) fs ->
   fst (L (SumFunction l fs)) = None) /\
  attr_L (snd (L (SumFunction l fs))) = fst (L (SumFunction l fs)).
Proof.
  split; [|split].
  - intros vs H. pose proof (SumFunction_L_loop_defined fs vs H 0) as E.
    cbn. destruct (SumFunction_L_loop L fs 0) as [r fs']. exact E.
  - intros H. pose proof (SumFunction_L_loop_undefined fs H 0) as E.
    cbn. destruct (SumFunction_L_loop L fs 0) as [r fs']. exact E.
  - apply L_SumFunction_stores.
Qed.

Lemma X4_SumFunction_L_witness :
  fst (L (SumFunction (Some 9)
            [ScaledFunction None (bare (Some 3)) (-2); ZeroFunction]))
  = Some (fold_left Rplus [Rabs (-2) * 3; 0] 0) /\
  fst (L (SumFunction (Some 9) [bare (Some 3); bare None])) = None.
Proof.
  split.
  - apply (proj1 (X4_SumFunction_L_sums_or_propagates_None (Some 9)
                    [ScaledFunction None (bare (Some 3)) (-2); ZeroFunction])).
    repeat constructor.
  - apply (proj1 (proj2 (X4_SumFunction_L_sums_or_propagates_None (Some 9)
                           [bare (Some 3); bare None]))).
    right. left. reflexivity.
Defined.

Lemma fold_left_Rmax_ge_init (vs : list R) (a : R) : a <= fold_left Rmax vs a.
Proof.
  revert a. induction vs as [|v vs IH]; intros a; cbn; [lra|].
  eapply Rle_trans; [apply (Rmax_l a v)|apply IH].
Qed.

Lemma fold_left_Rmax_ge (vs : list R) (a : R) :
  Forall (fun v => v <= fold_left Rmax vs a) vs.
Proof.
  revert a. induction vs as [|v vs IH]; intros a; constructor.
  - cbn. eapply Rle_trans; [apply (Rmax_r a v)|apply fold_left_Rmax_ge_init].
  - apply IH.
Qed.

Lemma fold_left_Rmax_In (vs : list R) (a : R) :
  In (fold_left Rmax vs a) (a :: vs).
Proof.
  revert a. induction vs as [|v vs IH]; intros a; cbn; [left; reflexivity|].
  destruct (IH (Rmax a v)) as [E|Hin].
  - unfold Rmax in E at 1. destruct (Rle_dec a v); rewrite <- E; auto.
  - right. right. exact Hin.
Qed.

(** X5: with every child's [L] defined, [Lmax] of a [SumFunction]
    returns one of the children's [L], and none of them is larger. *)
Theorem X5_Lmax_is_the_largest_child_L
  (l : option R) (fs : list Func) (vs : list R) :
  fs <> [] ->
  Forall2 (fun g v => fst (L g) = Some v) fs vs ->
  exists m, fst (Lmax (SumFunction l fs)) = Ok m /\
            In m vs /\ Forall (fun v => v <= m) vs.
Proof.
  intros Hne H. destruct H as [|g v rest vs' Hg Hrest]; [congruence|].
  exists (fold_left Rmax vs' v). split; [|split].
  - apply Lmax_defined. constructor; assumption.
  - apply fold_left_Rmax_In.
  - constructor; [apply fold_left_Rmax_ge_init|apply fold_left_Rmax_ge].
Qed.

Lemma X5_Lmax_witness :
  exists m,
    fst (Lmax (SumFunction None [bare (Some 1); bare (Some 3); ZeroFunction]))
    = Ok m /\ In m [1; 3; 0] /\ Forall (fun v => v <= m) [1; 3; 0].
Proof.
  apply (X5_Lmax_is_the_largest_child_L None
           [bare (Some 1); bare (Some 3); ZeroFunction] [1; 3; 0]).
  - discriminate.
  - repeat constructor.
Defined.

(** X6: reading [L] again, any number of times, returns what the first
    read returned and leaves the node as the first read left it: the
    caches filled by a read are only filled once. *)
Theorem X6_L_reads_are_stable (f : Func) (n : nat) :
  L (Nat.iter n (fun g => snd (L g)) (snd (L f))) = L f /\
  Nat.iter n (fun g => snd (L g)) (snd (L f)) = snd (L f).
Proof.
  induction n as [|n [IH1 IH2]].
  - split; [apply L_stable|reflexivity].
  - rewrite !Nat.iter_succ, IH2, !L_stable. split; reflexivity.
Qed.

(** X7: assigning [L].  A negative number or a value that is not a
    number is refused with [TypeError].  A non-negative number is
    accepted by every class but [ConstantFunction]; on a plain,
    scaled, sum-with-scalar or translated function the next read
    returns it, and on a [SumFunction] the next read returns the sum
    of the children's [L] as if nothing had been assigned. *)
Theorem X7_assigning_L (f : Func) (v : R) :
  (forall l c, f <> ConstantFunction l c) ->
  (v < 0 -> set_L f (PyNumber v) = Raise TypeError) /\
  (forall value, (forall r, value <> PyNumber r) ->
                 set_L f value = Raise TypeError) /\
  (0 <= v ->
   exists f', set_L f (PyNumber v) = Ok f' /\
     (keeps_assigned_L f = true -> fst (L f') = Some v) /\
     (forall l fs, f = SumFunction l fs -> fst (L f') = fst (L f))).
Proof.
  intros Hnc. split; [|split].
  - intros Hv. destruct f; cbn; try (destruct (Rle_dec 0 v); [lra|reflexivity]).
    exfalso. eapply Hnc. reflexivity.
  - intros value Hval.
    destruct f; try (exfalso; eapply Hnc; reflexivity);
      (destruct value as [g0|r0|]; [reflexivity| |reflexivity];
       exfalso; eapply Hval; reflexivity).
  - intros Hv. exists (with_L f (Some v)). split; [|split].
    + destruct f; cbn; try (destruct (Rle_dec 0 v); [reflexivity|lra]).
      exfalso. eapply Hnc. reflexivity.
    + destruct f; cbn; intros; (reflexivity || discriminate).
    + intros l fs ->. cbn.
      destruct (SumFunction_L_loop L fs 0) as [r fs']. reflexivity.
Qed.

Lemma X7_assigning_L_witness :
  set_L (SumFunction None [bare (Some 1); bare (Some 3)]) (PyNumber (-1))
  = Raise TypeError /\
  exists f',
    set_L (SumFunction None [bare (Some 1); bare (Some 3)]) (PyNumber 7)
    = Ok f' /\
    fst (L f') = fst (L (SumFunction None [bare (Some 1); bare (Some 3)])).
Proof.
  assert (Hnc : forall l c,
             SumFunction None [bare (Some 1); bare (Some 3)]
             <> ConstantFunction l c) by discriminate.
  split.
  - apply (proj1 (X7_assigning_L _ (-1) Hnc)). lra.
  - destruct (proj2 (proj2 (X7_assigning_L _ 7 Hnc))) as (f' & H1 & _ & H3);
      [lra|].
    exists f'. split; [exact H1|]. eapply H3. reflexivity.
Defined.

(** ** Subtraction, scaling and translation *)

Lemma rmul_number (g : Func) (a : R) :
  exists h, rmul g (PyNumber a) = Ok h /\
            isinstance_SumFunction h = false /\
            forall x s,
              call h x s
              = match call g x s with
                | (Ok v, s') => (Ok (a * v), s')
                | (Raise e, s') => (Raise e, s')
                end.
Proof.
  destruct g as [l i|l fs|l g a0|l g c|l c|l g b];
    try (eexists; split; [reflexivity|]; split; [reflexivity|];
         intros x s; cbn [call]; unfold bind;
         match goal with
         | |- context [match ?r with _ => _ end] => destruct r as [[v|e] s']
         end; reflexivity).
  eexists. split; [reflexivity|]. split; [reflexivity|].
  intros x s. cbn. unfold ret. do 2 f_equal. ring.
Qed.

(** X8: for functions [f] and [g], [f - g] is built and, run on [x],
    calls [f], then [g], and returns [f(x) - g(x)] (in exact
    arithmetic); [f - c] for a number [c] returns [f(x) - c]. *)
Theorem X8_sub_evaluates_to_the_difference
  (minus_other : result pyobj) (f : Func) :
  sum_invariant f ->
  (forall g, exists d,
      sub minus_other f (PyFunction g) = Ok d /\
      forall x s,
        call d x s
        = match call f x s with
          | (Ok vf, s1) =>
              match call g x s1 with
              | (Ok vg, s2) => (Ok (vf - vg), s2)
              | (Raise e, s2) => (Raise e, s2)
              end
          | (Raise e, s1) => (Raise e, s1)
          end) /\
  (forall c, exists d,
      sub minus_other f (PyNumber c) = Ok d /\
      forall x s,
        call d x s
        = match call f x s with
          | (Ok vf, s1) => (Ok (vf - c), s1)
          | (Raise e, s1) => (Raise e, s1)
          end).
Proof.
  intros Hinv. split.
  - intros g. destruct (rmul_number g (-1)) as (h & Hh & Hns & Hcall).
    exists (SumFunction None (add_children f h)). split.
    + unfold sub, minus_one_times. rewrite Hh. apply add_Function, Hinv.
    + intros x s. rewrite call_SumFunction, call_loop_add_children.
      destruct (call f x s) as [[vf|e] s1]; [|reflexivity].
      rewrite Hcall. destruct (call g x s1) as [[vg|e] s2]; [|reflexivity].
      do 2 f_equal. ring.
  - intros c. exists (SumScalarFunction None f (-1 * c)). split.
    + unfold sub, minus_one_times. apply add_Number.
    + intros x s. cbn [call]. unfold bind.
      destruct (call f x s) as [[vf|e] s1]; [|reflexivity].
      unfold ret. do 2 f_equal. ring.
Qed.

Lemma X8_sub_witness :
  exists d,
    sub (Raise TypeError) (ConstantFunction (Some 0) 5)
        (PyFunction (ConstantFunction (Some 0) 3)) = Ok d /\
    call d 0%nat [] = (Ok (5 - 3), []).
Proof.
  assert (Hinv : sum_invariant (ConstantFunction (Some 0) 5))
    by (intros H; discriminate H).
  destruct (proj1 (X8_sub_evaluates_to_the_difference
                     (Raise TypeError) (ConstantFunction (Some 0) 5) Hinv)
              (ConstantFunction (Some 0) 3)) as (d & Hd & Hcall).
  exists d. split; [exact Hd|]. rewrite Hcall. reflexivity.
Defined.

(** X9: arithmetic on a [ConstantFunction] gives functions that are
    constant with [L = 0]: [a * ConstantFunction(c)] is the
    [ConstantFunction] of [c * a], and [ConstantFunction(c) + k]
    evaluates to [c + k] on every [x], without reading [x]; a factor
    that is not a number is refused with [TypeError]. *)
Theorem X9_arithmetic_on_ConstantFunction (l : option R) (c : R) :
  (forall a x s,
      exists h, rmul (ConstantFunction l c) (PyNumber a) = Ok h /\
                call h x s = (Ok (c * a), s) /\ fst (L h) = Some 0) /\
  (forall k x s,
      exists h, add (ConstantFunction l c) (PyNumber k) = Ok h /\
                call h x s = (Ok (c + k), s) /\ fst (L h) = Some 0) /\
  (forall g, rmul (ConstantFunction l c) (PyFunction g) = Raise TypeError) /\
  rmul (ConstantFunction l c) PyOther = Raise TypeError.
Proof.
  split; [|split; [|split]]; try reflexivity.
  - intros a x s. eexists. repeat split.
  - intros k x s. eexists. split; [reflexivity|]. split; [|reflexivity].
    cbn. unfold ret. do 2 f_equal. ring.
Qed.

(** X10: [centered_at(None)] is the function itself.  A translated
    function takes its [L] from the wrapped function once, when it is
    built: reading [L] on it returns what the wrapped function's [L]
    was then, whatever the wrapped function has become since. *)
Theorem X10_centered_at_takes_L_once (f : Func) :
  centered_at f None = f /\
  forall b g,
    fst (L (centered_at f (Some b))) = fst (L f) /\
    fst (L (with_wrapped (centered_at f (Some b)) g)) = fst (L f).
Proof.
  split; [reflexivity|]. intros b g.
  unfold centered_at, TranslateFunction_init.
  destruct (L f) as [l f']. split; reflexivity.
Qed.

(** ** Exceptions in the middle of a call *)

Lemma no_proximal_raises (f : Func) :
  no_proximal f = true ->
  forall x tau out s, proximal f x tau out s = (Raise NotImplementedError, s).
Proof.
  induction f as [l i|l fs _|l g a IH|l g c IH|l c|l g b IH]
    using Func_nested_ind; cbn [no_proximal proximal]; intros H x tau out s;
    try discriminate H; try (apply IH, H); try reflexivity.
  destruct (leaf_proximal i); [discriminate H|reflexivity].
Qed.

(** X11: when [proximal] is not implemented, [proximal_conjugate]
    with a step [tau] other than zero raises [NotImplementedError]
    after it has divided: a floating [x] is left holding [x / tau],
    because the multiplication that restores it is not reached; an
    integer [x] is left as it was, with the quotient in a new
    container.  (At [tau = 0] Python raises [ZeroDivisionError] at
    [1.0/tau] before [proximal] is called.) *)
Theorem X11_proximal_conjugate_raising_leaves_x_divided
  (f : Func) (x : loc) (tau : R) (out : option loc) (s : store)
  (X : DataContainer) :
  tau <> 0 -> no_proximal f = true -> s !! x = Some X ->
  proximal_conjugate f x tau out s
  = (Raise NotImplementedError,
     match dtype X with
     | float_kind =>
         <[x := mkDC float_kind (map (fun a => a / tau) (array X))]> s
     | int_kind => s ++ [mkDC float_kind (map (fun a => a / tau) (array X))]
     end).
Proof.
  intros _ Hno Hx.
  assert (Hbody : forall g step,
             no_proximal g = true ->
             proximal_conjugate_body g step x tau out s
             = (Raise NotImplementedError,
                match dtype X with
                | float_kind =>
                    <[x := mkDC float_kind (map (fun a => a / tau) (array X))]> s
                | int_kind =>
                    s ++ [mkDC float_kind (map (fun a => a / tau) (array X))]
                end)).
  { intros g step Hg. unfold proximal_conjugate_body. unfold bind at 1.
    unfold divide_out, divide_new. rewrite (enter_scalar _ x s X Hx).
    destruct (dtype X); cbn [can_cast]; unfold bind;
      destruct out; rewrite (no_proximal_raises g Hg); reflexivity. }
  destruct f as [l i|l fs|l g a|l g c|l c|l g b];
    try discriminate Hno; apply Hbody; exact Hno.
Qed.

Lemma X11_proximal_conjugate_raising_witness :
  proximal_conjugate
    (SumFunction None [ZeroFunction; ZeroFunction]) 0%nat 2 None
    [mkDC float_kind [4; 6]]
  = (Raise NotImplementedError, [mkDC float_kind [4 / 2; 6 / 2]]).
Proof.
  apply (X11_proximal_conjugate_raising_leaves_x_divided
           (SumFunction None [ZeroFunction; ZeroFunction]) 0%nat 2 None
           [mkDC float_kind [4; 6]] (mkDC float_kind [4; 6]));
    [lra|reflexivity|reflexivity].
Defined.

(** X12: the same for a [TranslateFunction] that wraps a function
    without [proximal]: its [proximal] raises [NotImplementedError]
    and, where the subtraction was done in place, leaves [x] holding
    [x - b]. *)
Theorem X12_TranslateFunction_proximal_raising_leaves_x_shifted
  (l : option R) (g : Func) (b x : loc) (tau : R) (out : option loc)
  (s : store) (X B : DataContainer) (d : list R) :
  no_proximal g = true -> s !! x = Some X -> s !! b = Some B ->
  pixel_wise Rminus (array X) (array B) = Some d ->
  proximal (TranslateFunction l g b) x tau out s
  = (Raise NotImplementedError,
     if can_cast (result_kind (dtype X) (dtype B)) (dtype X)
     then <[x := mkDC (dtype X) d]> s
     else s ++ [mkDC float_kind d]).
Proof.
  intros Hno Hx Hb Ed. cbn [proximal]. unfold bind at 1.
  unfold subtract_out, subtract_new.
  rewrite (enter_binary Rminus x b s X B Hx Hb), Ed.
  destruct (can_cast _ _); unfold bind; destruct out;
    rewrite (no_proximal_raises g Hno); reflexivity.
Qed.

Lemma X12_TranslateFunction_proximal_raising_witness :
  proximal (TranslateFunction None (bare None) 1%nat) 0%nat 2 None
    [mkDC float_kind [4; 6]; mkDC float_kind [1; 2]]
  = (Raise NotImplementedError,
     [mkDC float_kind [4 - 1; 6 - 2]; mkDC float_kind [1; 2]]).
Proof.
  apply (X12_TranslateFunction_proximal_raising_leaves_x_shifted
           None (bare None) 1%nat 0%nat 2 None
           [mkDC float_kind [4; 6]; mkDC float_kind [1; 2]]
           (mkDC float_kind [4; 6]) (mkDC float_kind [1; 2]) [4 - 1; 6 - 2]);
    reflexivity.
Defined.

(** X13: a center whose shape is not the shape of [x] makes the
    evaluation and the proximal operator of a [TranslateFunction]
    raise [ValueError] before anything is written or allocated. *)
Theorem X13_TranslateFunction_shape_mismatch
  (l : option R) (g : Func) (b x : loc) (s : store) (X B : DataContainer) :
  s !! x = Some X -> s !! b = Some B ->
  length (array X) <> length (array B) ->
  call (TranslateFunction l g b) x s = (Raise ValueError, s) /\
  forall tau out,
    proximal (TranslateFunction l g b) x tau out s = (Raise ValueError, s).
Proof.
  intros Hx Hb Hlen.
  assert (E : pixel_wise Rminus (array X) (array B) = None).
  { unfold pixel_wise.
    destruct (Nat.eqb_spec (length (array X)) (length (array B)));
      [contradiction|reflexivity]. }
  split; [|intros tau out]; cbn [call proximal]; unfold bind at 1;
    unfold subtract_out, subtract_new;
    rewrite (enter_binary Rminus x b s X B Hx Hb), E; reflexivity.
Qed.

Lemma X13_TranslateFunction_shape_mismatch_witness :
  call (TranslateFunction None ZeroFunction 1%nat) 0%nat
    [mkDC float_kind [4; 6]; mkDC float_kind [1]]
  = (Raise ValueError, [mkDC float_kind [4; 6]; mkDC float_kind [1]]).
Proof.
  apply (X13_TranslateFunction_shape_mismatch None ZeroFunction 1%nat 0%nat
           [mkDC float_kind [4; 6]; mkDC float_kind [1]]
           (mkDC float_kind [4; 6]) (mkDC float_kind [1]));
    [reflexivity|reflexivity|cbn; lia].
Defined.

(** ** The two ways of returning the result *)

Lemma map_divide_conjugate_zero (tau : R) (u : list R) :
  tau <> 0 ->
  zip_with Rplus (map (fun a => a * - tau) (map (fun a => a / tau) u)) u
  = map (fun _ => 0) u.
Proof.
  intros Ht. induction u as [|a u IH]; cbn; [reflexivity|].
  f_equal; [field; exact Ht|exact IH].
Qed.

(** X14: [proximal_conjugate] of a [ConstantFunction] returns the zero
    vector of the shape of [x], for every constant and every
    [tau > 0], and leaves [x] as it was (in exact arithmetic). *)
Theorem X14_proximal_conjugate_of_ConstantFunction_is_zero
  (l : option R) (c : R) (x : loc) (tau : R) (s : store) (X : DataContainer) :
  0 < tau -> s !! x = Some X ->
  exists r s' k,
    proximal_conjugate (ConstantFunction l c) x tau None s
    = (Ok (Some r), s') /\
    s' !! r = Some (mkDC k (map (fun _ => 0) (array X))) /\
    s' !! x = Some X.
Proof.
  intros Ht Hx. assert (Ht0 : tau <> 0) by lra.
  assert (Hwp : well_placed s (ConstantFunction l c) x None).
  { split; [eauto|]. split; [constructor|exact I]. }
  pose proof (proximal_conjugate_spec _ x tau None s X Ht0 Hx Hwp) as H.
  cbn [proximal_value conjugate_value] in H.
  rewrite pixel_wise_same_length in H by (rewrite !length_map; reflexivity).
  rewrite map_divide_conjugate_zero in H by exact Ht0.
  unfold proximal_post in H. apply lookup_lt_Some in Hx as Hxl.
  destruct (proximal_conjugate (ConstantFunction l c) x tau None s) as [r2 s2].
  destruct H as (r & k & Hr & _ & Hres & _ & Hfr). cbn [fst snd] in *.
  subst r2. exists r, s2, k. split; [reflexivity|]. split; [exact Hres|].
  rewrite Hfr by exact Hxl. exact Hx.
Qed.

Lemma X14_proximal_conjugate_of_ConstantFunction_witness :
  exists r s' k,
    proximal_conjugate (ConstantFunction (Some 0) 5) 0%nat 2 None
      [mkDC int_kind [4; 6]]
    = (Ok (Some r), s') /\
    s' !! r = Some (mkDC k [0; 0]) /\
    s' !! 0%nat = Some (mkDC int_kind [4; 6]).
Proof.
  apply (X14_proximal_conjugate_of_ConstantFunction_is_zero
           (Some 0) 5 0%nat 2 [mkDC int_kind [4; 6]] (mkDC int_kind [4; 6]));
    [lra|reflexivity].
Defined.

(** X15: the two calling conventions of [proximal] agree.  When
    [proximal(x, tau)] returns a new container holding [P], and [out]
    is a floating container of the shape of [P], other than [x] and
    than the centers, then [proximal(x, tau, out=out)] returns [None],
    leaves [out] holding [P] and every other container of the store
    as it was. *)
Theorem X15_proximal_out_agrees_with_return
  (f : Func) (x o : loc) (tau : R) (s : store) (X Dout P : DataContainer)
  (p : loc) (s1 : store) :
  s !! x = Some X -> s !! o = Some Dout ->
  well_placed s f x (Some o) ->
  proximal f x tau None s = (Ok (Some p), s1) -> s1 !! p = Some P ->
  length (array P) = length (array Dout) ->
  exists s2,
    proximal f x tau (Some o) s = (Ok None, s2) /\
    s2 !! o = Some (mkDC (dtype Dout) (array P)) /\
    forall l, (l < length s)%nat -> l <> o -> s2 !! l = s !! l.
Proof.
  intros Hx Ho Hwp Hrun HP Hlen.
  assert (Hwp0 : well_placed s f x None).
  { destruct Hwp as (H1 & H2 & _). split; [exact H1|]. split; [|exact I].
    eapply Forall_impl; [exact H2|]. intros b (? & ? & _).
    repeat split; (assumption || discriminate). }
  pose proof (proximal_spec f x tau None s X Hx Hwp0) as H0.
  pose proof (proximal_spec f x tau (Some o) s X Hx Hwp) as H.
  rewrite Hrun in H0. unfold proximal_post in H0, H. rewrite Ho in H.
  destruct (proximal_value s f (array X) tau) as [w|].
  2:{ destruct H0 as [e H0]. discriminate H0. }
  destruct H0 as (p' & k & [= <-] & _ & Hp & _). cbn [snd] in Hp.
  rewrite HP in Hp. injection Hp as ->. cbn [array] in Hlen.
  rewrite Hlen, Nat.eqb_refl in H.
  destruct (proximal f x tau (Some o) s) as [r2 s2].
  destruct H as (Hr & Hres & Hfr). cbn [fst snd] in *. subst r2.
  exists s2. repeat split; assumption.
Qed.

Lemma X15_proximal_out_witness :
  exists s2,
    proximal (TranslateFunction None (ConstantFunction (Some 0) 5) 1%nat)
      0%nat 2 (Some 2%nat)
      [mkDC float_kind [4]; mkDC float_kind [1]; mkDC float_kind [0]]
    = (Ok None, s2) /\
    s2 !! 2%nat = Some (mkDC float_kind [4 - 1 + 1]) /\
    forall l, (l < 3)%nat -> l <> 2%nat ->
              s2 !! l
              = [mkDC float_kind [4]; mkDC float_kind [1]; mkDC float_kind [0]]
                  !! l.
Proof.
  eapply (X15_proximal_out_agrees_with_return
            (TranslateFunction None (ConstantFunction (Some 0) 5) 1%nat)
            0%nat 2%nat 2
            [mkDC float_kind [4]; mkDC float_kind [1]; mkDC float_kind [0]]
            (mkDC float_kind [4]) (mkDC float_kind [0])
            (mkDC float_kind [4 - 1 + 1])).
  - reflexivity.
  - reflexivity.
  - split; [eexists; reflexivity|]. split.
    + repeat constructor; (discriminate || (cbn; lia) || congruence).
    + split; [discriminate|]. eexists. split; reflexivity.
  - cbv -[IZR Rplus Rmult Rminus Ropp Rinv Rdiv]. reflexivity.
  - reflexivity.
  - reflexivity.
Defined.

(** ** Convex conjugates on the store *)

Section Conjugate_properties.
Variable U : LeafImpl -> option (list R -> R).

Lemma conjugate_ref_ext (s s' : store) (f : Func) :
  Forall (fun b => s' !! b = s !! b) (conjugate_centers f) ->
  forall v, conjugate_ref U s' f v = conjugate_ref U s f v.
Proof.
  induction f as [l i|l fs _|l g a IH|l g c IH|l c|l g b IH]
    using Func_nested_ind; intros Hc v;
    cbn [conjugate_ref conjugate_centers] in *; try reflexivity.
  - rewrite (IH Hc). reflexivity.
  - rewrite (IH Hc). reflexivity.
  - apply Forall_cons in Hc as [Hb Hc]. rewrite Hb, (IH Hc). reflexivity.
Qed.

(** The runs of [f.convex_conjugate(x)]: the result is the reference
    value, and every container of the initial store is, at the end, as
    it was. *)
Lemma conjugate_spec (f : Func) :
  forall x s X,
    s !! x = Some X -> conjugate_ready s f x ->
    call_post s (conjugate_ref U s f (array X)) (convex_conjugate U f x s).
Proof.
  induction f as [l i|l fs _|l g a IH|l g c IH|l c|l g b IH]
    using Func_nested_ind; intros x s X Hx (_ & Hc & Hs);
    cbn [convex_conjugate conjugate_ref conjugate_centers conjugate_scalars]
      in *.
  - destruct (U i) as [F|]; [|exists NotImplementedError; reflexivity].
    unfold bind, read. rewrite Hx. split; [reflexivity|auto].
  - exists NotImplementedError. reflexivity.
  - apply Forall_cons in Hs as [Ha Hs]. apply lookup_lt_Some in Hx as Hxl.
    unfold bind at 1.
    destruct (conjugate_enter x a s X Ha Hx)
      as (tmp & s1 & -> & H1 & Hfr1 & Hlen1 & Htmp & Hleave).
    set (d := map (fun e => e / a) (array X)) in *.
    assert (Hval : conjugate_ref U s1 g d = conjugate_ref U s g d).
    { apply conjugate_ref_ext. eapply Forall_impl; [exact Hc|].
      intros b' (? & ?). apply Hfr1; assumption. }
    assert (Hready : conjugate_ready s1 g tmp).
    { split; [eauto|]. split; [|exact Hs]. eapply Forall_impl; [exact Hc|].
      intros b' (? & ?). split; lia. }
    specialize (IH tmp s1 _ H1 Hready). cbn [array] in IH.
    rewrite Hval in IH. unfold bind.
    destruct (convex_conjugate U g tmp s1) as [r2 s2].
    destruct (conjugate_ref U s g d) as [w|].
    + destruct IH as [Hr Hfr2]. cbn [fst snd] in Hr, Hfr2. subst r2.
      destruct (Hleave s2) as (s4 & -> & H4x & Hlen4 & Hfr4).
      { apply Hfr2. lia. }
      split; cbn [ret fst snd]; [reflexivity|].
      intros l0 Hl0. destruct (Nat.eq_dec l0 x) as [->|Hnx]; [congruence|].
      rewrite Hfr4 by exact Hnx. rewrite Hfr2 by lia. apply Hfr1; assumption.
    + destruct IH as [e Hr]. cbn [fst] in Hr. subst r2. exists e. reflexivity.
  - unfold bind.
    specialize (IH x s X Hx (conj (ex_intro _ X Hx) (conj Hc Hs))).
    destruct (convex_conjugate U g x s) as [r1 s1].
    destruct (conjugate_ref U s g (array X)) as [v|].
    + destruct IH as [Hr Hfr]. cbn [fst snd] in Hr, Hfr. subst r1.
      split; [reflexivity|exact Hfr].
    + destruct IH as [e Hr]. cbn [fst] in Hr. subst r1. exists e. reflexivity.
  - unfold maximum_new, sum, bind, read, alloc. rewrite Hx.
    rewrite lookup_app_r by lia.
    rewrite Nat.sub_diag. cbn [lookup list_lookup].
    split; cbn [ret fst snd array]; [reflexivity|].
    intros l0 Hl0. apply lookup_app_l, Hl0.
  - apply Forall_cons in Hc as [(Hbx & Hbl) Hc].
    destruct (lookup_lt_is_Some_2 _ _ Hbl) as [B Hb].
    apply lookup_lt_Some in Hx as Hxl. unfold bind.
    specialize (IH x s X Hx (conj (ex_intro _ X Hx) (conj Hc Hs))).
    destruct (convex_conjugate U g x s) as [r1 s1].
    destruct (conjugate_ref U s g (array X)) as [v|].
    + destruct IH as [Hr Hfr]. cbn [fst snd] in Hr, Hfr. subst r1.
      rewrite Hb. unfold dot, bind, read.
      rewrite (Hfr b Hbl), Hb. rewrite (Hfr x Hxl), Hx.
      destruct (pixel_wise Rmult (array B) (array X)) as [p|].
      * split; [reflexivity|exact Hfr].
      * exists ValueError. reflexivity.
    + destruct IH as [e Hr]. cbn [fst] in Hr. subst r1. exists e. reflexivity.
Qed.


Lemma conjugate_run_value (F : Func) (s s1 : store) (x : loc) (k : kind)
  (d : list R) (v : R) :
  conjugate_ready s F x ->
  convex_conjugate U F (length s) (s ++ [mkDC k d]) = (Ok v, s1) ->
  conjugate_ref U s F d = Some v.
Proof.
  intros (_ & Hc & Hs) Hrun.
  assert (Hy : (s ++ [mkDC k d]) !! length s = Some (mkDC k d)).
  { rewrite lookup_app_r by lia. rewrite Nat.sub_diag. reflexivity. }
  assert (Hready : conjugate_ready (s ++ [mkDC k d]) F (length s)).
  { split; [eauto|]. split; [|exact Hs]. eapply Forall_impl; [exact Hc|].
    intros b (_ & Hb). rewrite length_app. cbn [length]. split; lia. }
  pose proof (conjugate_spec F (length s) _ _ Hy Hready) as H.
  rewrite Hrun in H. cbn [array] in H.
  rewrite (conjugate_ref_ext s (s ++ [mkDC k d])) in H.
  2:{ eapply Forall_impl; [exact Hc|]. intros b (_ & Hb).
      apply lookup_app_l, Hb. }
  destruct (conjugate_ref U s F d) as [w|].
  - destruct H as [[= <-] _]. reflexivity.
  - destruct H as [e H]. discriminate H.
Qed.

(** X21: for a scalar [a] other than zero, when [F.convex_conjugate]
    run on [x / a] returns [v], the [convex_conjugate] of
    [ScaledFunction(F, a)] run on [x] returns [a * v], whether [x / a]
    is formed in place or in a new container, and leaves [x] as it was
    (in exact arithmetic). *)
Theorem X21_ScaledFunction_convex_conjugate
  (l : option R) (F : Func) (a : R) (x : loc) (s : store) (X : DataContainer)
  (k : kind) (v : R) (s1 : store) :
  s !! x = Some X -> conjugate_ready s (ScaledFunction l F a) x ->
  convex_conjugate U F (length s)
    (s ++ [mkDC k (map (fun e => e / a) (array X))]) = (Ok v, s1) ->
  exists s2,
    convex_conjugate U (ScaledFunction l F a) x s = (Ok (a * v), s2) /\
    s2 !! x = Some X.
Proof.
  intros Hx Hready Hrun.
  assert (HreadyF : conjugate_ready s F x).
  { destruct Hready as (H1 & H2 & H3). split; [exact H1|]. split; [exact H2|].
    cbn [conjugate_scalars] in H3. apply Forall_cons in H3 as [_ H3]. exact H3. }
  pose proof (conjugate_run_value F s s1 x k _ v HreadyF Hrun) as Hv.
  pose proof (conjugate_spec (ScaledFunction l F a) x s X Hx Hready) as H.
  cbn [conjugate_ref] in H. rewrite Hv in H.
  apply lookup_lt_Some in Hx as Hxl.
  destruct (convex_conjugate U (ScaledFunction l F a) x s) as [r2 s2].
  destruct H as [Hr Hfr]. cbn [fst snd] in Hr, Hfr. subst r2.
  exists s2. split; [reflexivity|]. rewrite Hfr by exact Hxl. exact Hx.
Qed.

(** X22: a call of [convex_conjugate] that returns leaves every
    container that was in the store as it was, when no scalar of a
    [ScaledFunction] in the way is zero: the division of [x] in place
    is undone. *)
Theorem X22_convex_conjugate_leaves_the_store_unchanged
  (f : Func) (x : loc) (s : store) (X : DataContainer) (v : R) (s' : store) :
  s !! x = Some X -> conjugate_ready s f x ->
  convex_conjugate U f x s = (Ok v, s') ->
  forall l, (l < length s)%nat -> s' !! l = s !! l.
Proof.
  intros Hx Hready Hrun. pose proof (conjugate_spec f x s X Hx Hready) as H.
  rewrite Hrun in H. destruct (conjugate_ref U s f (array X)) as [w|].
  - destruct H as [_ Hfr]. exact Hfr.
  - destruct H as [e H]. discriminate H.
Qed.

(** X23: when [F.convex_conjugate(x)] returns [v], the
    [convex_conjugate] of [TranslateFunction(F, b)] at [x] returns [v]
    plus the inner product of [b] and [x]: the conjugate of the
    wrapped function is taken at [x], not at [x - b]. *)
Theorem X23_TranslateFunction_convex_conjugate
  (l : option R) (F : Func) (b x : loc) (s : store) (X B : DataContainer)
  (v : R) (p : list R) :
  s !! x = Some X -> s !! b = Some B ->
  conjugate_ready s (TranslateFunction l F b) x ->
  fst (convex_conjugate U F x s) = Ok v ->
  pixel_wise Rmult (array B) (array X) = Some p ->
  fst (convex_conjugate U (TranslateFunction l F b) x s)
  = Ok (v + fold_right Rplus 0 p).
Proof.
  intros Hx Hb Hready Hrun Hp.
  assert (HreadyF : conjugate_ready s F x).
  { destruct Hready as (H1 & H2 & H3). split; [exact H1|]. split; [|exact H3].
    cbn [conjugate_centers] in H2. apply Forall_cons in H2 as [_ H2]. exact H2. }
  pose proof (conjugate_spec F x s X Hx HreadyF) as HF.
  pose proof (conjugate_spec (TranslateFunction l F b) x s X Hx Hready) as H.
  cbn [conjugate_ref] in H.
  destruct (conjugate_ref U s F (array X)) as [w|].
  - destruct HF as [HF _]. rewrite Hrun in HF. injection HF as ->.
    rewrite Hb, Hp in H. apply H.
  - destruct HF as [e HF]. rewrite Hrun in HF. discriminate HF.
Qed.

Lemma sum_of_positive_parts (u : list R) :
  0 <= fold_right Rplus 0 (map (fun e => Rmax e 0) u) /\
  (fold_right Rplus 0 (map (fun e => Rmax e 0) u) = 0 <->
   Forall (fun e => e <= 0) u).
Proof.
  induction u as [|e u [IH0 IH]]; cbn.
  - split; [lra|]. split; [constructor|reflexivity].
  - pose proof (Rmax_r e 0) as Hr. pose proof (Rmax_l e 0) as Hl.
    split; [lra|]. split.
    + intros H. constructor; [lra|]. apply IH. lra.
    + intros H. apply Forall_cons in H as [He Hu]. apply IH in Hu.
      rewrite Hu. rewrite Rmax_right by exact He. lra.
Qed.

(** X24: the [convex_conjugate] of a [ConstantFunction] is the sum of
    the positive parts of the entries of [x], whatever the constant:
    it is never negative, and it is zero exactly when no entry of [x]
    is positive.  [x] is left as it was. *)
Theorem X24_ConstantFunction_convex_conjugate
  (l : option R) (c : R) (x : loc) (s : store) (X : DataContainer) :
  s !! x = Some X ->
  exists v s',
    convex_conjugate U (ConstantFunction l c) x s = (Ok v, s') /\
    v = fold_right Rplus 0 (map (fun e => Rmax e 0) (array X)) /\
    0 <= v /\ (v = 0 <-> Forall (fun e => e <= 0) (array X)) /\
    s' !! x = Some X.
Proof.
  intros Hx. apply lookup_lt_Some in Hx as Hxl.
  eexists _, _. split.
  - cbn [convex_conjugate]. unfold maximum_new, sum, bind, read, alloc.
    rewrite Hx. rewrite lookup_app_r by lia. rewrite Nat.sub_diag.
    reflexivity.
  - cbn [array]. split; [reflexivity|].
    destruct (sum_of_positive_parts (array X)) as [H0 Hiff].
    split; [exact H0|]. split; [exact Hiff|].
    rewrite lookup_app_l by exact Hxl. exact Hx.
Qed.

End Conjugate_properties.

Lemma X21_ScaledFunction_convex_conjugate_witness :
  exists s2,
    convex_conjugate (fun _ => Some (fold_right Rplus 0))
      (ScaledFunction None (bare None) 2) 0%nat [mkDC float_kind [4; 6]]
    = (Ok (2 * (4 / 2 + (6 / 2 + 0))), s2) /\
    s2 !! 0%nat = Some (mkDC float_kind [4; 6]).
Proof.
  eapply (X21_ScaledFunction_convex_conjugate
            (fun _ => Some (fold_right Rplus 0)) None (bare None) 2 0%nat
            [mkDC float_kind [4; 6]] (mkDC float_kind [4; 6]) float_kind).
  - reflexivity.
  - split; [eexists; reflexivity|]. split; [constructor|].
    repeat constructor. lra.
  - cbv -[IZR Rplus Rmult Rminus Ropp Rinv Rdiv]. reflexivity.
Defined.

Lemma X22_convex_conjugate_witness :
  snd (convex_conjugate (fun _ => Some (fold_right Rplus 0))
         (ScaledFunction None (TranslateFunction None (bare None) 1%nat) 2)
         0%nat [mkDC float_kind [4; 6]; mkDC float_kind [1; 2]]) !! 0%nat
  = [mkDC float_kind [4; 6]; mkDC float_kind [1; 2]] !! 0%nat.
Proof.
  eapply (X22_convex_conjugate_leaves_the_store_unchanged
            (fun _ => Some (fold_right Rplus 0))
            (ScaledFunction None (TranslateFunction None (bare None) 1%nat) 2)
            0%nat [mkDC float_kind [4; 6]; mkDC float_kind [1; 2]]
            (mkDC float_kind [4; 6])).
  - reflexivity.
  - split; [eexists; reflexivity|]. split.
    + repeat constructor; (discriminate || (cbn; lia)).
    + repeat constructor. lra.
  - cbv -[IZR Rplus Rmult Rminus Ropp Rinv Rdiv]. reflexivity.
  - cbn. lia.
Defined.

Lemma X23_TranslateFunction_convex_conjugate_witness :
  fst (convex_conjugate (fun _ => Some (fold_right Rplus 0))
         (TranslateFunction None (bare None) 1%nat) 0%nat
         [mkDC float_kind [4; 6]; mkDC float_kind [1; 2]])
  = Ok ((4 + (6 + 0)) + fold_right Rplus 0 [1 * 4; 2 * 6]).
Proof.
  eapply (X23_TranslateFunction_convex_conjugate
            (fun _ => Some (fold_right Rplus 0)) None (bare None) 1%nat 0%nat
            [mkDC float_kind [4; 6]; mkDC float_kind [1; 2]]
            (mkDC float_kind [4; 6]) (mkDC float_kind [1; 2])).
  - reflexivity.
  - reflexivity.
  - split; [eexists; reflexivity|]. split; [|constructor].
    repeat constructor; (discriminate || (cbn; lia)).
  - reflexivity.
  - reflexivity.
Defined.

Lemma X24_ConstantFunction_convex_conjugate_witness :
  exists v s',
    convex_conjugate (fun _ => None) (ConstantFunction (Some 0) 5) 0%nat
      [mkDC float_kind [-1; 0]] = (Ok v, s') /\
    v = fold_right Rplus 0 (map (fun e => Rmax e 0) [-1; 0]) /\
    0 <= v /\ (v = 0 <-> Forall (fun e => e <= 0) [-1; 0]) /\
    s' !! 0%nat = Some (mkDC float_kind [-1; 0]).
Proof.
  apply (X24_ConstantFunction_convex_conjugate (fun _ => None) (Some 0) 5
           0%nat [mkDC float_kind [-1; 0]] (mkDC float_kind [-1; 0])).
  reflexivity.
Defined.

(** ** Gradients *)

Lemma bind_run {A B} (m : M A) (k : A -> M B) (s : store) :
  bind m k s
  = match m s with
    | (Ok a, s') => k a s'
    | (Raise e, s') => (Raise e, s')
    end.
Proof. reflexivity. Qed.

Lemma map_times_zero (v : list R) :
  map (fun a => a * 0) v = map (fun _ => 0) v.
Proof. apply map_ext. intros a. ring. Qed.

(** [ret += y] on two floating containers *)
Lemma accumulate_run (r p : loc) (s : store) (acc w : list R) :
  s !! r = Some (mkDC float_kind acc) -> s !! p = Some (mkDC float_kind w) ->
  add_out r p r s
  = match pixel_wise Rplus acc w with
    | Some a => (Ok tt, <[r := mkDC float_kind a]> s)
    | None => (Raise ValueError, s)
    end.
Proof.
  intros Hr Hp. unfold add_out.
  rewrite (binary_out_run Rplus r p r s _ _ _ Hr Hp Hr). cbn.
  destruct (pixel_wise Rplus acc w) as [a|] eqn:E; [|reflexivity].
  apply pixel_wise_Some in E as (_ & _ & ->). rewrite Nat.eqb_refl.
  reflexivity.
Qed.

Lemma ConstantFunction_gradient_new (x : loc) (s : store) (X : DataContainer) :
  s !! x = Some X ->
  ConstantFunction_gradient x None s
  = (Ok (Some (length s)),
     s ++ [mkDC float_kind (map (fun _ => 0) (array X))]).
Proof.
  intros Hx. unfold ConstantFunction_gradient, multiply_new, bind.
  rewrite (scalar_new_run _ x s X Hx), map_times_zero. reflexivity.
Qed.

Section Gradient_properties.
Variable G : LeafImpl -> option (list R -> list R).

Lemma gradient_loop_ref_length (gr : Func -> option (list R))
  (fs : list Func) :
  forall acc w, gradient_loop_ref gr fs acc = Some w -> length w = length acc.
Proof.
  induction fs as [|g rest IH]; intros acc w; cbn [gradient_loop_ref].
  - intros [= <-]. reflexivity.
  - destruct (gr g) as [u|]; [|discriminate].
    destruct (pixel_wise Rplus acc u) as [a|] eqn:E; [|discriminate].
    intros H. apply IH in H. apply pixel_wise_Some in E as (_ & _ & E). lia.
Qed.

(** [gradient_ref] reads the store at the centers only. *)
Lemma gradient_ref_ext (s s' : store) (f : Func) :
  Forall (fun b => s' !! b = s !! b) (call_centers f) ->
  forall v, gradient_ref G s' f v = gradient_ref G s f v.
Proof.
  induction f as [l i|l fs IH|l g a IH|l g c IH|l c|l g b IH]
    using Func_nested_ind; intros Hc v;
    cbn [gradient_ref call_centers] in *; try reflexivity.
  - destruct IH as [|g0 rest Hg0 IH]; [reflexivity|].
    cbn [flat_map] in Hc. apply Forall_app in Hc as [Hc1 Hc2].
    rewrite (Hg0 Hc1). destruct (gradient_ref G s g0 v) as [w0|]; [|reflexivity].
    revert w0. induction IH as [|g rest' Hg _ IHrest]; intros acc;
      [reflexivity|].
    cbn [flat_map] in Hc2. apply Forall_app in Hc2 as [Hc21 Hc22].
    cbn [gradient_loop_ref]. rewrite (Hg Hc21).
    destruct (gradient_ref G s g v) as [w|]; [|reflexivity].
    destruct (pixel_wise Rplus acc w); [apply IHrest, Hc22|reflexivity].
  - rewrite (IH Hc). reflexivity.
  - rewrite (IH Hc). reflexivity.
  - apply Forall_cons in Hc as [Hb Hc]. rewrite Hb.
    destruct (s !! b) as [B|]; [|reflexivity].
    destruct (pixel_wise Rminus v (array B)) as [d|]; [|reflexivity].
    apply IH, Hc.
Qed.

(** The loop of [SumFunction.gradient], adding to the floating
    container [r], run from a store that agrees with [s] on the
    containers of [s] other than [r]. *)
Lemma gradient_loop_spec (x : loc) (s : store) (X : DataContainer)
  (r : loc) (fs : list Func) :
  s !! x = Some X -> r <> x ->
  Forall (fun g => forall x out s X,
              s !! x = Some X -> gradient_ready s g x out ->
              gradient_post s out (gradient_ref G s g (array X))
                (gradient G g x out s)) fs ->
  Forall (fun b => b <> x /\ (b < length s)%nat /\ b <> r)
         (flat_map call_centers fs) ->
  fold_right (fun g P => sums_not_empty g /\ P) True fs ->
  forall acc s',
    (forall l, (l < length s)%nat -> l <> r -> s' !! l = s !! l) ->
    (length s <= length s')%nat ->
    s' !! r = Some (mkDC float_kind acc) ->
    match gradient_loop_ref (fun g => gradient_ref G s g (array X)) fs acc with
    | Some w =>
        exists s'',
          SumFunction_gradient_loop (fun g => gradient G g x None) r fs s'
          = (Ok tt, s'') /\
          s'' !! r = Some (mkDC float_kind w) /\
          (length s <= length s'')%nat /\
          forall l, (l < length s)%nat -> l <> r -> s'' !! l = s !! l
    | None =>
        exists e,
          fst (SumFunction_gradient_loop (fun g => gradient G g x None) r fs s')
          = Raise e
    end.
Proof.
  intros Hx Hrx IH. induction IH as [|g rest Hg _ IHrest];
    intros Hc Hne acc s' Hs' Hlen Hr.
  - cbn. exists s'. auto.
  - cbn [flat_map] in Hc. apply Forall_app in Hc as [Hc1 Hc2].
    cbn [fold_right] in Hne. destruct Hne as [Hne1 Hne2].
    cbn [gradient_loop_ref SumFunction_gradient_loop]. rewrite bind_run.
    apply lookup_lt_Some in Hx as Hxl. apply lookup_lt_Some in Hr as Hrl.
    assert (Hx' : s' !! x = Some X) by (rewrite Hs'; auto).
    assert (Hready : gradient_ready s' g x None).
    { split; [eauto|]. split; [|split; [exact Hne1|exact I]].
      eapply Forall_impl; [exact Hc1|].
      intros b (? & ? & ?). split; [assumption|]. split; [lia|discriminate]. }
    specialize (Hg x None s' X Hx' Hready).
    rewrite (gradient_ref_ext s s' g) in Hg.
    2:{ eapply Forall_impl; [exact Hc1|]. intros b (? & ? & ?).
        apply Hs'; assumption. }
    destruct (gradient G g x None s') as [r1 s1].
    destruct (gradient_ref G s g (array X)) as [w|].
    2:{ destruct Hg as [e Hg]. cbn [fst] in Hg. subst r1.
        exists e. reflexivity. }
    destruct Hg as (p & Hr1 & Hp & H1p & Hfr1). cbn [fst snd] in *. subst r1.
    assert (H1r : s1 !! r = Some (mkDC float_kind acc))
      by (rewrite Hfr1; assumption).
    cbn [operand]. rewrite bind_run. cbn [ret]. rewrite bind_run.
    rewrite (accumulate_run r p s1 acc w H1r H1p).
    destruct (pixel_wise Rplus acc w) as [a|];
      [|exists ValueError; reflexivity].
    apply lookup_lt_Some in H1p as H1pl. apply lookup_lt_Some in H1r as H1rl.
    apply IHrest; [exact Hc2|exact Hne2| | |].
    + intros l Hl Hlr. rewrite list_lookup_insert_ne by congruence.
      rewrite Hfr1 by lia. apply Hs'; assumption.
    + rewrite length_insert. lia.
    + apply list_lookup_insert_eq. exact H1rl.
Qed.

(** The runs of [gradient]: the result holds the reference value in a
    floating container, and every container of the initial store other
    than [out] is, at the end, as it was. *)
Lemma gradient_spec (f : Func) :
  forall x out s X,
    s !! x = Some X -> gradient_ready s f x out ->
    gradient_post s out (gradient_ref G s f (array X)) (gradient G f x out s).
Proof.
  induction f as [l i|l fs IH|l g a IH|l g c IH|l c|l g b IH]
    using Func_nested_ind; intros x out s X Hx (_ & Hc & Hne & Hout);
    apply lookup_lt_Some in Hx as Hxl.
  - (* a leaf *)
    cbn [gradient gradient_ref]. destruct (G i) as [F|];
      [|exists NotImplementedError; reflexivity].
    unfold bind, read. rewrite Hx. destruct out as [o|].
    + destruct Hout as (Hox & X' & Dout & _ & Ho & Hk & _).
      unfold gradient_post. rewrite Ho, (fill_values_run _ _ _ _ Ho).
      destruct (Nat.eqb _ _); [|exists ValueError; reflexivity].
      cbn [fst snd ret]. apply lookup_lt_Some in Ho as Hlt.
      split; [reflexivity|]. split; [apply list_lookup_insert_eq, Hlt|].
      split; [rewrite length_insert; lia|].
      intros l0 _ Hl0. apply list_lookup_insert_ne. congruence.
    + exists (length s). cbn [fst snd alloc ret].
      split; [reflexivity|]. split; [lia|]. split.
      * rewrite lookup_app_r by lia. rewrite Nat.sub_diag. reflexivity.
      * intros l0 Hl. apply lookup_app_l, Hl.
  - (* SumFunction *)
    cbn [sums_not_empty] in Hne. destruct Hne as [Hfs Hne].
    destruct IH as [|g0 rest Hg0 IH]; [congruence|].
    cbn [call_centers flat_map] in Hc. apply Forall_app in Hc as [Hc0 Hc].
    cbn [fold_right] in Hne. destruct Hne as [Hne0 Hne].
    cbn [gradient_ref].
    assert (Hready : gradient_ready s g0 x out).
    { split; [eauto|]. split; [exact Hc0|]. split; assumption. }
    specialize (Hg0 x out s X Hx Hready).
    destruct out as [o|].
    + destruct Hout as (Hox & X' & Dout & _ & Ho & Hk & Hsh).
      apply lookup_lt_Some in Ho as Hol.
      cbn [gradient]. rewrite bind_run. unfold gradient_post in Hg0 |- *.
      rewrite Ho in Hg0 |- *.
      destruct (gradient G g0 x (Some o) s) as [r1 s1].
      destruct (gradient_ref G s g0 (array X)) as [w0|].
      2:{ destruct Hg0 as [e Hg0]. cbn [fst] in Hg0. subst r1.
          exists e. reflexivity. }
      destruct (Nat.eqb_spec (length w0) (length (array Dout))) as [Ew|Ew].
      2:{ destruct Hg0 as [e Hg0]. cbn [fst] in Hg0. subst r1.
          destruct (gradient_loop_ref _ rest w0) as [w|] eqn:Eloop;
            [|exists e; reflexivity].
          apply gradient_loop_ref_length in Eloop.
          destruct (Nat.eqb_spec (length w) (length (array Dout)));
            [lia|exists e; reflexivity]. }
      destruct Hg0 as (Hr1 & H1o & Hlen1 & Hfr1). cbn [fst snd] in *.
      subst r1. rewrite Hk in H1o.
      pose proof (gradient_loop_spec x s X o rest Hx Hox IH) as Hloop.
      specialize (Hloop ltac:(eapply Forall_impl; [exact Hc|];
                              intros b' (? & ? & ?); repeat split;
                              (assumption || congruence)) Hne w0 s1
                        Hfr1 Hlen1 H1o).
      rewrite bind_run.
      destruct (gradient_loop_ref _ rest w0) as [w|] eqn:Eloop.
      * apply gradient_loop_ref_length in Eloop.
        destruct Hloop as (s2 & -> & H2o & Hlen2 & Hfr2).
        rewrite Eloop, Ew, Nat.eqb_refl, Hk. cbn [fst snd ret]. auto.
      * destruct Hloop as [e Hloop].
        destruct (SumFunction_gradient_loop _ o rest s1) as [r2 s2].
        cbn [fst] in Hloop. subst r2. exists e. reflexivity.
    + cbn [gradient]. rewrite bind_run. unfold gradient_post in Hg0 |- *.
      destruct (gradient G g0 x None s) as [r1 s1].
      destruct (gradient_ref G s g0 (array X)) as [w0|].
      2:{ destruct Hg0 as [e Hg0]. cbn [fst] in Hg0. subst r1.
          exists e. reflexivity. }
      destruct Hg0 as (p & Hr1 & Hp & H1p & Hfr1). cbn [fst snd] in *.
      subst r1. apply lookup_lt_Some in H1p as H1pl.
      pose proof (gradient_loop_spec x s X p rest Hx ltac:(lia) IH) as Hloop.
      specialize (Hloop ltac:(eapply Forall_impl; [exact Hc|];
                              intros b' (? & ? & ?); repeat split;
                              (assumption || lia)) Hne w0 s1
                        ltac:(intros; apply Hfr1; assumption) ltac:(lia) H1p).
      cbn [operand]. rewrite bind_run. cbn [ret]. rewrite bind_run.
      destruct (gradient_loop_ref _ rest w0) as [w|].
      * destruct Hloop as (s2 & -> & H2p & Hlen2 & Hfr2).
        exists p. cbn [fst snd ret]. split; [reflexivity|].
        split; [exact Hp|]. split; [exact H2p|].
        intros l0 Hl0. apply Hfr2; lia.
      * destruct Hloop as [e Hloop].
        destruct (SumFunction_gradient_loop _ p rest s1) as [r2 s2].
        cbn [fst] in Hloop. subst r2. exists e. reflexivity.
  - (* ScaledFunction *)
    cbn [call_centers sums_not_empty] in Hc, Hne. cbn [gradient_ref].
    assert (Hready : gradient_ready s g x out).
    { split; [eauto|]. split; [exact Hc|]. split; assumption. }
    specialize (IH x out s X Hx Hready).
    destruct out as [o|].
    + destruct Hout as (Hox & X' & Dout & _ & Ho & Hk & Hsh).
      cbn [gradient]. rewrite bind_run. unfold gradient_post in IH |- *.
      rewrite Ho in IH |- *.
      destruct (gradient G g x (Some o) s) as [r1 s1].
      destruct (gradient_ref G s g (array X)) as [w|].
      2:{ destruct IH as [e IH]. cbn [fst] in IH. subst r1.
          exists e. reflexivity. }
      rewrite length_map.
      destruct (Nat.eqb_spec (length w) (length (array Dout))) as [Ew|Ew].
      2:{ destruct IH as [e IH]. cbn [fst] in IH. subst r1.
          exists e. reflexivity. }
      destruct IH as (Hr1 & H1o & Hlen1 & Hfr1). cbn [fst snd] in *.
      subst r1. rewrite bind_run. unfold multiply_out.
      rewrite (scalar_out_run _ o o s1 _ _ H1o H1o). cbn [dtype array].
      rewrite Hk, Nat.eqb_refl. cbn [can_cast fst snd ret].
      apply lookup_lt_Some in H1o as H1ol.
      split; [reflexivity|]. split; [apply list_lookup_insert_eq, H1ol|].
      split; [rewrite length_insert; exact Hlen1|].
      intros l0 Hl0 Hne0. rewrite list_lookup_insert_ne by congruence.
      apply Hfr1; assumption.
    + cbn [gradient]. rewrite bind_run. unfold gradient_post in IH |- *.
      destruct (gradient G g x None s) as [r1 s1].
      destruct (gradient_ref G s g (array X)) as [w|].
      2:{ destruct IH as [e IH]. cbn [fst] in IH. subst r1.
          exists e. reflexivity. }
      destruct IH as (p & Hr1 & Hp & H1p & Hfr1). cbn [fst snd] in *.
      subst r1. cbn [operand]. rewrite bind_run. cbn [ret]. rewrite bind_run.
      unfold multiply_new. rewrite (scalar_new_run _ p s1 _ H1p).
      apply lookup_lt_Some in H1p as H1pl.
      exists (length s1). cbn [fst snd ret array].
      split; [reflexivity|]. split; [lia|]. split.
      * rewrite lookup_app_r by lia. rewrite Nat.sub_diag. reflexivity.
      * intros l0 Hl0. rewrite lookup_app_l by lia. apply Hfr1, Hl0.
  - (* SumScalarFunction *)
    cbn [call_centers sums_not_empty] in Hc, Hne. cbn [gradient_ref].
    assert (Hready : gradient_ready s g x out).
    { split; [eauto|]. split; [exact Hc|]. split; assumption. }
    specialize (IH x out s X Hx Hready).
    destruct out as [o|].
    + destruct Hout as (Hox & X' & Dout & _ & Ho & Hk & Hsh).
      apply lookup_lt_Some in Ho as Hol.
      cbn [gradient]. rewrite bind_run. unfold gradient_post in IH |- *.
      rewrite Ho in IH |- *.
      destruct (gradient G g x (Some o) s) as [r1 s1].
      destruct (gradient_ref G s g (array X)) as [w|].
      2:{ destruct IH as [e IH]. cbn [fst] in IH. subst r1.
          exists e. reflexivity. }
      destruct (Nat.eqb_spec (length w) (length (array Dout))) as [Ew|Ew].
      2:{ destruct IH as [e IH]. cbn [fst] in IH. subst r1.
          destruct (pixel_wise Rplus w _) as [u|] eqn:Eu;
            [|exists e; reflexivity].
          apply pixel_wise_Some in Eu as (_ & _ & Eu).
          destruct (Nat.eqb_spec (length u) (length (array Dout)));
            [lia|exists e; reflexivity]. }
      destruct IH as (Hr1 & H1o & Hlen1 & Hfr1). cbn [fst snd] in *.
      subst r1. rewrite Hk in H1o.
      assert (H1x : s1 !! x = Some X) by (rewrite Hfr1; auto).
      rewrite bind_run, (ConstantFunction_gradient_new x s1 X H1x).
      cbn [operand]. rewrite bind_run. cbn [ret]. rewrite bind_run.
      apply lookup_lt_Some in H1o as H1ol.
      rewrite (accumulate_run o (length s1) _ w (map (fun _ => 0) (array X))).
      2:{ rewrite lookup_app_l by lia. exact H1o. }
      2:{ rewrite lookup_app_r by lia. rewrite Nat.sub_diag. reflexivity. }
      destruct (pixel_wise Rplus w _) as [u|] eqn:Eu;
        [|exists ValueError; reflexivity].
      apply pixel_wise_Some in Eu as (_ & _ & Eu).
      rewrite Eu, Ew, Nat.eqb_refl, Hk. cbn [fst snd ret].
      split; [reflexivity|]. split.
      * apply list_lookup_insert_eq. rewrite length_app. lia.
      * split; [rewrite length_insert, length_app; lia|].
        intros l0 Hl0 Hne0. rewrite list_lookup_insert_ne by congruence.
        rewrite lookup_app_l by lia. apply Hfr1; assumption.
    + cbn [gradient]. rewrite bind_run. unfold gradient_post in IH |- *.
      destruct (gradient G g x None s) as [r1 s1].
      destruct (gradient_ref G s g (array X)) as [w|].
      2:{ destruct IH as [e IH]. cbn [fst] in IH. subst r1.
          exists e. reflexivity. }
      destruct IH as (p & Hr1 & Hp & H1p & Hfr1). cbn [fst snd] in *.
      subst r1. apply lookup_lt_Some in H1p as H1pl.
      assert (H1x : s1 !! x = Some X) by (rewrite Hfr1; auto).
      cbn [operand]. rewrite bind_run. cbn [ret].
      rewrite bind_run, (ConstantFunction_gradient_new x s1 X H1x).
      cbn [operand]. rewrite bind_run. cbn [ret]. rewrite bind_run.
      rewrite (accumulate_run p (length s1) _ w (map (fun _ => 0) (array X))).
      2:{ rewrite lookup_app_l by lia. exact H1p. }
      2:{ rewrite lookup_app_r by lia. rewrite Nat.sub_diag. reflexivity. }
      destruct (pixel_wise Rplus w _) as [u|];
        [|exists ValueError; reflexivity].
      exists p. cbn [fst snd ret].
      split; [reflexivity|]. split; [exact Hp|]. split.
      * apply list_lookup_insert_eq. rewrite length_app. lia.
      * intros l0 Hl0. rewrite list_lookup_insert_ne by lia.
        rewrite lookup_app_l by lia. apply Hfr1, Hl0.
  - (* ConstantFunction *)
    cbn [gradient gradient_ref]. destruct out as [o|].
    + destruct Hout as (Hox & X' & Dout & Hx' & Ho & Hk & Hsh).
      rewrite Hx in Hx'. injection Hx' as <-.
      unfold gradient_post, ConstantFunction_gradient, fill_number, bind, read.
      rewrite Ho, !length_map, Hsh, Nat.eqb_refl. cbn [fst snd ret write].
      apply lookup_lt_Some in Ho as Hlt.
      split; [reflexivity|]. split.
      * rewrite list_lookup_insert_eq by exact Hlt. do 2 f_equal.
        clear -Hsh. revert Hsh. generalize (array X).
        induction (array Dout) as [|d0 u IHu]; intros [|x0 v] E;
          try discriminate; [reflexivity|].
        cbn. f_equal. apply IHu. cbn in E. lia.
      * split; [rewrite length_insert; lia|].
        intros l0 _ Hl0. apply list_lookup_insert_ne. congruence.
    + rewrite (ConstantFunction_gradient_new x s X Hx).
      exists (length s). cbn [fst snd].
      split; [reflexivity|]. split; [lia|]. split.
      * rewrite lookup_app_r by lia. rewrite Nat.sub_diag. reflexivity.
      * intros l0 Hl. apply lookup_app_l, Hl.
  - (* TranslateFunction *)
    cbn [call_centers sums_not_empty] in Hc, Hne.
    apply Forall_cons in Hc as [(Hbx & Hbl & Hbo) Hc].
    destruct (lookup_lt_is_Some_2 _ _ Hbl) as [B Hb].
    cbn [gradient gradient_ref]. rewrite Hb, bind_run.
    destruct (pixel_wise Rminus (array X) (array B)) as [d|] eqn:Ed.
    2:{ unfold subtract_out, subtract_new.
        rewrite (enter_binary Rminus x b s X B Hx Hb), Ed.
        exists ValueError. reflexivity. }
    destruct (translate_enter x b s X B d Hx Hb Ed)
      as (tmp & s1 & k1 & -> & H1 & Hfr1 & Hlen1 & _ & _ & Htmp & Hleave).
    assert (H1b : s1 !! b = Some B) by (rewrite Hfr1; auto).
    assert (Hval : gradient_ref G s1 g d = gradient_ref G s g d).
    { apply gradient_ref_ext. eapply Forall_impl; [exact Hc|].
      intros b' (? & ? & _). apply Hfr1; assumption. }
    apply pixel_wise_Some in Ed as (_ & Edl & Edl').
    assert (Hready : gradient_ready s1 g tmp out).
    { split; [eauto|]. split; [|split; [exact Hne|]].
      - eapply Forall_impl; [exact Hc|]. intros b' (? & ? & ?).
        split; [lia|]. split; [lia|assumption].
      - destruct out as [o|]; [|exact I].
        destruct Hout as (Hox & X' & Dout & Hx' & Ho & Hk & Hsh).
        rewrite Hx in Hx'. injection Hx' as <-.
        apply lookup_lt_Some in Ho as Hol.
        split; [lia|]. exists (mkDC k1 d), Dout. split; [exact H1|].
        split; [rewrite Hfr1; auto|]. split; [exact Hk|].
        cbn [array]. lia. }
    specialize (IH tmp out s1 (mkDC k1 d) H1 Hready).
    cbn [array] in IH. rewrite Hval in IH. rewrite bind_run.
    destruct out as [o|].
    + destruct Hout as (Hox & X' & Dout & _ & Ho & Hk & Hsh).
      apply lookup_lt_Some in Ho as Hol.
      assert (H1o : s1 !! o = Some Dout) by (rewrite Hfr1; auto).
      unfold gradient_post in IH |- *. rewrite H1o in IH. rewrite Ho.
      rewrite bind_run.
      destruct (gradient G g tmp (Some o) s1) as [r2 s2].
      destruct (gradient_ref G s g d) as [w|].
      2:{ destruct IH as [e IH]. cbn [fst] in IH. subst r2.
          exists e. reflexivity. }
      destruct (Nat.eqb_spec (length w) (length (array Dout))) as [Ew|Ew].
      2:{ destruct IH as [e IH]. cbn [fst] in IH. subst r2.
          exists e. reflexivity. }
      destruct IH as (Hr2 & H2o & Hlen2 & Hfr2). cbn [fst snd] in *.
      subst r2. cbn [ret].
      destruct (Hleave s2) as (s4 & E4 & H4x & Hlen4 & Hfr4).
      { apply Hfr2; [lia|congruence]. }
      { rewrite Hfr2; [exact H1b|lia|congruence]. }
      rewrite bind_run, E4. cbn [fst snd ret].
      split; [reflexivity|]. split; [rewrite Hfr4 by congruence; exact H2o|].
      split; [lia|].
      intros l0 Hl0 Hne0. destruct (Nat.eq_dec l0 x) as [->|Hnx].
      * congruence.
      * rewrite Hfr4 by exact Hnx.
        rewrite Hfr2 by (lia || congruence). apply Hfr1; assumption.
    + unfold gradient_post in IH |- *.
      destruct (gradient G g tmp None s1) as [r2 s2].
      destruct (gradient_ref G s g d) as [w|].
      2:{ destruct IH as [e IH]. cbn [fst] in IH. subst r2.
          exists e. reflexivity. }
      destruct IH as (p & Hr2 & Hp & H2p & Hfr2). cbn [fst snd] in *.
      subst r2.
      destruct (Hleave s2) as (s4 & E4 & H4x & Hlen4 & Hfr4).
      { apply Hfr2. lia. }
      { rewrite Hfr2; [exact H1b|lia]. }
      rewrite bind_run, E4. cbn [fst snd ret].
      exists p. split; [reflexivity|]. split; [lia|].
      split; [rewrite Hfr4 by lia; exact H2p|].
      intros l0 Hl0. destruct (Nat.eq_dec l0 x) as [->|Hnx].
      * congruence.
      * rewrite Hfr4 by exact Hnx. rewrite Hfr2 by lia.
        apply Hfr1; assumption.
Qed.

Lemma gradient_ready_new (s : store) (f : Func) (x : loc) (out : option loc) :
  gradient_ready s f x out -> gradient_ready s f x None.
Proof.
  intros (H1 & H2 & H3 & _). split; [exact H1|]. split; [|split; [exact H3|exact I]].
  eapply Forall_impl; [exact H2|]. intros b (? & ? & _).
  repeat split; (assumption || discriminate).
Qed.

(** a run of [f.gradient(x)] that returns yields the reference value *)
Lemma gradient_run_ref (f : Func) (x p : loc) (s s1 : store)
  (X : DataContainer) :
  s !! x = Some X -> gradient_ready s f x None ->
  gradient G f x None s = (Ok (Some p), s1) ->
  exists w,
    gradient_ref G s f (array X) = Some w /\
    s1 !! p = Some (mkDC float_kind w) /\ (length s <= p)%nat /\
    forall l, (l < length s)%nat -> s1 !! l = s !! l.
Proof.
  intros Hx Hready Hrun. pose proof (gradient_spec f x None s X Hx Hready) as H.
  rewrite Hrun in H. unfold gradient_post in H.
  destruct (gradient_ref G s f (array X)) as [w|].
  - destruct H as (p' & [= <-] & Hp & H1p & Hfr). exists w. auto.
  - destruct H as [e H]. discriminate H.
Qed.

(** the same for a run on a container appended to the store *)
Lemma gradient_run_ref_appended (F : Func) (s s1 : store) (x p : loc)
  (k : kind) (d : list R) :
  gradient_ready s F x None ->
  gradient G F (length s) None (s ++ [mkDC k d]) = (Ok (Some p), s1) ->
  exists w,
    gradient_ref G s F d = Some w /\ s1 !! p = Some (mkDC float_kind w).
Proof.
  intros (_ & Hc & Hne & _) Hrun.
  assert (Hy : (s ++ [mkDC k d]) !! length s = Some (mkDC k d)).
  { rewrite lookup_app_r by lia. rewrite Nat.sub_diag. reflexivity. }
  assert (Hready : gradient_ready (s ++ [mkDC k d]) F (length s) None).
  { split; [eauto|]. split; [|split; [exact Hne|exact I]].
    eapply Forall_impl; [exact Hc|]. intros b (_ & Hb & _).
    rewrite length_app. cbn [length]. repeat split; (lia || discriminate). }
  destruct (gradient_run_ref F _ p _ s1 _ Hy Hready Hrun)
    as (w & Hw & Hp & _). cbn [array] in Hw.
  rewrite (gradient_ref_ext s (s ++ [mkDC k d])) in Hw.
  2:{ eapply Forall_impl; [exact Hc|]. intros b (_ & Hb & _).
      apply lookup_app_l, Hb. }
  exists w. auto.
Qed.

(** what [gradient_spec] says of a run that writes to [out] *)
Lemma gradient_out_run (f : Func) (x o : loc) (s : store)
  (X Dout : DataContainer) (w : list R) :
  s !! x = Some X -> s !! o = Some Dout ->
  gradient_ready s f x (Some o) ->
  gradient_ref G s f (array X) = Some w ->
  length w = length (array Dout) ->
  exists s2,
    gradient G f x (Some o) s = (Ok None, s2) /\
    s2 !! o = Some (mkDC float_kind w) /\
    forall l, (l < length s)%nat -> l <> o -> s2 !! l = s !! l.
Proof.
  intros Hx Ho Hready Hw Hlen.
  pose proof (gradient_spec f x (Some o) s X Hx Hready) as H.
  unfold gradient_post in H. rewrite Hw, Ho, Hlen, Nat.eqb_refl in H.
  destruct Hready as (_ & _ & _ & _ & X' & Dout' & _ & Ho' & Hk & _).
  rewrite Ho in Ho'. injection Ho' as <-. rewrite Hk in H.
  destruct (gradient G f x (Some o) s) as [r2 s2].
  destruct H as (Hr & Hres & _ & Hfr). cbn [fst snd] in *. subst r2.
  exists s2. auto.
Qed.

Lemma zip_with_plus_zero (w v : list R) :
  length w = length v -> zip_with Rplus w (map (fun _ => 0) v) = w.
Proof.
  revert v. induction w as [|a w IH]; intros [|b v] E; cbn in *;
    try reflexivity; try discriminate.
  f_equal; [ring|apply IH; lia].
Qed.

Lemma gradient_loop_ref_values (gr : Func -> option (list R))
  (fs : list Func) (ws : list (list R)) (n : nat) :
  Forall2 (fun g w => gr g = Some w /\ length w = n) fs ws ->
  forall acc, length acc = n ->
              gradient_loop_ref gr fs acc
              = Some (fold_left (zip_with Rplus) ws acc).
Proof.
  induction 1 as [|g w rest ws' [Hg Hw] _ IH]; intros acc Hacc; cbn;
    [reflexivity|].
  rewrite Hg, pixel_wise_same_length by lia. apply IH.
  rewrite length_zip_with. lia.
Qed.

(** X25: the gradient of [ScaledFunction(F, a)] at [x] is [a] times the
    gradient of [F] at [x], entry by entry, in both calling
    conventions: when [F.gradient(x)] returns a container holding [P],
    the scaled function returns a new floating container holding [P]
    times [a], and with [out=] it leaves [out] holding the same
    values; [x] is as it was. *)
Theorem X25_ScaledFunction_gradient
  (l : option R) (F : Func) (a : R) (x p : loc) (s s1 : store)
  (X P : DataContainer) :
  s !! x = Some X -> gradient_ready s (ScaledFunction l F a) x None ->
  gradient G F x None s = (Ok (Some p), s1) -> s1 !! p = Some P ->
  (exists q s2,
     gradient G (ScaledFunction l F a) x None s = (Ok (Some q), s2) /\
     s2 !! q = Some (mkDC float_kind (map (fun e => e * a) (array P))) /\
     s2 !! x = Some X) /\
  forall o Dout,
    s !! o = Some Dout -> gradient_ready s (ScaledFunction l F a) x (Some o) ->
    length (array P) = length (array Dout) ->
    exists s2,
      gradient G (ScaledFunction l F a) x (Some o) s = (Ok None, s2) /\
      s2 !! o = Some (mkDC float_kind (map (fun e => e * a) (array P))) /\
      s2 !! x = Some X.
Proof.
  intros Hx Hready Hrun HP. apply lookup_lt_Some in Hx as Hxl.
  destruct (gradient_run_ref F x p s s1 X Hx Hready Hrun)
    as (w & Hw & Hp & _). rewrite HP in Hp. injection Hp as ->.
  cbn [array]. split.
  - pose proof (gradient_spec (ScaledFunction l F a) x None s X Hx Hready) as H.
    unfold gradient_post in H. cbn [gradient_ref] in H. rewrite Hw in H.
    destruct (gradient G (ScaledFunction l F a) x None s) as [r2 s2].
    destruct H as (q & Hr & _ & Hq & Hfr). cbn [fst snd] in *. subst r2.
    exists q, s2. split; [reflexivity|]. split; [exact Hq|].
    rewrite Hfr by exact Hxl. exact Hx.
  - intros o Dout Ho Hready' Hlen.
    destruct (gradient_out_run (ScaledFunction l F a) x o s X Dout
                (map (fun e => e * a) w) Hx Ho Hready')
      as (s2 & Hr & Hres & Hfr).
    { cbn [gradient_ref]. rewrite Hw. reflexivity. }
    { rewrite length_map. exact Hlen. }
    exists s2. split; [exact Hr|]. split; [exact Hres|].
    destruct Hready' as (_ & _ & _ & Hox & _).
    rewrite Hfr by (assumption || congruence). exact Hx.
Qed.

(** X26: the two calling conventions of [gradient] agree, for every
    function, a [SumFunction] included.  When [gradient(x)] returns a
    new container holding [P], and [out] is a floating container of
    the shape of [x] and of [P], other than [x] and than the centers,
    then [gradient(x, out=out)] returns [None], leaves [out] holding
    [P] and every other container of the store as it was. *)
Theorem X26_gradient_out_agrees_with_return
  (f : Func) (x o p : loc) (s s1 : store) (X Dout P : DataContainer) :
  s !! x = Some X -> s !! o = Some Dout ->
  gradient_ready s f x (Some o) ->
  gradient G f x None s = (Ok (Some p), s1) -> s1 !! p = Some P ->
  length (array P) = length (array Dout) ->
  exists s2,
    gradient G f x (Some o) s = (Ok None, s2) /\
    s2 !! o = Some (mkDC float_kind (array P)) /\
    forall l, (l < length s)%nat -> l <> o -> s2 !! l = s !! l.
Proof.
  intros Hx Ho Hready Hrun HP Hlen.
  destruct (gradient_run_ref f x p s s1 X Hx
              (gradient_ready_new s f x _ Hready) Hrun)
    as (w & Hw & Hp & _). rewrite HP in Hp. injection Hp as ->.
  cbn [array] in *.
  exact (gradient_out_run f x o s X Dout w Hx Ho Hready Hw Hlen).
Qed.

(** X27: the gradient of a [SumFunction] is the sum of the gradients of
    its functions.  When every function, run on [x] from the same
    store, returns a container of one and the same shape, the
    [SumFunction] returns the container of the first one, to which
    the others have been added in order; [x] is as it was. *)
Theorem X27_SumFunction_gradient_adds_its_children
  (l : option R) (g0 : Func) (rest : list Func) (w0 : list R)
  (ws : list (list R)) (x : loc) (s : store) (X : DataContainer) :
  s !! x = Some X -> gradient_ready s (SumFunction l (g0 :: rest)) x None ->
  Forall2 (fun g w => exists p s1,
               gradient G g x None s = (Ok (Some p), s1) /\
               s1 !! p = Some (mkDC float_kind w) /\
               length w = length w0) (g0 :: rest) (w0 :: ws) ->
  exists q s2,
    gradient G (SumFunction l (g0 :: rest)) x None s = (Ok (Some q), s2) /\
    s2 !! q = Some (mkDC float_kind (fold_left (zip_with Rplus) ws w0)) /\
    s2 !! x = Some X.
Proof.
  intros Hx Hready Hruns. apply lookup_lt_Some in Hx as Hxl.
  assert (Hrefs : Forall2 (fun g w => gradient_ref G s g (array X) = Some w /\
                                      length w = length w0)
                    (g0 :: rest) (w0 :: ws)).
  { destruct Hready as (_ & Hc & (_ & Hne) & _). cbn [call_centers] in Hc.
    revert Hc Hne. generalize (w0 :: ws) Hruns. generalize (g0 :: rest).
    induction 1 as [|g w fs ws' (p & s1 & Hrun & Hp & Hw) _ IH];
      intros Hc Hne; constructor.
    - cbn [flat_map] in Hc. apply Forall_app in Hc as [Hc1 _].
      destruct Hne as [Hne1 _].
      destruct (gradient_run_ref g x p s s1 X Hx) as (w' & Hw' & Hp' & _);
        [|exact Hrun|].
      + split; [eauto|]. split; [exact Hc1|]. split; [exact Hne1|exact I].
      + rewrite Hp in Hp'. injection Hp' as <-. auto.
    - cbn [flat_map] in Hc. apply Forall_app in Hc as [_ Hc2].
      destruct Hne as [_ Hne2]. apply IH; assumption. }
  apply Forall2_cons in Hrefs as [[Hw0 _] Hrefs].
  pose proof (gradient_spec (SumFunction l (g0 :: rest)) x None s X Hx Hready)
    as H.
  unfold gradient_post in H. cbn [gradient_ref] in H. rewrite Hw0 in H.
  rewrite (gradient_loop_ref_values _ rest ws (length w0) Hrefs w0 eq_refl)
    in H.
  destruct (gradient G (SumFunction l (g0 :: rest)) x None s) as [r2 s2].
  destruct H as (q & Hr & _ & Hq & Hfr). cbn [fst snd] in *. subst r2.
  exists q, s2. split; [reflexivity|]. split; [exact Hq|].
  rewrite Hfr by exact Hxl. exact Hx.
Qed.

(** X28: the gradient of [TranslateFunction(F, b)] at [x] is the
    gradient of [F] at [x - b]: when [F.gradient] run on a container
    holding [x - b] returns a container holding [P], the translated
    function run on [x] returns a new container holding [P], whether
    [x - b] is formed in place or in a new container, and leaves [x]
    as it was. *)
Theorem X28_TranslateFunction_gradient
  (l : option R) (F : Func) (b x p : loc) (s s1 : store)
  (X B P : DataContainer) (k : kind) (d : list R) :
  s !! x = Some X -> s !! b = Some B ->
  gradient_ready s (TranslateFunction l F b) x None ->
  pixel_wise Rminus (array X) (array B) = Some d ->
  gradient G F (length s) None (s ++ [mkDC k d]) = (Ok (Some p), s1) ->
  s1 !! p = Some P ->
  exists q s2,
    gradient G (TranslateFunction l F b) x None s = (Ok (Some q), s2) /\
    s2 !! q = Some (mkDC float_kind (array P)) /\
    s2 !! x = Some X.
Proof.
  intros Hx Hb Hready Ed Hrun HP. apply lookup_lt_Some in Hx as Hxl.
  assert (HreadyF : gradient_ready s F x None).
  { destruct Hready as (H1 & H2 & H3 & _). split; [exact H1|].
    cbn [call_centers] in H2. apply Forall_cons in H2 as [_ H2].
    split; [exact H2|]. split; [exact H3|exact I]. }
  destruct (gradient_run_ref_appended F s s1 x p k d HreadyF Hrun)
    as (w & Hw & Hp). rewrite HP in Hp. injection Hp as ->. cbn [array].
  pose proof (gradient_spec (TranslateFunction l F b) x None s X Hx Hready)
    as H.
  unfold gradient_post in H. cbn [gradient_ref] in H. rewrite Hb, Ed, Hw in H.
  destruct (gradient G (TranslateFunction l F b) x None s) as [r2 s2].
  destruct H as (q & Hr & _ & Hq & Hfr). cbn [fst snd] in *. subst r2.
  exists q, s2. split; [reflexivity|]. split; [exact Hq|].
  rewrite Hfr by exact Hxl. exact Hx.
Qed.

(** X29: adding a constant leaves the gradient as it is, provided the
    gradient has the shape of [x].  When [F.gradient(x)] returns a
    container holding [P], [SumScalarFunction(F, c).gradient(x)]
    returns that container holding [P] if [P] has the shape of [x],
    and raises [ValueError] if not: the code adds [x * 0.] to it. *)
Theorem X29_SumScalarFunction_gradient
  (l : option R) (F : Func) (c : R) (x p : loc) (s s1 : store)
  (X P : DataContainer) :
  s !! x = Some X -> gradient_ready s (SumScalarFunction l F c) x None ->
  gradient G F x None s = (Ok (Some p), s1) -> s1 !! p = Some P ->
  (length (array P) = length (array X) ->
   exists s2,
     gradient G (SumScalarFunction l F c) x None s = (Ok (Some p), s2) /\
     s2 !! p = Some P /\ s2 !! x = Some X) /\
  (length (array P) <> length (array X) ->
   fst (gradient G (SumScalarFunction l F c) x None s) = Raise ValueError).
Proof.
  intros Hx Hready Hrun HP. apply lookup_lt_Some in Hx as Hxl.
  destruct (gradient_run_ref F x p s s1 X Hx Hready Hrun)
    as (w & Hw & Hp & Hpl & Hfr). rewrite HP in Hp. injection Hp as ->.
  cbn [array]. apply lookup_lt_Some in HP as HPl.
  assert (H1x : s1 !! x = Some X) by (rewrite Hfr; assumption).
  assert (E : gradient G (SumScalarFunction l F c) x None s
              = match pixel_wise Rplus w (map (fun _ => 0) (array X)) with
                | Some u =>
                    (Ok (Some p),
                     <[p := mkDC float_kind u]>
                       (s1 ++ [mkDC float_kind (map (fun _ => 0) (array X))]))
                | None =>
                    (Raise ValueError,
                     s1 ++ [mkDC float_kind (map (fun _ => 0) (array X))])
                end).
  { cbn [gradient]. rewrite bind_run, Hrun. cbn [operand].
    rewrite bind_run. cbn [ret].
    rewrite bind_run, (ConstantFunction_gradient_new x s1 X H1x).
    cbn [operand]. rewrite bind_run. cbn [ret]. rewrite bind_run.
    rewrite (accumulate_run p (length s1) _ w (map (fun _ => 0) (array X))).
    2:{ rewrite lookup_app_l by lia. exact HP. }
    2:{ rewrite lookup_app_r by lia. rewrite Nat.sub_diag. reflexivity. }
    destruct (pixel_wise Rplus w _); reflexivity. }
  rewrite E. split; intros Hlen.
  - rewrite pixel_wise_same_length by (rewrite length_map; exact Hlen).
    rewrite zip_with_plus_zero by exact Hlen.
    eexists. split; [reflexivity|]. split.
    + apply list_lookup_insert_eq. rewrite length_app. lia.
    + rewrite list_lookup_insert_ne by lia. rewrite lookup_app_l by lia.
      exact H1x.
  - unfold pixel_wise. rewrite length_map.
    destruct (Nat.eqb_spec (length w) (length (array X))); [contradiction|].
    reflexivity.
Qed.

(** X30: a call of [gradient] that returns leaves every container that
    was in the store before the call, other than [out], as it was:
    [x] is not changed, [TranslateFunction.gradient] undoes its
    in-place shift, and the sums are formed in the result. *)
Theorem X30_gradient_leaves_the_store_unchanged
  (f : Func) (x : loc) (out : option loc) (s s' : store) (X : DataContainer)
  (r : option loc) :
  s !! x = Some X -> gradient_ready s f x out ->
  gradient G f x out s = (Ok r, s') ->
  forall l, (l < length s)%nat -> Some l <> out -> s' !! l = s !! l.
Proof.
  intros Hx Hready Hrun l0 Hl0 Hne.
  pose proof (gradient_spec f x out s X Hx Hready) as H.
  rewrite Hrun in H. unfold gradient_post in H.
  destruct (gradient_ref G s f (array X)) as [w|].
  2:{ destruct H as [e H]. discriminate H. }
  destruct out as [o|].
  - destruct Hready as (_ & _ & _ & _ & X' & Dout & _ & Ho & _).
    rewrite Ho in H. destruct (Nat.eqb _ _).
    + destruct H as (_ & _ & _ & Hfr). apply Hfr; [exact Hl0|congruence].
    + destruct H as [e H]. discriminate H.
  - destruct H as (p & _ & _ & _ & Hfr). apply Hfr, Hl0.
Qed.

End Gradient_properties.

Lemma X25_ScaledFunction_gradient_witness :
  (exists q s2,
     gradient (fun _ => Some (map (fun e => 2 * e)))
       (ScaledFunction None (bare None) 3) 0%nat None
       [mkDC float_kind [4; 6]; mkDC float_kind [0; 0]]
     = (Ok (Some q), s2) /\
     s2 !! q = Some (mkDC float_kind [2 * 4 * 3; 2 * 6 * 3]) /\
     s2 !! 0%nat = Some (mkDC float_kind [4; 6])) /\
  exists s2,
    gradient (fun _ => Some (map (fun e => 2 * e)))
      (ScaledFunction None (bare None) 3) 0%nat (Some 1%nat)
      [mkDC float_kind [4; 6]; mkDC float_kind [0; 0]]
    = (Ok None, s2) /\
    s2 !! 1%nat = Some (mkDC float_kind [2 * 4 * 3; 2 * 6 * 3]) /\
    s2 !! 0%nat = Some (mkDC float_kind [4; 6]).
Proof.
  destruct (X25_ScaledFunction_gradient
              (fun _ => Some (map (fun e => 2 * e))) None (bare None) 3
              0%nat 2%nat
              [mkDC float_kind [4; 6]; mkDC float_kind [0; 0]]
              [mkDC float_kind [4; 6]; mkDC float_kind [0; 0];
               mkDC float_kind [2 * 4; 2 * 6]]
              (mkDC float_kind [4; 6]) (mkDC float_kind [2 * 4; 2 * 6]))
    as [H1 H2].
  - reflexivity.
  - split; [eexists; reflexivity|]. split; [constructor|]. split; exact I.
  - reflexivity.
  - reflexivity.
  - split; [exact H1|].
    apply (H2 1%nat (mkDC float_kind [0; 0])).
    + reflexivity.
    + split; [eexists; reflexivity|]. split; [constructor|].
      split; [exact I|]. split; [discriminate|].
      eexists. eexists. repeat split; reflexivity.
    + reflexivity.
Defined.

Lemma X26_gradient_out_witness :
  exists s2,
    gradient (fun _ => Some (map (fun e => 2 * e)))
      (SumFunction None [bare None; ScaledFunction None (bare None) 3])
      0%nat (Some 1%nat)
      [mkDC float_kind [4; 6]; mkDC float_kind [0; 0]]
    = (Ok None, s2) /\
    s2 !! 1%nat
    = Some (mkDC float_kind [2 * 4 + 2 * 4 * 3; 2 * 6 + 2 * 6 * 3]) /\
    forall l, (l < 2)%nat -> l <> 1%nat ->
              s2 !! l = [mkDC float_kind [4; 6]; mkDC float_kind [0; 0]] !! l.
Proof.
  eapply (X26_gradient_out_agrees_with_return
            (fun _ => Some (map (fun e => 2 * e)))
            (SumFunction None [bare None; ScaledFunction None (bare None) 3])
            0%nat 1%nat 2%nat
            [mkDC float_kind [4; 6]; mkDC float_kind [0; 0]] _
            (mkDC float_kind [4; 6]) (mkDC float_kind [0; 0])
            (mkDC float_kind [2 * 4 + 2 * 4 * 3; 2 * 6 + 2 * 6 * 3])).
  - reflexivity.
  - reflexivity.
  - split; [eexists; reflexivity|]. split; [constructor|].
    split; [cbn; split; [discriminate|auto]|]. split; [discriminate|].
    eexists. eexists. repeat split; reflexivity.
  - cbv -[IZR Rplus Rmult Rminus Ropp Rinv Rdiv]. reflexivity.
  - reflexivity.
  - reflexivity.
Defined.

Lemma X27_SumFunction_gradient_witness :
  exists q s2,
    gradient (fun _ => Some (map (fun e => 2 * e)))
      (SumFunction None [bare None; TranslateFunction None (bare None) 1%nat])
      0%nat None [mkDC int_kind [4; 6]; mkDC float_kind [1; 2]]
    = (Ok (Some q), s2) /\
    s2 !! q
    = Some (mkDC float_kind [2 * 4 + 2 * (4 - 1); 2 * 6 + 2 * (6 - 2)]) /\
    s2 !! 0%nat = Some (mkDC int_kind [4; 6]).
Proof.
  eapply (X27_SumFunction_gradient_adds_its_children
            (fun _ => Some (map (fun e => 2 * e))) None (bare None)
            [TranslateFunction None (bare None) 1%nat] [2 * 4; 2 * 6]
            [[2 * (4 - 1); 2 * (6 - 2)]] 0%nat
            [mkDC int_kind [4; 6]; mkDC float_kind [1; 2]]
            (mkDC int_kind [4; 6])).
  - reflexivity.
  - split; [eexists; reflexivity|]. split.
    + repeat constructor; (discriminate || (cbn; lia)).
    + split; [cbn; split; [discriminate|auto]|exact I].
  - constructor; [|constructor; [|constructor]].
    + eexists. eexists. split; [reflexivity|]. split; reflexivity.
    + eexists. eexists. split;
        [cbv -[IZR Rplus Rmult Rminus Ropp Rinv Rdiv]; reflexivity|].
      split; reflexivity.
Defined.

Lemma X28_TranslateFunction_gradient_witness :
  exists q s2,
    gradient (fun _ => Some (map (fun e => 2 * e)))
      (TranslateFunction None (bare None) 1%nat) 0%nat None
      [mkDC int_kind [4; 6]; mkDC float_kind [1; 2]]
    = (Ok (Some q), s2) /\
    s2 !! q = Some (mkDC float_kind [2 * (4 - 1); 2 * (6 - 2)]) /\
    s2 !! 0%nat = Some (mkDC int_kind [4; 6]).
Proof.
  eapply (X28_TranslateFunction_gradient
            (fun _ => Some (map (fun e => 2 * e))) None (bare None)
            1%nat 0%nat 3%nat
            [mkDC int_kind [4; 6]; mkDC float_kind [1; 2]] _
            (mkDC int_kind [4; 6]) (mkDC float_kind [1; 2])
            (mkDC float_kind [2 * (4 - 1); 2 * (6 - 2)]) float_kind
            [4 - 1; 6 - 2]).
  - reflexivity.
  - reflexivity.
  - split; [eexists; reflexivity|]. split.
    + repeat constructor; (discriminate || (cbn; lia)).
    + split; exact I.
  - reflexivity.
  - reflexivity.
  - reflexivity.
Defined.

Lemma X29_SumScalarFunction_gradient_witness :
  (exists s2,
     gradient (fun _ => Some (map (fun e => 2 * e)))
       (SumScalarFunction None (bare None) 5) 0%nat None
       [mkDC float_kind [4; 6]]
     = (Ok (Some 1%nat), s2) /\
     s2 !! 1%nat = Some (mkDC float_kind [2 * 4; 2 * 6]) /\
     s2 !! 0%nat = Some (mkDC float_kind [4; 6])) /\
  fst (gradient (fun _ => Some (fun _ => [1]))
         (SumScalarFunction None (bare None) 5) 0%nat None
         [mkDC float_kind [4; 6]])
  = Raise ValueError.
Proof.
  split.
  - eapply (proj1 (X29_SumScalarFunction_gradient
                     (fun _ => Some (map (fun e => 2 * e))) None (bare None) 5
                     0%nat 1%nat [mkDC float_kind [4; 6]] _
                     (mkDC float_kind [4; 6]) (mkDC float_kind [2 * 4; 2 * 6])
                     _ _ _ _)).
    reflexivity.
  - eapply (proj2 (X29_SumScalarFunction_gradient
                     (fun _ => Some (fun _ => [1])) None (bare None) 5
                     0%nat 1%nat [mkDC float_kind [4; 6]] _
                     (mkDC float_kind [4; 6]) (mkDC float_kind [1])
                     _ _ _ _)).
    cbn. lia.
  Unshelve.
  all: try reflexivity.
  all: split; [eexists; reflexivity|]; split; [constructor|]; split; exact I.
Defined.

Lemma X30_gradient_witness :
  snd (gradient (fun _ => Some (map (fun e => 2 * e)))
         (SumFunction None
            [TranslateFunction None (bare None) 1%nat; ZeroFunction])
         0%nat None [mkDC float_kind [4; 6]; mkDC float_kind [1; 2]]) !! 0%nat
  = [mkDC float_kind [4; 6]; mkDC float_kind [1; 2]] !! 0%nat.
Proof.
  eapply (X30_gradient_leaves_the_store_unchanged
            (fun _ => Some (map (fun e => 2 * e)))
            (SumFunction None
               [TranslateFunction None (bare None) 1%nat; ZeroFunction])
            0%nat None [mkDC float_kind [4; 6]; mkDC float_kind [1; 2]] _
            (mkDC float_kind [4; 6])).
  - reflexivity.
  - split; [eexists; reflexivity|]. split.
    + repeat constructor; (discriminate || (cbn; lia)).
    + split; [cbn; split; [discriminate|auto]|exact I].
  - cbv -[IZR Rplus Rmult Rminus Ropp Rinv Rdiv]. reflexivity.
  - cbn. lia.
  - discriminate.
Defined.

(** * The region of interest of the ZEISS reader *)

Module ZEISS_properties.
Import ZEISS.
Local Open Scope Z_scope.

Lemma set_bounds_good (t : list (option Z)) :
  forall row i row',
    good_row row -> set_bounds row i t = Ok row' -> good_row row'.
Proof.
  induction t as [|[x|] rest IH]; intros row i row' Hrow H; cbn in H.
  - injection H as <-. exact Hrow.
  - destruct Hrow as (a & b & c & -> & Hc).
    destruct (Nat.eqb_spec i 2) as [->|Hi]; cbn [negb] in H.
    + cbn in H. apply (IH _ _ _) in H; [exact H|].
      exists a, b, (if 0 <? x then x else 1). split; [reflexivity|].
      destruct (Z.ltb_spec 0 x); lia.
    + destruct (0 <=? x).
      * unfold set_item in H. cbn [length] in H.
        destruct i as [|[|[|i]]]; cbn in H; try discriminate H;
          try congruence;
          (apply (IH _ _ _) in H; [exact H|]; eexists _, _, _;
           split; [reflexivity|exact Hc]).
      * cbn in H. unfold set_item in H. cbn [length] in H.
        destruct i as [|[|[|i]]]; cbn in H; try discriminate H;
          try congruence;
          (apply (IH _ _ _) in H; [exact H|]; eexists _, _, _;
           split; [reflexivity|exact Hc]).
  - eapply IH; eassumption.
Qed.

Lemma set_roi_loop_good (ft : file_type) (allowed : list String.string)
  (items : roi_dict) :
  forall roi_tmp r,
    Forall good_row roi_tmp ->
    set_roi_loop ft allowed roi_tmp items = Ok r ->
    Forall good_row r /\ length r = length roi_tmp.
Proof.
  induction items as [|[key value] rest IH]; intros roi_tmp r Hgood H; cbn in H.
  - injection H as <-. split; [exact Hgood|reflexivity].
  - destruct (existsb _ allowed); cbn [negb] in H; [|discriminate H].
    destruct (zeis_data_order ft key) as [idx|]; [|discriminate H].
    destruct value as [|t]; [apply IH; assumption|].
    destruct (roi_tmp !! idx) as [row|] eqn:Erow; [|discriminate H].
    destruct (set_bounds row 0 t) as [row'|e] eqn:Eb; [|discriminate H].
    apply IH in H.
    + rewrite length_insert in H. exact H.
    + apply Forall_insert; [exact Hgood|].
      eapply set_bounds_good; [|exact Eb].
      eapply Forall_lookup_1; eassumption.
Qed.

Lemma full_roi_good (m : metadata) : Forall good_row (full_roi m).
Proof. repeat constructor; eexists _, _, _; (split; [reflexivity|lia]). Qed.

(** the rows stay free of negative numbers *)
Lemma set_bounds_not_negative (t : list (option Z)) :
  forall row i row',
    good_row row -> Forall (fun v => 0 <= v) row ->
    set_bounds row i t = Ok row' -> Forall (fun v => 0 <= v) row'.
Proof.
  induction t as [|[x|] rest IH]; intros row i row' Hrow Hpos H; cbn in H.
  - injection H as <-. exact Hpos.
  - destruct Hrow as (a & b & c & -> & Hc).
    apply Forall_cons in Hpos as [Ha Hpos].
    apply Forall_cons in Hpos as [Hb _].
    destruct (Nat.eqb_spec i 2) as [->|Hi]; cbn [negb] in H.
    + cbn in H. apply (IH _ _ _) in H; [exact H| |].
      * eexists _, _, _. split; [reflexivity|].
        destruct (Z.ltb_spec 0 x); lia.
      * repeat constructor; try assumption.
        destruct (Z.ltb_spec 0 x); lia.
    + destruct (Z.leb_spec 0 x).
      * unfold set_item in H. cbn [length] in H.
        destruct i as [|[|[|i]]]; cbn in H; try discriminate H;
          try congruence;
          (apply (IH _ _ _) in H; [exact H| |];
           [eexists _, _, _; split; [reflexivity|exact Hc]
           |repeat constructor; lia]).
      * cbn in H. unfold set_item in H. cbn [length] in H.
        destruct i as [|[|[|i]]]; cbn in H; try discriminate H;
          try congruence;
          (apply (IH _ _ _) in H; [exact H| |];
           [eexists _, _, _; split; [reflexivity|exact Hc]
           |repeat constructor; lia]).
  - eapply IH; eassumption.
Qed.

Lemma set_roi_loop_not_negative (ft : file_type)
  (allowed : list String.string) (items : roi_dict) :
  forall roi_tmp r,
    Forall good_row roi_tmp -> Forall (Forall (fun v => 0 <= v)) roi_tmp ->
    set_roi_loop ft allowed roi_tmp items = Ok r ->
    Forall (Forall (fun v => 0 <= v)) r.
Proof.
  induction items as [|[key value] rest IH]; intros roi_tmp r Hgood Hpos H;
    cbn in H.
  - injection H as <-. exact Hpos.
  - destruct (existsb _ allowed); cbn [negb] in H; [|discriminate H].
    destruct (zeis_data_order ft key) as [idx|]; [|discriminate H].
    destruct value as [|t]; [eapply IH; eassumption|].
    destruct (roi_tmp !! idx) as [row|] eqn:Erow; [|discriminate H].
    destruct (set_bounds row 0 t) as [row'|e] eqn:Eb; [|discriminate H].
    pose proof (Forall_lookup_1 _ _ _ _ Hgood Erow) as Hrow.
    pose proof (Forall_lookup_1 _ _ _ _ Hpos Erow) as Hrowpos.
    apply IH in H; [exact H| |].
    + apply Forall_insert; [exact Hgood|].
      eapply set_bounds_good; [exact Hrow|exact Eb].
    + apply Forall_insert; [exact Hpos|].
      eapply set_bounds_not_negative; [exact Hrow|exact Hrowpos|exact Eb].
Qed.

(** X16: whatever dictionary [set_roi] accepts (its entries being
    integers, [None] or [-1]), the region it stores has three rows
    [start, stop, step] with [step >= 1]; and when the sizes in the
    metadata are not negative, no number in it is negative: a bound
    counted from the end is never handed on as such. *)
Theorem X16_set_roi_stores_positive_steps
  (ft : file_type) (allowed : list String.string) (m : metadata)
  (items : roi_dict) (r : list (list Z)) :
  set_roi ft allowed m (Some items) = Ok (Some r) ->
  length r = 3%nat /\ Forall good_row r /\
  (0 <= number_of_images m -> 0 <= image_height m -> 0 <= image_width m ->
   Forall (Forall (fun v => 0 <= v)) r).
Proof.
  unfold set_roi. intros H.
  destruct (set_roi_loop ft allowed (full_roi m) items) as [r0|e] eqn:E;
    [|discriminate H].
  injection H as ->.
  destruct (set_roi_loop_good ft allowed items _ _ (full_roi_good m) E)
    as [Hgood Hlen].
  cbn [full_roi length] in Hlen. split; [exact Hlen|]. split; [exact Hgood|].
  intros Hn Hh Hw.
  apply (set_roi_loop_not_negative ft allowed items _ _ (full_roi_good m));
    [|exact E].
  repeat constructor; (assumption || lia).
Qed.

Lemma X16_set_roi_witness :
  length [[1000 - -10; 300; 1]; [0; 512; 1]; [0; 200; 2]] = 3%nat /\
  Forall good_row [[1000 - -10; 300; 1]; [0; 512; 1]; [0; 200; 2]] /\
  Forall (Forall (fun v => 0 <= v))
    [[1000 - -10; 300; 1]; [0; 512; 1]; [0; 200; 2]].
Proof.
  destruct (X16_set_roi_stores_positive_steps txm
              ["channel"; "vertical"; "horizontal_y"; "horizontal_x"]%str
              (mkMetadata 1000 512 256)
              [("vertical"%str, bounds [Some (-10); Some 300; Some 0]);
               ("horizontal_x"%str, bounds [None; Some 200; Some 2])]
              [[1000 - -10; 300; 1]; [0; 512; 1]; [0; 200; 2]])
    as (H1 & H2 & H3); [reflexivity|].
  split; [exact H1|]. split; [exact H2|]. apply H3; cbn; lia.
Defined.

Lemma zeis_data_order_lt (ft : file_type) (key : String.string) (idx : nat) :
  zeis_data_order ft key = Some idx -> (idx < 3)%nat.
Proof.
  unfold zeis_data_order.
  destruct ft; repeat (destruct (String.eqb _ _); [intros [= <-]; lia|]);
    discriminate.
Qed.

Lemma full_roi_lookup (m : metadata) (idx : nat) :
  (idx < 3)%nat -> full_roi m !! idx = Some [0; axis_size m idx; 1].
Proof.
  intros H. destruct idx as [|[|[|idx]]]; [reflexivity..|lia].
Qed.





(** X18: bounds that are not negative are stored as they are: they
    are not cut to the size of the axis, and [stop] may lie before
    [start].  The step is [1] when none is given, and a step that is
    not positive is replaced by [1].  So ['vertical': (100, 300)], the
    example of the docstring, stores the row [100, 300, 1]. *)
Theorem X18_set_roi_keeps_non_negative_bounds
  (ft : file_type) (allowed : list String.string) (m : metadata)
  (key : String.string) (idx : nat) (start stop step : Z) :
  existsb (String.eqb key) allowed = true ->
  zeis_data_order ft key = Some idx ->
  0 <= start -> 0 <= stop ->
  set_roi ft allowed m (Some [(key, bounds [Some start; Some stop])])
  = Ok (Some (<[idx := [start; stop; 1]]> (full_roi m))) /\
  set_roi ft allowed m
    (Some [(key, bounds [Some start; Some stop; Some step])])
  = Ok (Some (<[idx := [start; stop; if 0 <? step then step else 1]]>
                (full_roi m))).
Proof.
  intros Ha Hk H0 H1. split.
  - unfold set_roi. cbn [set_roi_loop]. rewrite Ha, Hk. cbn [negb].
    rewrite (full_roi_lookup m idx (zeis_data_order_lt _ _ _ Hk)).
    cbn. destruct (Z.leb_spec 0 start); [|lia].
    cbn. destruct (Z.leb_spec 0 stop); [|lia]. reflexivity.
  - unfold set_roi. cbn [set_roi_loop]. rewrite Ha, Hk. cbn [negb].
    rewrite (full_roi_lookup m idx (zeis_data_order_lt _ _ _ Hk)).
    cbn. destruct (Z.leb_spec 0 start); [|lia].
    cbn. destruct (Z.leb_spec 0 stop); [|lia]. reflexivity.
Qed.

Lemma X18_set_roi_bounds_witness :
  set_roi txm ["channel"; "vertical"; "horizontal_y"; "horizontal_x"]%str
    (mkMetadata 1000 512 256)
    (Some [("vertical"%str, bounds [Some 100; Some 300])])
  = Ok (Some [[100; 300; 1]; [0; 512; 1]; [0; 256; 1]]) /\
  set_roi txm ["channel"; "vertical"; "horizontal_y"; "horizontal_x"]%str
    (mkMetadata 1000 512 256)
    (Some [("vertical"%str, bounds [Some 100; Some 300; Some (-2)])])
  = Ok (Some [[100; 300; 1]; [0; 512; 1]; [0; 256; 1]]).
Proof.
  apply (X18_set_roi_keeps_non_negative_bounds txm
           ["channel"; "vertical"; "horizontal_y"; "horizontal_x"]%str
           (mkMetadata 1000 512 256) "vertical"%str 0%nat 100 300 (-2));
    (reflexivity || lia).
Defined.

(** X19: a negative start or stop [x] is replaced by the size of the
    axis minus [x], that is by the size plus the absolute value of
    [x], which lies past the end of the axis; indexing from the end,
    as numpy has it, would give the size plus [x]. *)
Theorem X19_set_roi_negative_bounds_go_past_the_end
  (ft : file_type) (allowed : list String.string) (m : metadata)
  (key : String.string) (idx : nat) (x : Z) :
  existsb (String.eqb key) allowed = true ->
  zeis_data_order ft key = Some idx ->
  x < 0 ->
  set_roi ft allowed m (Some [(key, bounds [Some x])])
  = Ok (Some (<[idx := [axis_size m idx - x; axis_size m idx; 1]]>
                (full_roi m))) /\
  set_roi ft allowed m (Some [(key, bounds [None; Some x])])
  = Ok (Some (<[idx := [0; axis_size m idx - x; 1]]> (full_roi m))) /\
  axis_size m idx < axis_size m idx - x.
Proof.
  intros Ha Hk Hx.
  pose proof (full_roi_lookup m idx (zeis_data_order_lt _ _ _ Hk)) as Hrow.
  set (N := axis_size m idx) in *. clearbody N.
  split; [|split].
  - unfold set_roi. cbn [set_roi_loop]. rewrite Ha, Hk, Hrow. cbn.
    destruct (Z.leb_spec 0 x); [lia|]. reflexivity.
  - unfold set_roi. cbn [set_roi_loop]. rewrite Ha, Hk, Hrow. cbn.
    destruct (Z.leb_spec 0 x); [lia|]. reflexivity.
  - lia.
Qed.

Lemma X19_set_roi_negative_witness :
  set_roi txm ["channel"; "vertical"; "horizontal_y"; "horizontal_x"]%str
    (mkMetadata 1000 512 256) (Some [("vertical"%str, bounds [Some (-10)])])
  = Ok (Some [[1000 - -10; 1000; 1]; [0; 512; 1]; [0; 256; 1]]) /\
  set_roi txm ["channel"; "vertical"; "horizontal_y"; "horizontal_x"]%str
    (mkMetadata 1000 512 256)
    (Some [("vertical"%str, bounds [None; Some (-10)])])
  = Ok (Some [[0; 1000 - -10; 1]; [0; 512; 1]; [0; 256; 1]]) /\
  1000 < 1000 - -10.
Proof.
  apply (X19_set_roi_negative_bounds_go_past_the_end txm
           ["channel"; "vertical"; "horizontal_y"; "horizontal_x"]%str
           (mkMetadata 1000 512 256) "vertical"%str 0%nat (-10));
    (reflexivity || lia).
Defined.

Lemma set_bounds_past_the_row (t : list (option Z)) :
  forall row i x rest,
    good_row row -> (3 <= i + length t)%nat ->
    set_bounds row i (t ++ Some x :: rest) = Raise IndexError.
Proof.
  induction t as [|[y|] t IH]; intros row i x rest Hrow Hi; cbn in *.
  - destruct Hrow as (a & b & c & -> & Hc).
    destruct i as [|[|[|i]]]; try lia. cbn.
    destruct (0 <=? x); reflexivity.
  - destruct Hrow as (a & b & c & -> & Hc).
    destruct i as [|[|[|i]]]; cbn.
    + destruct (0 <=? y); cbn; apply IH;
        try (eexists _, _, _; split; [reflexivity|exact Hc]); lia.
    + destruct (0 <=? y); cbn; apply IH;
        try (eexists _, _, _; split; [reflexivity|exact Hc]); lia.
    + apply IH; [|lia]. eexists _, _, _. split; [reflexivity|].
      destruct (Z.ltb_spec 0 y); lia.
    + destruct (0 <=? y); reflexivity.
  - apply IH; [exact Hrow|lia].
Qed.

(** X20: what [set_roi] refuses.  A key outside the allowed labels
    raises [AttributeError] (from [self.full_roi.keys()], not the
    message the source prepares); an allowed label that is not an
    axis of the file, as ['channel'], raises [KeyError]; a tuple with
    a fourth entry that is not [None] raises [IndexError]. *)
Theorem X20_set_roi_refusals
  (ft : file_type) (allowed : list String.string) (m : metadata)
  (key : String.string) (value : roi_value) (rest : roi_dict) :
  (existsb (String.eqb key) allowed = false ->
   set_roi ft allowed m (Some ((key, value) :: rest)) = Raise AttributeError)
  /\
  (existsb (String.eqb key) allowed = true ->
   zeis_data_order ft key = None ->
   set_roi ft allowed m (Some ((key, value) :: rest)) = Raise KeyError) /\
  (forall t x t',
      good_key ft allowed key -> (3 <= length t)%nat ->
      set_roi ft allowed m
        (Some ((key, bounds (t ++ Some x :: t')) :: rest))
      = Raise IndexError).
Proof.
  split; [|split].
  - intros Ha. unfold set_roi. cbn. rewrite Ha. reflexivity.
  - intros Ha Hk. unfold set_roi. cbn. rewrite Ha, Hk. reflexivity.
  - intros t x t' [Ha [idx Hk]] Hlen. unfold set_roi. cbn [set_roi_loop].
    rewrite Ha, Hk. cbn [negb].
    rewrite (full_roi_lookup m idx (zeis_data_order_lt _ _ _ Hk)).
    rewrite set_bounds_past_the_row; [reflexivity| |cbn; lia].
    eexists _, _, _. split; [reflexivity|lia].
Qed.

Lemma X20_set_roi_refusals_witness :
  set_roi txrm ["channel"; "angle"; "vertical"; "horizontal"]%str
    (mkMetadata 1000 512 256) (Some [("depth"%str, whole_axis)])
  = Raise AttributeError /\
  set_roi txrm ["channel"; "angle"; "vertical"; "horizontal"]%str
    (mkMetadata 1000 512 256) (Some [("channel"%str, whole_axis)])
  = Raise KeyError /\
  set_roi txrm ["channel"; "angle"; "vertical"; "horizontal"]%str
    (mkMetadata 1000 512 256)
    (Some [("angle"%str, bounds ([None; None; None] ++ [Some 5]))])
  = Raise IndexError.
Proof.
  split; [|split].
  - apply (proj1 (X20_set_roi_refusals txrm _ _ "depth"%str whole_axis [])).
    reflexivity.
  - apply (proj1 (proj2 (X20_set_roi_refusals txrm _ _ "channel"%str
                           whole_axis []))); reflexivity.
  - apply (proj2 (proj2 (X20_set_roi_refusals txrm
                           ["channel"; "angle"; "vertical"; "horizontal"]%str
                           (mkMetadata 1000 512 256) "angle"%str whole_axis []))
             [None; None; None] 5 []).
    + split; [reflexivity|eexists; reflexivity].
    + cbn. lia.
Defined.

End ZEISS_properties.
